(** * MonetDB-Go: the MAPI client core, embedded in Rocq

    A shallow embedding of the MAPI client of MonetDB-Go
    (block framing, login handshake, response parser with its resultset
    cursor, row pagination) together with the properties the specification
    states about it.

    Conventions of the embedding.
    - Go [int] values are [Z]; the one fixed-width conversion of the code,
      [uint16(...)], is written out as a reduction modulo 2^16.
    - Go [string] and [[]byte] are [string] and [list ascii]: an [ascii] is one
      byte.
    - A Go function that mutates its receiver is a function in the state monad
      [M S A] over the receiver's type; its outcome says whether the call
      returned normally ([Ok]), returned a non-nil [error] ([Err]), panicked
      ([Panic]) or exhausted the fuel of the model ([Timeout]).

    The file has three parts: the program, the vocabulary of the properties,
    and the properties with their proofs. *)

From Stdlib Require Import ZArith List String Ascii Bool Lia DecimalString.
Import ListNotations.

Local Open Scope string_scope.
Local Open Scope list_scope.
Local Open Scope Z_scope.

(** * The program *)

(** ** Outcomes and the state monad of the embedding *)

Inductive outcome (A : Type) : Type :=
| Ok (a : A)
| Err (e : string)
| Panic (why : string)
| Timeout.

Arguments Ok {A} a.
Arguments Err {A} e.
Arguments Panic {A} why.
Arguments Timeout {A}.

Definition M (S A : Type) : Type := S -> outcome A * S.

Definition ret {S A} (a : A) : M S A := fun s => (Ok a, s).

Definition bind {S A B} (m : M S A) (f : A -> M S B) : M S B :=
  fun s =>
    match m s with
    | (Ok a, s') => f a s'
    | (Err e, s') => (Err e, s')
    | (Panic w, s') => (Panic w, s')
    | (Timeout, s') => (Timeout, s')
    end.

Definition fail {S A} (e : string) : M S A := fun s => (Err e, s).
Definition panic {S A} (w : string) : M S A := fun s => (Panic w, s).
Definition timeout {S A} : M S A := fun s => (Timeout, s).
Definition get {S} : M S S := fun s => (Ok s, s).
Definition put {S} (s : S) : M S unit := fun _ => (Ok tt, s).
Definition modify {S} (f : S -> S) : M S unit := fun s => (Ok tt, f s).

(** [v, err := f()]: the caller looks at the error itself. *)
Definition attempt {S A} (m : M S A) : M S (A + string) :=
  fun s =>
    match m s with
    | (Ok a, s') => (Ok (inl a), s')
    | (Err e, s') => (Ok (inr e), s')
    | (Panic w, s') => (Panic w, s')
    | (Timeout, s') => (Timeout, s')
    end.

(** [f()] as a statement: the returned error is dropped. *)
Definition discard {S A} (m : M S A) : M S unit :=
  bind (attempt m) (fun _ => ret tt).

Declare Scope go_scope.
Delimit Scope go_scope with go.
Notation "x <- m ;; k" := (bind m (fun x => k))
  (at level 61, m at next level, right associativity) : go_scope.
Notation "' p <- m ;; k" := (bind m (fun x => let 'p := x in k))
  (at level 61, p pattern, m at next level, right associativity) : go_scope.
Notation "m ;;; k" := (bind m (fun _ => k))
  (at level 61, right associativity) : go_scope.
Local Open Scope go_scope.

Definition len {A} (l : list A) : Z := Z.of_nat (List.length l).

(** ** The parts of Go's [strings], [strconv] and [fmt] the client uses *)

Module GoStrings.

(** [strings.HasPrefix(s, p)] *)
Definition HasPrefix (s p : string) : bool := String.prefix p s.

(** [strings.Split(s, sep)] for a non-empty [sep] (every call site passes a
    constant one): the fields between the leftmost non-overlapping
    occurrences of [sep].  [skip] counts the bytes of a separator that are
    still to be passed over, [cur] is the field being read. *)
Fixpoint splitFrom (sep : string) (skip : nat) (cur s : string) : list string :=
  match s with
  | EmptyString => [cur]
  | String c s' =>
      match skip with
      | S k => splitFrom sep k cur s'
      | O =>
          if String.prefix sep s
          then cur :: splitFrom sep (String.length sep - 1) "" s'
          else splitFrom sep 0 (cur ++ String c "")%string s'
      end
  end.

Definition Split (s sep : string) : list string := splitFrom sep 0 "" s.

(** [strings.Contains(s, sub)] *)
Fixpoint Contains (s sub : string) : bool :=
  String.prefix sub s
  || match s with
     | EmptyString => false
     | String _ s' => Contains s' sub
     end.

(** [strings.TrimSpace] on ASCII text: tab, line feed, vertical tab, form
    feed, carriage return and space are white space. *)
Definition isSpace (c : ascii) : bool :=
  let n := nat_of_ascii c in
  ((9 <=? n)%nat && (n <=? 13)%nat) || (n =? 32)%nat.

Fixpoint trimLeft (s : string) : string :=
  match s with
  | EmptyString => EmptyString
  | String c s' => if isSpace c then trimLeft s' else s
  end.

Definition reverse (s : string) : string :=
  string_of_list_ascii (rev (list_ascii_of_string s)).

Definition TrimSpace (s : string) : string :=
  reverse (trimLeft (reverse (trimLeft s))).

(** [strconv.Atoi] on a 64-bit platform; the flag is [true] when Go's error is
    nil.  A syntax error gives 0, a range error the nearest bound. *)
Definition maxInt : Z := 2 ^ 63 - 1.
Definition minInt : Z := - 2 ^ 63.

Definition digit (c : ascii) : option Z :=
  let n := Z.of_nat (nat_of_ascii c) in
  if (48 <=? n) && (n <=? 57) then Some (n - 48) else None.

Fixpoint digits (acc : Z) (s : string) : option Z :=
  match s with
  | EmptyString => Some acc
  | String c s' =>
      match digit c with
      | Some d => digits (10 * acc + d) s'
      | None => None
      end
  end.

Definition Atoi (s : string) : Z * bool :=
  let '(neg, body) :=
    match s with
    | String "-" s' => (true, s')
    | String "+" s' => (false, s')
    | _ => (false, s)
    end in
  match body with
  | EmptyString => (0, false)
  | _ =>
      match digits 0 body with
      | None => (0, false)
      | Some n =>
          let v := if neg then - n else n in
          if v >? maxInt then (maxInt, false)
          else if v <? minInt then (minInt, false)
          else (v, true)
      end
  end.

(** [fmt.Sprintf("%d", z)] *)
Definition itoa (z : Z) : string := NilZero.string_of_int (Z.to_int z).

(** [s[lo:hi]] and [s[lo:]]; Go panics when the bounds are out of range. *)
Definition substr (s : string) (lo hi : Z) : option string :=
  if (0 <=? lo) && (lo <=? hi) && (hi <=? Z.of_nat (String.length s))
  then Some (String.substring (Z.to_nat lo) (Z.to_nat (hi - lo)) s)
  else None.

Definition suffixFrom (s : string) (lo : Z) : option string :=
  substr s lo (Z.of_nat (String.length s)).

End GoStrings.
Import GoStrings.

(** ** Framing transport (mapi: getBlock, getBytes, putBlock)

    The TCP connection is a pair of byte pipes.  [inbound] holds what the peer
    has sent and the client has not read yet, as the list of segments in which
    it arrives: one [Read] returns bytes of the first non-empty segment only,
    at most as many as the buffer holds, and fails at the end of the data.
    [outbound] is the list of the [Write] calls made so far.  The pipe accepts
    every [Write]. *)

Definition byte : Type := ascii.

Record TCPConn : Type := mkTCPConn {
  inbound : list (list byte);
  outbound : list (list byte)
}.

Definition mapi_MAX_PACKAGE_LENGTH : Z := (1024 * 8) - 2.

Module Transport.

(** [c.conn.Read(b)] with [len(b) = n], on the segments of the pipe: the
    bytes read and the segments that are left. *)
Fixpoint readSegments (segs : list (list byte)) (n : nat)
  : option (list byte * list (list byte)) :=
  match segs with
  | [] => None
  | [] :: rest => readSegments rest n
  | seg :: rest => Some (firstn n seg, skipn n seg :: rest)
  end.

(** [Read]: the end of the data is the only failure of the pipe. *)
Definition Read (n : Z) : M TCPConn (list byte) :=
  fun c =>
    match readSegments (inbound c) (Z.to_nat n) with
    | None => (Err "EOF", c)
    | Some (data, rest) => (Ok data, mkTCPConn rest (outbound c))
    end.

(** [c.conn.Write(b)] on a connection that takes every write: the error of
    a write on a broken connection is no part of this pipe. *)
Definition Write (b : list byte) : M TCPConn unit :=
  modify (fun c => mkTCPConn (inbound c) (outbound c ++ [b])).

(** [c.conn.Close()]: nothing is read from or written to a closed connection
    afterwards, the handle drops it. *)
Definition Close : M TCPConn unit := ret tt.

(** [make([]byte, n)] *)
Definition make (n : Z) : list byte := repeat zero (Z.to_nat n).

(** [copy(dst, src)]: the first [min(len(dst), len(src))] bytes of [dst] are
    overwritten; the result is the new content of [dst]. *)
Definition copy (dst src : list byte) : list byte :=
  firstn (List.length dst) src ++ skipn (List.length src) dst.

(** [b[lo:hi]] *)
Definition slice {S} (b : list byte) (lo hi : Z) : M S (list byte) :=
  if (0 <=? lo) && (lo <=? hi) && (hi <=? len b)
  then ret (firstn (Z.to_nat (hi - lo)) (skipn (Z.to_nat lo) b))
  else panic "slice bounds out of range".

(** The loop of [getBytes]: [r] is the result buffer, [read] the count of
    bytes received so far.  Every [Read] uses the whole scratch buffer [b] of
    [count] bytes; [copy] keeps what fits into [r[read:]]. *)
Fixpoint getBytes_loop (fuel : nat) (count read : Z) (r : list byte)
  : M TCPConn (list byte) :=
  if read <? count then
    match fuel with
    | O => timeout
    | S fuel' =>
        data <- Read count ;;
        let n := len data in
        let r' := firstn (Z.to_nat read) r
                  ++ copy (skipn (Z.to_nat read) r) data in
        getBytes_loop fuel' count (read + n) r'
    end
  else ret r.

(** A [Read] that succeeds returns at least one byte, so [count] rounds
    suffice. *)
Definition getBytes (count : Z) : M TCPConn (list byte) :=
  getBytes_loop (Z.to_nat count) count 0 (make count).

(** [binary.Read(buf, binary.LittleEndian, &unpacked)] for a [uint16]. *)
Definition readUint16LE (flag : list byte) : M TCPConn Z :=
  match flag with
  | lo :: hi :: _ =>
      ret (Z.of_N (N_of_ascii lo) + 256 * Z.of_N (N_of_ascii hi))
  | _ => fail "unexpected EOF"
  end.

(** [binary.Write(flag, binary.LittleEndian, packed)] for a [uint16]. *)
Definition writeUint16LE (packed : Z) : list byte :=
  [ascii_of_N (Z.to_N (packed mod 256)); ascii_of_N (Z.to_N (packed / 256))].

(** [uint16(z)] *)
Definition uint16 (z : Z) : Z := z mod 2 ^ 16.

(** The loop of [getBlock]: [r] is the accumulator. *)
Fixpoint getBlock_loop (fuel : nat) (r : list byte) (last : Z)
  : M TCPConn (list byte) :=
  if last =? 1 then ret r
  else
    match fuel with
    | O => timeout
    | S fuel' =>
        flag <- getBytes 2 ;;
        unpacked <- readUint16LE flag ;;
        let length := Z.shiftr unpacked 1 in
        let last := Z.land unpacked 1 in
        d <- getBytes length ;;
        getBlock_loop fuel' (r ++ d) last
    end.

(** The number of bytes that wait on the inbound pipe. *)
Definition pending (c : TCPConn) : nat := List.length (List.concat (inbound c)).

(** Every round of the loop takes a header off the inbound pipe, so one round
    more than there are bytes pending cannot be reached. *)
Definition getBlock : M TCPConn (list byte) :=
  fun c => getBlock_loop (S (pending c)) [] 0 c.

(** The loop of [putBlock]. *)
Fixpoint putBlock_loop (fuel : nat) (b : list byte) (pos last : Z)
  : M TCPConn unit :=
  if last =? 1 then ret tt
  else
    match fuel with
    | O => timeout
    | S fuel' =>
        let end_ := pos + mapi_MAX_PACKAGE_LENGTH in
        let end_ := if end_ >? len b then len b else end_ in
        data <- slice b pos end_ ;;
        let length := len data in
        let last := if length <? mapi_MAX_PACKAGE_LENGTH then 1 else last in
        let packed := uint16 (Z.shiftl length 1 + last) in
        Write (writeUint16LE packed) ;;;
        Write data ;;;
        putBlock_loop fuel' b (pos + length) last
    end.

(** A round that does not end the loop moves [pos] forward by a full package,
    so the loop makes at most [len(b) / 8190 + 1] rounds. *)
Definition putBlock (b : list byte) : M TCPConn unit :=
  putBlock_loop (S (List.length b)) b 0 0.

End Transport.

(** ** The connection handle and the login handshake (mapi: MapiConn) *)

Definition mapi_MSG_PROMPT : string := "".
Definition mapi_MSG_INFO : string := "#".
Definition mapi_MSG_ERROR : string := "!".
Definition mapi_MSG_Q : string := "&".
Definition mapi_MSG_QTABLE : string := "&1".
Definition mapi_MSG_QUPDATE : string := "&2".
Definition mapi_MSG_QSCHEMA : string := "&3".
Definition mapi_MSG_QTRANS : string := "&4".
Definition mapi_MSG_QPREPARE : string := "&5".
Definition mapi_MSG_QBLOCK : string := "&6".
Definition mapi_MSG_HEADER : string := "%".
Definition mapi_MSG_TUPLE : string := "[".
Definition mapi_MSG_REDIRECT : string := "^".
Definition mapi_MSG_OK : string := "=OK".
Definition mapi_MSG_MORE : string :=
  String (ascii_of_nat 1) (String (ascii_of_nat 2) (String (ascii_of_nat 10) "")).

Definition mapi_STATE_READY : Z := 1.
Definition mapi_STATE_INIT : Z := 0.
Definition MAPI_ARRAY_SIZE : Z := 100.

Record MapiConn : Type := mkMapiConn {
  Hostname : string;
  Port : Z;
  Username : string;
  Password : string;
  Database : string;
  Language : string;
  State : Z;
  sizeHeader : bool;
  replySize : Z;
  autoCommit : bool;
  conn : option TCPConn
}.

Definition set_Hostname (v : string) (c : MapiConn) : MapiConn :=
  mkMapiConn v (Port c) (Username c) (Password c) (Database c) (Language c)
             (State c) (sizeHeader c) (replySize c) (autoCommit c) (conn c).
Definition set_Port (v : Z) (c : MapiConn) : MapiConn :=
  mkMapiConn (Hostname c) v (Username c) (Password c) (Database c) (Language c)
             (State c) (sizeHeader c) (replySize c) (autoCommit c) (conn c).
Definition set_Database (v : string) (c : MapiConn) : MapiConn :=
  mkMapiConn (Hostname c) (Port c) (Username c) (Password c) v (Language c)
             (State c) (sizeHeader c) (replySize c) (autoCommit c) (conn c).
Definition set_State (v : Z) (c : MapiConn) : MapiConn :=
  mkMapiConn (Hostname c) (Port c) (Username c) (Password c) (Database c)
             (Language c) v (sizeHeader c) (replySize c) (autoCommit c) (conn c).
Definition set_conn (v : option TCPConn) (c : MapiConn) : MapiConn :=
  mkMapiConn (Hostname c) (Port c) (Username c) (Password c) (Database c)
             (Language c) (State c) (sizeHeader c) (replySize c) (autoCommit c) v.

(** The hash functions of Go's [crypto] package: the digest of a text. *)
Class Hashes : Type := {
  SHA512 : string -> list byte;
  SHA1 : string -> list byte;
  MD5 : string -> list byte
}.

(** The network the client dials into: [net.ResolveTCPAddr] followed by
    [net.DialTCP] either fails or gives a connection, whose inbound pipe holds
    what the server at that address is going to send. *)
Class Network : Type := {
  DialTCP : string -> Z -> option (list (list byte))
}.

Module Mapi.

Import Transport.

(** [a[i]] on a slice *)
Definition index {S A} (a : list A) (i : Z) : M S A :=
  if i <? 0 then panic "index out of range"
  else match nth_error a (Z.to_nat i) with
       | Some x => ret x
       | None => panic "index out of range"
       end.

(** [s[lo:]] and [s[lo:hi]] on a string *)
Definition from {S} (s : string) (lo : Z) : M S string :=
  match suffixFrom s lo with
  | Some t => ret t
  | None => panic "slice bounds out of range"
  end.

Definition between {S} (s : string) (lo hi : Z) : M S string :=
  match substr s lo hi with
  | Some t => ret t
  | None => panic "slice bounds out of range"
  end.

(** [fmt.Sprintf("%x", digest)] *)
Definition hexDigit (n : N) : ascii :=
  if (n <? 10)%N then ascii_of_N (48 + n) else ascii_of_N (87 + n).

Fixpoint hex (digest : list byte) : string :=
  match digest with
  | [] => ""
  | b :: rest =>
      let n := N_of_ascii b in
      String (hexDigit (n / 16)) (String (hexDigit (n mod 16)) (hex rest))
  end.

(** A method of the connection handle that works on the TCP connection; the
    handle of a connected session holds one. *)
Definition onConn {A} (m : M TCPConn A) : M MapiConn A :=
  fun c =>
    match conn c with
    | None => (Panic "nil pointer dereference", c)
    | Some t => let '(r, t') := m t in (r, set_conn (Some t') c)
    end.

Definition getBlock : M MapiConn (list byte) := onConn Transport.getBlock.

Definition putBlock (b : list byte) : M MapiConn unit :=
  onConn (Transport.putBlock b).

(** [strconv.ParseInt(s, 10, 32)] with the error dropped *)
Definition ParseInt32 (s : string) : Z :=
  let '(v, _) := Atoi s in
  if v >? 2 ^ 31 - 1 then 2 ^ 31 - 1
  else if v <? - 2 ^ 31 then - 2 ^ 31
  else v.

Section Handshake.

Context {H : Hashes} {N : Network}.

(** [challengeResponse] produces a response given a challenge. *)
Definition challengeResponse (challenge : list byte) : M MapiConn string :=
  c <- get ;;
  let t := Split (string_of_list_ascii challenge) ":" in
  salt <- index t 0 ;;
  protocol <- index t 2 ;;
  hashes <- index t 3 ;;
  algo <- index t 5 ;;
  if negb (protocol =? "9")%string
  then fail "mapi: we only speak protocol v9"
  else
    (if (algo =? "SHA512")%string then ret tt
     else fail ("mapi: unsupported algorithm: " ++ algo)%string) ;;;
    let p := hex (SHA512 (Password c)) in
    let shashes := ("," ++ hashes ++ ",")%string in
    pwhash <-
      (if Contains shashes ",SHA1,"
       then ret ("{SHA1}" ++ hex (SHA1 (p ++ salt)))%string
       else if Contains shashes ",MD5,"
       then ret ("{MD5}" ++ hex (MD5 (p ++ salt)))%string
       else fail ("mapi: unsupported hash algorithm required for login "
                  ++ hashes)%string) ;;
    ret ("BIG:" ++ Username c ++ ":" ++ pwhash ++ ":" ++ Language c ++ ":"
         ++ Database c ++ ":")%string.

(** [Connect], with the login sequence it ends in left open. *)
Definition Connect_with (login : M MapiConn unit) : M MapiConn unit :=
  modify (set_conn None) ;;;
  c <- get ;;
  match DialTCP (Hostname c) (Port c) with
  | None => fail "dial tcp: connection failed"
  | Some script =>
      modify (set_conn (Some (mkTCPConn script []))) ;;;
      login
  end.

(** [tryLogin] performs the login activity.  It calls itself for a redirect to
    the meta-proxy and, through [Connect], for a redirect to a server; [fuel]
    bounds the depth of these calls. *)
Fixpoint tryLogin (fuel : nat) (iteration : Z) : M MapiConn unit :=
  match fuel with
  | O => timeout
  | S fuel' =>
      challenge <- getBlock ;;
      response <- challengeResponse challenge ;;
      discard (putBlock (list_ascii_of_string response)) ;;;
      r <- attempt getBlock ;;
      match r with
      | inr _ => ret tt
      | inl bprompt =>
          let prompt := TrimSpace (string_of_list_ascii bprompt) in
          (if Z.of_nat (String.length prompt) =? 0 then ret tt
           else if (prompt =? mapi_MSG_OK)%string then ret tt
           else if HasPrefix prompt mapi_MSG_INFO then ret tt
           else if HasPrefix prompt mapi_MSG_ERROR then
             e <- from prompt 1 ;;
             fail ("mapi: database error: " ++ e)%string
           else if HasPrefix prompt mapi_MSG_REDIRECT then
             let t := Split prompt " " in
             t0 <- index t 0 ;;
             t0' <- from t0 1 ;;
             let r := Split t0' ":" in
             r1 <- index r 1 ;;
             if (r1 =? "merovingian")%string then
               if iteration <=? 10
               then discard (tryLogin fuel' (iteration + 1))
               else fail "mapi: maximal number of redirects reached (10)"
             else if (r1 =? "monetdb")%string then
               r2 <- index r 2 ;;
               host <- from r2 2 ;;
               modify (set_Hostname host) ;;;
               r3 <- index r 3 ;;
               let t := Split r3 "/" in
               t0 <- index t 0 ;;
               modify (set_Port (ParseInt32 t0)) ;;;
               t1 <- index t 1 ;;
               modify (set_Database t1) ;;;
               onConn Close ;;;
               discard (Connect_with (tryLogin fuel' 0))
             else fail ("mapi: unknown redirect: " ++ prompt)%string
           else fail ("mapi: unknown state: " ++ prompt)%string) ;;;
          modify (set_State mapi_STATE_READY) ;;;
          ret tt
      end
  end.

(** [login] starts the login sequence. *)
Definition login (fuel : nat) : M MapiConn unit := tryLogin fuel 0.

(** [Connect] starts a MAPI connection to MonetDB server. *)
Definition Connect (fuel : nat) : M MapiConn unit := Connect_with (login fuel).

End Handshake.

(** [cmd] sends a MAPI command to MonetDB.  It calls itself when the server
    asks for more input; [fuel] bounds these calls. *)
Fixpoint cmd (fuel : nat) (operation : string) : M MapiConn string :=
  match fuel with
  | O => timeout
  | S fuel' =>
      c <- get ;;
      if negb (State c =? mapi_STATE_READY)
      then fail "mapi: database is not connected"
      else
        putBlock (list_ascii_of_string operation) ;;;
        r <- getBlock ;;
        let resp := string_of_list_ascii r in
        if Z.of_nat (String.length resp) =? 0 then ret ""
        else if HasPrefix resp mapi_MSG_OK then
          rest <- from resp 3 ;;
          ret (TrimSpace rest)
        else if (resp =? mapi_MSG_MORE)%string then cmd fuel' ""
        else if HasPrefix resp mapi_MSG_Q || HasPrefix resp mapi_MSG_HEADER
                || HasPrefix resp mapi_MSG_TUPLE then ret resp
        else if HasPrefix resp mapi_MSG_ERROR then
          e <- from resp 1 ;;
          fail ("mapi: operational error: " ++ e)%string
        else fail ("mapi: unknown state: " ++ resp)%string
  end.

(** [fetchNext]; every call of [cmd] reads a block before it calls itself,
    so the input that is pending bounds the calls. *)
Definition fetchNext (queryId offset amount : Z) : M MapiConn string :=
  fun c =>
    let fuel := match conn c with
                | Some t => S (pending t)
                | None => 1%nat
                end in
    cmd fuel ("Xexport " ++ itoa queryId ++ " " ++ itoa offset ++ " "
              ++ itoa amount)%string c.

(** A call [c.cmd(operation)] made by a method of the handle, with the bound
    on the calls of [cmd] that [fetchNext] has. *)
Definition call (operation : string) : M MapiConn string :=
  fun c =>
    let fuel := match conn c with
                | Some t => S (pending t)
                | None => 1%nat
                end in
    cmd fuel operation c.

(** [Execute] *)
Definition Execute (query : string) : M MapiConn string :=
  call ("s" ++ query ++ ";")%string.

(** [SetSizeHeader] *)
Definition SetSizeHeader (enable : bool) : M MapiConn string :=
  let sizeheader := if enable then 1 else 0 in
  call ("Xsizeheader " ++ itoa sizeheader)%string.

(** [SetReplySize] *)
Definition SetReplySize (size : Z) : M MapiConn string :=
  call ("Xreply_size " ++ itoa size)%string.

(** [SetAutoCommit] *)
Definition SetAutoCommit (enable : bool) : M MapiConn string :=
  let autoCommit := if enable then 1 else 0 in
  call ("Xauto_commit " ++ itoa autoCommit)%string.

(** [Disconnect] closes the connection. *)
Definition Disconnect : M MapiConn unit :=
  modify (set_State mapi_STATE_INIT) ;;;
  c <- get ;;
  match conn c with
  | Some _ => onConn Close ;;; modify (set_conn None)
  | None => ret tt
  end.

End Mapi.

(** ** Resultsets and the response parser (mapi: ResultSet, query) *)

Record TableElement : Type := mkTableElement {
  ColumnName : string;
  ColumnType : string;
  DisplaySize : Z;
  InternalSize : Z;
  Precision : Z;
  Scale : Z;
  NullOk : Z
}.

Record Metadata : Type := mkMetadata {
  ExecId : Z;
  LastRowId : Z;
  RowCount : Z;
  QueryId : Z;
  Offset : Z;
  ColumnCount : Z
}.

Definition set_ExecId (v : Z) (m : Metadata) : Metadata :=
  mkMetadata v (LastRowId m) (RowCount m) (QueryId m) (Offset m) (ColumnCount m).
Definition set_LastRowId (v : Z) (m : Metadata) : Metadata :=
  mkMetadata (ExecId m) v (RowCount m) (QueryId m) (Offset m) (ColumnCount m).
Definition set_RowCount (v : Z) (m : Metadata) : Metadata :=
  mkMetadata (ExecId m) (LastRowId m) v (QueryId m) (Offset m) (ColumnCount m).
Definition set_QueryId (v : Z) (m : Metadata) : Metadata :=
  mkMetadata (ExecId m) (LastRowId m) (RowCount m) v (Offset m) (ColumnCount m).
Definition set_Offset (v : Z) (m : Metadata) : Metadata :=
  mkMetadata (ExecId m) (LastRowId m) (RowCount m) (QueryId m) v (ColumnCount m).
Definition set_ColumnCount (v : Z) (m : Metadata) : Metadata :=
  mkMetadata (ExecId m) (LastRowId m) (RowCount m) (QueryId m) (Offset m) v.

(** The value codec of the package ([convertToGo]) and the row conversion of
    the driver ([convertRows]) are not part of the sources at hand; the
    parser and the cursor are embedded over any of them.  [Value] is Go's
    [interface{}]. [convertRows] answers [None] when it panics.
    [DriverValue] is [driver.Value], an interface too: [asString v] is the
    type assertion [v.(string)], and [fromBytes b] is the slice of bytes [b]
    as a value of the interface. *)
Class Codec : Type := {
  Value : Type;
  convertToGo : string -> string -> outcome Value;
  DriverValue : Type;
  convertRows : list (list Value) -> Z -> option (list (list DriverValue));
  asString : DriverValue -> option string;
  fromBytes : list byte -> DriverValue
}.

(** What [Next] puts into [dest] for the value [v] of a row: the slice of
    the bytes of [vv] when [vv, ok := v.(string)] gives [ok], and [v]
    itself when it does not. *)
Definition destValue {C : Codec} (v : DriverValue) : DriverValue :=
  match asString v with
  | Some vv => fromBytes (list_ascii_of_string vv)
  | None => v
  end.

(** The kinds of response lines, [LineType] of the package. *)
Inductive LineType : Type :=
| PROMT | INFO | ERROR | QTABLE | QUPDATE | QSCHEMA | QTRANS | QPREPARE
| QBLOCK | HEADER | TUPLE | REDIRECT | OK | UNKNOWN.

Definition getLineType (line : string) : LineType :=
  if (line =? mapi_MSG_PROMPT)%string then PROMT
  else if HasPrefix line mapi_MSG_INFO then INFO
  else if HasPrefix line mapi_MSG_ERROR then ERROR
  else if HasPrefix line mapi_MSG_QPREPARE then QPREPARE
  else if HasPrefix line mapi_MSG_QTABLE then QTABLE
  else if HasPrefix line mapi_MSG_TUPLE then TUPLE
  else if HasPrefix line mapi_MSG_QBLOCK then QBLOCK
  else if HasPrefix line mapi_MSG_QSCHEMA then QSCHEMA
  else if HasPrefix line mapi_MSG_QUPDATE then QUPDATE
  else if HasPrefix line mapi_MSG_QTRANS then QTRANS
  else if HasPrefix line mapi_MSG_HEADER then HEADER
  else UNKNOWN.

Section Parser.

Context {C : Codec}.

Record ResultSet : Type := mkResultSet {
  Metadata_ : Metadata;
  Schema : list TableElement;
  Rows_ : list (list Value)
}.

Definition on_Metadata (f : Metadata -> Metadata) (s : ResultSet) : ResultSet :=
  mkResultSet (f (Metadata_ s)) (Schema s) (Rows_ s).
Definition set_Schema (v : list TableElement) (s : ResultSet) : ResultSet :=
  mkResultSet (Metadata_ s) v (Rows_ s).
Definition set_Rows (v : list (list Value)) (s : ResultSet) : ResultSet :=
  mkResultSet (Metadata_ s) (Schema s) v.

(** [ResultSet{}] *)
Definition emptyResultSet : ResultSet :=
  mkResultSet (mkMetadata 0 0 0 0 0 0) [] [].

(** The query of the package: the connection it runs on, the text, the
    resultsets accumulated so far and the cursor into them. *)
Record query : Type := mkQuery {
  mapi : option MapiConn;
  sqlQuery : string;
  resultSets : list ResultSet;
  currentResultSet : Z
}.

Definition set_mapi (v : option MapiConn) (q : query) : query :=
  mkQuery v (sqlQuery q) (resultSets q) (currentResultSet q).
Definition set_resultSets (v : list ResultSet) (q : query) : query :=
  mkQuery (mapi q) (sqlQuery q) v (currentResultSet q).
Definition set_currentResultSet (v : Z) (q : query) : query :=
  mkQuery (mapi q) (sqlQuery q) (resultSets q) v.

Definition NewQuery (conn : option MapiConn) (q : string) : query :=
  mkQuery conn q [] (-1).

(** A [*ResultSet] is [nil] or points at an element of the backing array of
    [resultSets]. *)
Definition ptr : Type := option nat.

(** [q.Result()] *)
Definition Result : M query ptr :=
  q <- get ;;
  if currentResultSet q =? -1 then ret None
  else if (0 <=? currentResultSet q) && (currentResultSet q <? len (resultSets q))
  then ret (Some (Z.to_nat (currentResultSet q)))
  else panic "index out of range".

(** [*p] read *)
Definition load (p : ptr) : M query ResultSet :=
  match p with
  | None => panic "nil pointer dereference"
  | Some i =>
      q <- get ;;
      match nth_error (resultSets q) i with
      | Some s => ret s
      | None => panic "invalid pointer"
      end
  end.

Fixpoint update {A} (i : nat) (f : A -> A) (l : list A) : list A :=
  match l, i with
  | [], _ => []
  | x :: l', O => f x :: l'
  | x :: l', S i' => x :: update i' f l'
  end.

(** [p.field = v] *)
Definition store (p : ptr) (f : ResultSet -> ResultSet) : M query unit :=
  match p with
  | None => panic "nil pointer dereference"
  | Some i =>
      q <- get ;;
      match nth_error (resultSets q) i with
      | Some _ => put (set_resultSets (update i f (resultSets q)) q)
      | None => panic "invalid pointer"
      end
  end.

Definition lift {S A} (o : outcome A) : M S A := fun s => (o, s).

(** [a[i] = v] on a slice *)
Definition setIndex {S A} (a : list A) (i : Z) (v : A) : M S (list A) :=
  if (0 <=? i) && (i <? len a)
  then ret (update (Z.to_nat i) (fun _ => v) a)
  else panic "index out of range".

(** [make([]T, n)] with the zero value [z], for a length [n] that is the
    length of a slice at hand whose elements are no smaller than [T]: the
    slice at hand is within the limit of the allocator, so the new one is,
    and the test of the runtime for a negative length is the only one that
    is kept. *)
Definition makeSlice {S A} (z : A) (n : Z) : M S (list A) :=
  if n <? 0 then panic "makeslice: len out of range"
  else ret (repeat z (Z.to_nat n)).

(** [maxAlloc] of the runtime, the limit of the allocator in bytes, as it is
    on a 64-bit platform (linux/amd64). *)
Definition maxAlloc : Z := 2 ^ 48.

(** The sizes in bytes of a [string] and of an [int] on such a platform. *)
Definition sizeof_string : Z := 16.
Definition sizeof_int : Z := 8.

(** [make([]T, n)] for any length [n], [T] being of [size] bytes and [z] its
    zero value, after [runtime.makeslice]: it panics when the length is
    negative and when the slice would be larger than [maxAlloc]; within that
    limit memory is not bounded. *)
Definition makeSliceOf {S A} (size : Z) (z : A) (n : Z) : M S (list A) :=
  if (n <? 0) || (maxAlloc <? size * n)
  then panic "makeslice: len out of range"
  else ret (repeat z (Z.to_nat n)).

(** The loop of [parseTuple]; [i] is the index of the next field. *)
Fixpoint parseTuple_loop {S} (schema : list TableElement) (items : list string)
         (i : Z) : M S (list Value) :=
  match items with
  | [] => ret []
  | value :: rest =>
      col <- Mapi.index schema i ;;
      vv <- lift (convertToGo value (ColumnType col)) ;;
      v <- parseTuple_loop schema rest (i + 1) ;;
      ret (vv :: v)
  end.

(** [s.parseTuple(d)] *)
Definition parseTuple (s : ptr) (d : string) : M query (list Value) :=
  inner <- Mapi.between d 1 (Z.of_nat (String.length d) - 1) ;;
  let items := Split inner ("," ++ String (ascii_of_nat 9) "")%string in
  rs <- load s ;;
  if negb (len items =? len (Schema rs))
  then fail "mapi: length of row doesn't match header"
  else parseTuple_loop (Schema rs) items 0.

(** The local variables of [StoreResult]. *)
Record locals : Type := mkLocals {
  columnNames : list string;
  columnTypes : list string;
  displaySizes : list Z;
  internalSizes : list Z;
  precisions : list Z;
  scales : list Z;
  nullOks : list Z;
  addedResultSets : bool
}.

Definition locals0 : locals := mkLocals [] [] [] [] [] [] [] false.

Definition set_added (l : locals) : locals :=
  mkLocals (columnNames l) (columnTypes l) (displaySizes l) (internalSizes l)
           (precisions l) (scales l) (nullOks l) true.

(** The loop of [updateSchema]. *)
Fixpoint updateSchema_loop {S} (names : list string) (i : Z) (l : locals)
  : M S (list TableElement) :=
  match names with
  | [] => ret []
  | columnName :: rest =>
      ty <- Mapi.index (columnTypes l) i ;;
      ds <- Mapi.index (displaySizes l) i ;;
      si <- Mapi.index (internalSizes l) i ;;
      pr <- Mapi.index (precisions l) i ;;
      sc <- Mapi.index (scales l) i ;;
      nu <- Mapi.index (nullOks l) i ;;
      d <- updateSchema_loop rest (i + 1) l ;;
      ret (mkTableElement columnName ty ds si pr sc nu :: d)
  end.

(** [s.updateSchema(columnNames, ..., nullOks)] *)
Definition updateSchema (s : ptr) (l : locals) : M query unit :=
  d <- updateSchema_loop (columnNames l) 0 l ;;
  store s (set_Schema d).

(** [q.newResultSet()] *)
Definition newResultSet : M query unit :=
  let r := on_Metadata (set_ExecId (-1)) emptyResultSet in
  modify (fun q => set_resultSets (resultSets q ++ [r]) q) ;;;
  modify (fun q => set_currentResultSet (currentResultSet q + 1) q).

(** The numbers of one header value: [strconv.Atoi] of each word, errors
    dropped. *)
Definition numbers (value : string) : list Z :=
  map (fun v => fst (Atoi v)) (Split value " ").

(** The two loops of the [typesizes] header. *)
Fixpoint typesizes_loop {S} (values : list string) (i : Z)
         (internalSizes : list Z) (sizes : list (list Z))
  : M S (list Z * list (list Z)) :=
  match values with
  | [] => ret (internalSizes, sizes)
  | value :: rest =>
      let s := numbers value in
      s0 <- Mapi.index s 0 ;;
      internalSizes' <- setIndex internalSizes i s0 ;;
      typesizes_loop rest (i + 1) internalSizes' (sizes ++ [s])
  end.

Fixpoint decimal_loop {S} (types : list string) (j : Z) (sizes : list (list Z))
         (precisions scales : list Z) : M S (list Z * list Z) :=
  match types with
  | [] => ret (precisions, scales)
  | t :: rest =>
      if (t =? "decimal")%string then
        sj <- Mapi.index sizes j ;;
        p <- Mapi.index sj 0 ;;
        precisions' <- setIndex precisions j p ;;
        s <- Mapi.index sj 1 ;;
        scales' <- setIndex scales j s ;;
        decimal_loop rest (j + 1) sizes precisions' scales'
      else decimal_loop rest (j + 1) sizes precisions scales
  end.

(** The loop of the [length] header. *)
Fixpoint length_loop {S} (values : list string) (i : Z) (displaySizes : list Z)
  : M S (list Z) :=
  match values with
  | [] => ret displaySizes
  | value :: rest =>
      let s := numbers value in
      s0 <- Mapi.index s 0 ;;
      displaySizes' <- setIndex displaySizes i s0 ;;
      length_loop rest (i + 1) displaySizes'
  end.

(** What the body of the loop of [StoreResult] does with one line: go on with
    the next line, or [return nil].  A [return] of an error is [Err]. *)
Inductive flow : Type :=
| Continue (l : locals)
| Return.

(** The branches of the loop body of [StoreResult], one for each kind of
    line. *)

(** [QPREPARE] *)
Definition storePrepare (line : string) : M query flow :=
  newResultSet ;;;
  rest <- Mapi.from line 2 ;;
  let t := Split (TrimSpace rest) " " in
  p <- Result ;;
  t0 <- Mapi.index t 0 ;;
  store p (on_Metadata (set_ExecId (fst (Atoi t0)))) ;;;
  ret Return.

(** [QTABLE] *)
Definition storeTable (line : string) (l : locals) : M query flow :=
  newResultSet ;;;
  let l := set_added l in
  rest <- Mapi.from line 2 ;;
  let t := Split (TrimSpace rest) " " in
  p <- Result ;;
  t0 <- Mapi.index t 0 ;;
  store p (on_Metadata (set_QueryId (fst (Atoi t0)))) ;;;
  p <- Result ;;
  t1 <- Mapi.index t 1 ;;
  store p (on_Metadata (set_RowCount (fst (Atoi t1)))) ;;;
  p <- Result ;;
  t2 <- Mapi.index t 2 ;;
  store p (on_Metadata (set_ColumnCount (fst (Atoi t2)))) ;;;
  p <- Result ;; s <- load p ;;
  let n := ColumnCount (Metadata_ s) in
  names <- makeSliceOf sizeof_string "" n ;;
  types <- makeSliceOf sizeof_string "" n ;;
  zeros <- makeSliceOf sizeof_int 0 n ;;
  ret (Continue (mkLocals names types zeros zeros zeros zeros zeros
                          (addedResultSets l))).

(** [TUPLE] *)
Definition storeTuple (line : string) (l : locals) : M query flow :=
  p <- Result ;;
  v <- parseTuple p line ;;
  p <- Result ;;
  p' <- Result ;; s <- load p' ;;
  store p (set_Rows (Rows_ s ++ [v])) ;;;
  ret (Continue l).

(** [QBLOCK] *)
Definition storeBlock (l : locals) : M query flow :=
  p <- Result ;; store p (set_Rows []) ;;;
  ret (Continue l).

(** [QSCHEMA] and [QTRANS], which have the same body *)
Definition storeMarker (l : locals) : M query flow :=
  newResultSet ;;;
  p <- Result ;; store p (on_Metadata (set_Offset 0)) ;;;
  p <- Result ;; store p (set_Rows []) ;;;
  p <- Result ;; store p (on_Metadata (set_LastRowId 0)) ;;;
  p <- Result ;; store p (set_Schema []) ;;;
  p <- Result ;; store p (on_Metadata (set_RowCount 0)) ;;;
  ret (Continue (set_added l)).

(** [QUPDATE] *)
Definition storeUpdate (line : string) (l : locals) : M query flow :=
  q <- get ;;
  l <- (if currentResultSet q =? -1
        then newResultSet ;;; ret (set_added l)
        else ret l) ;;
  rest <- Mapi.from line 2 ;;
  let t := Split (TrimSpace rest) " " in
  p <- Result ;;
  t0 <- Mapi.index t 0 ;;
  store p (on_Metadata (set_RowCount (fst (Atoi t0)))) ;;;
  p <- Result ;;
  t1 <- Mapi.index t 1 ;;
  store p (on_Metadata (set_LastRowId (fst (Atoi t1)))) ;;;
  ret (Continue l).

(** [HEADER]: what the header line does to the local variables *)
Definition headerLocals {S} (identity : string) (values : list string)
           (l : locals) : M S locals :=
  if (identity =? "name")%string then
    ret (mkLocals values (columnTypes l) (displaySizes l)
                  (internalSizes l) (precisions l) (scales l)
                  (nullOks l) (addedResultSets l))
  else if (identity =? "type")%string then
    ret (mkLocals (columnNames l) values (displaySizes l)
                  (internalSizes l) (precisions l) (scales l)
                  (nullOks l) (addedResultSets l))
  else if (identity =? "typesizes")%string then
    '(internalSizes', sizes) <-
      typesizes_loop values 0 (internalSizes l) [] ;;
    '(precisions', scales') <-
      decimal_loop (columnTypes l) 0 sizes (precisions l) (scales l) ;;
    ret (mkLocals (columnNames l) (columnTypes l) (displaySizes l)
                  internalSizes' precisions' scales'
                  (nullOks l) (addedResultSets l))
  else if (identity =? "length")%string then
    displaySizes' <- length_loop values 0 (displaySizes l) ;;
    ret (mkLocals (columnNames l) (columnTypes l) displaySizes'
                  (internalSizes l) (precisions l) (scales l)
                  (nullOks l) (addedResultSets l))
  else ret l.

(** [HEADER] *)
Definition storeHeader (line : string) (l : locals) : M query flow :=
  rest <- Mapi.from line 1 ;;
  let t := Split rest "#" in
  t0 <- Mapi.index t 0 ;;
  let data := TrimSpace t0 in
  t1 <- Mapi.index t 1 ;;
  let identity := TrimSpace t1 in
  let values := map TrimSpace (Split data ",") in
  l <- headerLocals identity values l ;;
  p <- Result ;;
  updateSchema p l ;;;
  p <- Result ;; store p (on_Metadata (set_Offset 0)) ;;;
  p <- Result ;; store p (on_Metadata (set_LastRowId 0)) ;;;
  ret (Continue l).

(** [PROMT] *)
Definition storePrompt (l : locals) : M query flow :=
  (if addedResultSets l
   then modify (set_currentResultSet 0)
   else ret tt) ;;;
  ret Return.

(** The loop body of [StoreResult]. *)
Definition storeLine (line : string) (l : locals) : M query flow :=
  match getLineType line with
  | INFO => ret (Continue l)
  | QPREPARE => storePrepare line
  | QTABLE => storeTable line l
  | TUPLE => storeTuple line l
  | QBLOCK => storeBlock l
  | QSCHEMA => storeMarker l
  | QUPDATE => storeUpdate line l
  | QTRANS => storeMarker l
  | HEADER => storeHeader line l
  | PROMT => storePrompt l
  | ERROR =>
      e <- Mapi.from line 1 ;;
      fail ("mapi: database error: " ++ e)%string
  | UNKNOWN => fail ("mapi: protocol error: " ++ line)%string
  | REDIRECT | OK => ret (Continue l)
  end.

(** The loop of [StoreResult] over the lines that are left; [r] is the whole
    response, for the error after the last line. *)
Fixpoint StoreResult_loop (r : string) (lines : list string) (l : locals)
  : M query unit :=
  match lines with
  | [] => fail ("mapi: unknown state: " ++ r)%string
  | line :: rest =>
      f <- storeLine line l ;;
      match f with
      | Continue l' => StoreResult_loop r rest l'
      | Return => ret tt
      end
  end.

Definition newline : string := String (ascii_of_nat 10) "".

(** [q.StoreResult(r)] *)
Definition StoreResult (r : string) : M query unit :=
  StoreResult_loop r (Split r newline) locals0.

(** [q.HasNextResultSet()] *)
Definition HasNextResultSet (q : query) : bool :=
  negb (currentResultSet q =? -1)
  && (len (resultSets q) >? currentResultSet q + 1).

(** [q.NextResultSet()]; [io.EOF] is the error ["EOF"]. *)
Definition NextResultSet : M query unit :=
  q <- get ;;
  if HasNextResultSet q
  then modify (set_currentResultSet (currentResultSet q + 1))
  else fail "EOF".

End Parser.

(** ** The query of the version without a cursor (v2/mapi/query.go)

    This version of the package keeps one resultset for a query: [NewQuery]
    makes it, [Result()] is its address, and [StoreResult] files every line of
    a response under it.  The loops and the local variables are those of the
    version above, without [addedResultSets], which stays [false] here. *)

Module Legacy.

Section Parser.

Context {C : Codec}.

Record query : Type := mkQuery {
  mapi : option MapiConn;
  sqlQuery : string;
  resultSets : list ResultSet
}.

Definition set_resultSets (v : list ResultSet) (q : query) : query :=
  mkQuery (mapi q) (sqlQuery q) v.

Definition NewQuery (conn : option MapiConn) (q : string) : query :=
  mkQuery conn q ([] ++ [on_Metadata (set_ExecId (-1)) emptyResultSet]).

(** [q.Result()], that is [&q.resultSets[0]] *)
Definition Result : M query ptr :=
  q <- get ;;
  if 0 <? len (resultSets q) then ret (Some 0%nat)
  else panic "index out of range".

Definition load (p : ptr) : M query ResultSet :=
  match p with
  | None => panic "nil pointer dereference"
  | Some i =>
      q <- get ;;
      match nth_error (resultSets q) i with
      | Some s => ret s
      | None => panic "invalid pointer"
      end
  end.

Definition store (p : ptr) (f : ResultSet -> ResultSet) : M query unit :=
  match p with
  | None => panic "nil pointer dereference"
  | Some i =>
      q <- get ;;
      match nth_error (resultSets q) i with
      | Some _ => put (set_resultSets (update i f (resultSets q)) q)
      | None => panic "invalid pointer"
      end
  end.

Definition parseTuple (s : ptr) (d : string) : M query (list Value) :=
  inner <- Mapi.between d 1 (Z.of_nat (String.length d) - 1) ;;
  let items := Split inner ("," ++ String (ascii_of_nat 9) "")%string in
  rs <- load s ;;
  if negb (len items =? len (Schema rs))
  then fail "mapi: length of row doesn't match header"
  else parseTuple_loop (Schema rs) items 0.

Definition updateSchema (s : ptr) (l : locals) : M query unit :=
  d <- updateSchema_loop (columnNames l) 0 l ;;
  store s (set_Schema d).

(** The branch of [QSCHEMA] and of [QTRANS] *)
Definition storeMarker (l : locals) : M query flow :=
  p <- Result ;; store p (on_Metadata (set_Offset 0)) ;;;
  p <- Result ;; store p (set_Rows []) ;;;
  p <- Result ;; store p (on_Metadata (set_LastRowId 0)) ;;;
  p <- Result ;; store p (set_Schema []) ;;;
  p <- Result ;; store p (on_Metadata (set_RowCount 0)) ;;;
  ret (Continue l).

(** The loop body of [StoreResult]: the kind of a line is found by a chain of
    prefix tests, in which the test for the prompt, the empty prefix, holds
    for every line that gets to it. *)
Definition storeLine (line : string) (l : locals) : M query flow :=
  if HasPrefix line mapi_MSG_INFO then ret (Continue l)
  else if HasPrefix line mapi_MSG_QPREPARE then
    rest <- Mapi.from line 2 ;;
    let t := Split (TrimSpace rest) " " in
    p <- Result ;;
    t0 <- Mapi.index t 0 ;;
    store p (on_Metadata (set_ExecId (fst (Atoi t0)))) ;;;
    ret Return
  else if HasPrefix line mapi_MSG_QTABLE then
    rest <- Mapi.from line 2 ;;
    let t := Split (TrimSpace rest) " " in
    p <- Result ;;
    t0 <- Mapi.index t 0 ;;
    store p (on_Metadata (set_QueryId (fst (Atoi t0)))) ;;;
    p <- Result ;;
    t1 <- Mapi.index t 1 ;;
    store p (on_Metadata (set_RowCount (fst (Atoi t1)))) ;;;
    p <- Result ;;
    t2 <- Mapi.index t 2 ;;
    store p (on_Metadata (set_ColumnCount (fst (Atoi t2)))) ;;;
    p <- Result ;; s <- load p ;;
    let n := ColumnCount (Metadata_ s) in
    names <- makeSliceOf sizeof_string "" n ;;
    types <- makeSliceOf sizeof_string "" n ;;
    zeros <- makeSliceOf sizeof_int 0 n ;;
    ret (Continue (mkLocals names types zeros zeros zeros zeros zeros
                            (addedResultSets l)))
  else if HasPrefix line mapi_MSG_TUPLE then
    p <- Result ;;
    v <- parseTuple p line ;;
    p <- Result ;;
    p' <- Result ;; s <- load p' ;;
    store p (set_Rows (Rows_ s ++ [v])) ;;;
    ret (Continue l)
  else if HasPrefix line mapi_MSG_QBLOCK then
    p <- Result ;; store p (set_Rows []) ;;;
    ret (Continue l)
  else if HasPrefix line mapi_MSG_QSCHEMA then storeMarker l
  else if HasPrefix line mapi_MSG_QUPDATE then
    rest <- Mapi.from line 2 ;;
    let t := Split (TrimSpace rest) " " in
    p <- Result ;;
    t0 <- Mapi.index t 0 ;;
    store p (on_Metadata (set_RowCount (fst (Atoi t0)))) ;;;
    p <- Result ;;
    t1 <- Mapi.index t 1 ;;
    store p (on_Metadata (set_LastRowId (fst (Atoi t1)))) ;;;
    ret (Continue l)
  else if HasPrefix line mapi_MSG_QTRANS then storeMarker l
  else if HasPrefix line mapi_MSG_HEADER then
    rest <- Mapi.from line 1 ;;
    let t := Split rest "#" in
    t0 <- Mapi.index t 0 ;;
    let data := TrimSpace t0 in
    t1 <- Mapi.index t 1 ;;
    let identity := TrimSpace t1 in
    let values := map TrimSpace (Split data ",") in
    l <- headerLocals identity values l ;;
    p <- Result ;;
    updateSchema p l ;;;
    p <- Result ;; store p (on_Metadata (set_Offset 0)) ;;;
    p <- Result ;; store p (on_Metadata (set_LastRowId 0)) ;;;
    ret (Continue l)
  else if HasPrefix line mapi_MSG_PROMPT then ret Return
  else if HasPrefix line mapi_MSG_ERROR then
    e <- Mapi.from line 1 ;;
    fail ("mapi: database error: " ++ e)%string
  else ret (Continue l).

Fixpoint StoreResult_loop (r : string) (lines : list string) (l : locals)
  : M query unit :=
  match lines with
  | [] => fail ("mapi: unknown state: " ++ r)%string
  | line :: rest =>
      f <- storeLine line l ;;
      match f with
      | Continue l' => StoreResult_loop r rest l'
      | Return => ret tt
      end
  end.

(** [q.StoreResult(r)] *)
Definition StoreResult (r : string) : M query unit :=
  StoreResult_loop r (Split r newline) locals0.

(** [q.HasNextResultSet()] *)
Definition HasNextResultSet (q : query) : bool := false.

(** [q.NextResultSet()] *)
Definition NextResultSet : M query unit := fail "EOF".

End Parser.

End Legacy.

(** ** The row cursor of the driver (monetdb: Rows) *)

Section Cursor.

Context {C : Codec}.

Record Rows : Type := mkRows {
  query_ : query;
  active : bool;
  err : option string;
  rowNum : Z;
  offset : Z;
  rows : list (list DriverValue);
  schema : list TableElement
}.

Definition set_query (v : query) (r : Rows) : Rows :=
  mkRows v (active r) (err r) (rowNum r) (offset r) (rows r) (schema r).
Definition set_active (v : bool) (r : Rows) : Rows :=
  mkRows (query_ r) v (err r) (rowNum r) (offset r) (rows r) (schema r).
Definition set_rowNum (v : Z) (r : Rows) : Rows :=
  mkRows (query_ r) (active r) (err r) v (offset r) (rows r) (schema r).
Definition set_offset (v : Z) (r : Rows) : Rows :=
  mkRows (query_ r) (active r) (err r) (rowNum r) v (rows r) (schema r).
Definition set_rows (v : list (list DriverValue)) (r : Rows) : Rows :=
  mkRows (query_ r) (active r) (err r) (rowNum r) (offset r) v (schema r).
Definition set_schema (v : list TableElement) (r : Rows) : Rows :=
  mkRows (query_ r) (active r) (err r) (rowNum r) (offset r) (rows r) v.

Definition newRows (q : query) : Rows := mkRows q true None 0 0 [] [].

(** A method of the query, called through the [query] field of the cursor. *)
Definition onQuery {A} (m : M query A) : M Rows A :=
  fun r => let '(a, q') := m (query_ r) in (a, set_query q' r).

(** A method of the connection, called through the [mapi] field of the
    query. *)
Definition onMapi {A} (m : M MapiConn A) : M query A :=
  fun q =>
    match mapi q with
    | None => (Panic "nil pointer dereference", q)
    | Some c => let '(a, c') := m c in (a, set_mapi (Some c') q)
    end.

(** [q.FetchNext(offset, amount)]; the [FetchNext] of the connection is
    [fetchNext] of the handle. *)
Definition FetchNext (offset amount : Z) : M query string :=
  q <- get ;;
  s <- Mapi.index (resultSets q) (currentResultSet q) ;;
  onMapi (Mapi.fetchNext (QueryId (Metadata_ s)) offset amount).

(** [r.Close()] *)
Definition Close : M Rows unit := modify (set_active false).

Definition min (a b : Z) : Z := if a <? b then a else b.

(** [s.mapiDo(ctx, amount)] under [context.Background()], which is never done:
    the result of the goroutine is the result of the call. *)
Definition mapiDo (amount : Z) : M Rows string :=
  s <- get ;;
  onQuery (FetchNext (offset s) amount).

(** [r.fetchNext()] *)
Definition fetchNext : M Rows unit :=
  r <- get ;;
  p <- onQuery Result ;; s <- onQuery (load p) ;;
  if rowNum r >=? RowCount (Metadata_ s) then fail "EOF"
  else
    modify (fun r => set_offset (offset r + len (rows r)) r) ;;;
    r <- get ;;
    p <- onQuery Result ;; s <- onQuery (load p) ;;
    let end_ := min (RowCount (Metadata_ s)) (rowNum r + MAPI_ARRAY_SIZE) in
    let amount := end_ - offset r in
    res <- mapiDo amount ;;
    discard (onQuery (StoreResult res)) ;;;
    p <- onQuery Result ;; s <- onQuery (load p) ;;
    p' <- onQuery Result ;; s' <- onQuery (load p') ;;
    match convertRows (Rows_ s) (ColumnCount (Metadata_ s')) with
    | None => panic "convertRows"
    | Some v =>
        modify (set_rows v) ;;;
        p <- onQuery Result ;; s <- onQuery (load p) ;;
        modify (set_schema (Schema s))
    end.

(** The copy of a row into [dest]: the new content of [dest]. *)
Fixpoint copyRow {S} (row dest : list DriverValue) : M S (list DriverValue) :=
  match row, dest with
  | [], _ => ret dest
  | _ :: _, [] => panic "index out of range"
  | v :: row', _ :: dest' =>
      d <- copyRow row' dest' ;;
      ret (destValue v :: d)
  end.

(** [r.Next(dest)]; the result is the content of [dest] after the call. *)
Definition Next (dest : list DriverValue) : M Rows (list DriverValue) :=
  r <- get ;;
  if negb (active r) then fail "monetdb: rows closed"
  else
    p <- onQuery Result ;; s <- onQuery (load p) ;;
    if QueryId (Metadata_ s) =? -1
    then fail "monetdb: query didn't result in a resultset"
    else
      p <- onQuery Result ;; s <- onQuery (load p) ;;
      if rowNum r >=? RowCount (Metadata_ s) then fail "EOF"
      else
        (if rowNum r >=? offset r + len (rows r) then fetchNext else ret tt) ;;;
        r <- get ;;
        row <- Mapi.index (rows r) (rowNum r - offset r) ;;
        dest' <- copyRow row dest ;;
        modify (fun r => set_rowNum (rowNum r + 1) r) ;;;
        ret dest'.

End Cursor.

(** ** Running a query (mapi: query, ResultSet; monetdb: Rows)

    [ConvertToMonet], the text of a Go value in a statement, belongs to the
    value codec of the package, which is not part of the sources at hand. *)

Class Encoder {C : Codec} : Type := {
  ConvertToMonet : Value -> outcome string
}.

Section Statements.

Context {C : Codec} {E : Encoder}.

(** The loop of [CreateExecString]; [b] is the buffer, [i] the index of the
    next argument.  [None] is the [return] from inside the loop. *)
Fixpoint CreateExecString_loop {S} (args : list Value) (i : Z) (b : string)
  : M S (option string) :=
  match args with
  | [] => ret (Some b)
  | v :: rest =>
      r <- attempt (lift (ConvertToMonet v)) ;;
      match r with
      | inr _ => ret None
      | inl str =>
          let b := if i >? 0 then (b ++ ", ")%string else b in
          CreateExecString_loop rest (i + 1) (b ++ str)%string
      end
  end.

(** [s.CreateExecString(args)] *)
Definition CreateExecString {S} (s : ResultSet) (args : list Value)
  : M S string :=
  let b := ("EXEC " ++ itoa (ExecId (Metadata_ s)) ++ " (")%string in
  r <- CreateExecString_loop args 0 b ;;
  match r with
  | None => ret ""
  | Some b => ret (b ++ ")")%string
  end.

(** The loop of [CreateNamedString]. *)
Fixpoint CreateNamedString_loop {S} (names : list string) (args : list Value)
         (i : Z) (b : string) : M S (option string) :=
  match args with
  | [] => ret (Some b)
  | v :: rest =>
      r <- attempt (lift (ConvertToMonet v)) ;;
      match r with
      | inr _ => ret None
      | inl str =>
          let b := if i >? 0 then (b ++ ", ")%string else b in
          name <- Mapi.index names i ;;
          let b := (b ++ " " ++ name ++ " ")%string in
          CreateNamedString_loop names rest (i + 1) (b ++ str)%string
      end
  end.

(** [q.CreateNamedString(names, args)] *)
Definition CreateNamedString (names : list string) (args : list Value)
  : M query string :=
  q <- get ;;
  let b := (sqlQuery q ++ " : ( ")%string in
  r <- CreateNamedString_loop names args 0 b ;;
  match r with
  | None => ret ""
  | Some b => ret (b ++ ")")%string
  end.

(** [q.execute(query)] *)
Definition execute (text : string) : M query string :=
  q <- get ;;
  match mapi q with
  | None => fail "mapi: database connection is closed"
  | Some _ => onMapi (Mapi.Execute text)
  end.

(** [q.PrepareQuery()] *)
Definition PrepareQuery : M query unit :=
  q <- get ;;
  let querystring := ("PREPARE " ++ sqlQuery q)%string in
  resultstring <- execute querystring ;;
  StoreResult resultstring.

(** [q.ExecutePreparedQuery(args)] *)
Definition ExecutePreparedQuery (args : list Value) : M query string :=
  q <- get ;;
  s <- Mapi.index (resultSets q) (currentResultSet q) ;;
  execStr <- CreateExecString s args ;;
  execute execStr.

(** [q.ExecuteNamedQuery(names, args)] *)
Definition ExecuteNamedQuery (names : list string) (args : list Value)
  : M query string :=
  execStr <- CreateNamedString names args ;;
  execute execStr.

(** [q.ExecuteQuery()] *)
Definition ExecuteQuery : M query string :=
  q <- get ;;
  execute (sqlQuery q).

(** The loop of [Columns]. *)
Fixpoint Columns_loop {S} (schema : list TableElement) (i : Z)
         (columns : list string) : M S (list string) :=
  match schema with
  | [] => ret columns
  | d :: rest =>
      columns' <- setIndex columns i (ColumnName d) ;;
      Columns_loop rest (i + 1) columns'
  end.

(** [s.Columns()] *)
Definition Columns (s : ptr) : M query (list string) :=
  rs <- load s ;;
  columns <- makeSlice "" (len (Schema rs)) ;;
  Columns_loop (Schema rs) 0 columns.

(** [r.Columns()] of the cursor *)
Definition Rows_Columns : M Rows (list string) :=
  p <- onQuery Result ;;
  onQuery (Columns p).

(** [r.HasNextResultSet()] of the cursor *)
Definition Rows_HasNextResultSet (r : Rows) : bool :=
  HasNextResultSet (query_ r).

(** [r.NextResultSet()] of the cursor *)
Definition Rows_NextResultSet : M Rows unit := onQuery NextResultSet.

End Statements.

(** ** The connector and its configuration (monetdb: Config, Connector)

    [Location] stands for [*time.Location], [time_Local] for [time.Local]. *)

Section Connector.

Variable Location : Type.
Variable time_Local : Location.

Record Config : Type := mkConfig {
  AutoCommit : bool;
  ReplySize : Z;
  Sizeheader : bool;
  Timezone : option Location
}.

(** [cfg.DefaultConfig()] *)
Definition DefaultConfig (cfg : Config) : Config :=
  let cfg := mkConfig true (ReplySize cfg) (Sizeheader cfg) (Timezone cfg) in
  let cfg := mkConfig (AutoCommit cfg) MAPI_ARRAY_SIZE (Sizeheader cfg)
                      (Timezone cfg) in
  let cfg := mkConfig (AutoCommit cfg) (ReplySize cfg) true (Timezone cfg) in
  mkConfig (AutoCommit cfg) (ReplySize cfg) (Sizeheader cfg) (Some time_Local).

Record Connector : Type := mkConnector {
  name : string;
  cfg : Config
}.

Definition connectorOption : Type := Config -> Config.

(** [NewConnector(name, options...)]; the configuration of [&Connector{name:
    name}] is the zero value. *)
Definition NewConnector (name0 : string) (options : list connectorOption)
  : Connector :=
  let connector := mkConnector name0 (mkConfig false 0 false None) in
  let connector :=
    mkConnector (name connector) (DefaultConfig (cfg connector)) in
  fold_left (fun connector opt => mkConnector (name connector)
                                              (opt (cfg connector)))
            options connector.

Definition AutoCommitOption (autoCommit : bool) : connectorOption :=
  fun c => mkConfig autoCommit (ReplySize c) (Sizeheader c) (Timezone c).

Definition ReplySizeOption (replySize : Z) : connectorOption :=
  fun c => mkConfig (AutoCommit c) replySize (Sizeheader c) (Timezone c).

Definition SizeHeaderOption (sizeHeader : bool) : connectorOption :=
  fun c => mkConfig (AutoCommit c) (ReplySize c) sizeHeader (Timezone c).

Definition TimezoneOption (timezone : option Location) : connectorOption :=
  fun c => mkConfig (AutoCommit c) (ReplySize c) (Sizeheader c) timezone.

End Connector.

(** * The vocabulary of the properties

    What the statements below are written in: the judgements about the steps
    of the embedding, the frames of a message, the states a client can reach,
    and the data of the examples. *)

(** ** Judgements about steps *)

(** [stateless m]: the step [m] ends in the state it started in, whatever
    its outcome. *)
Definition stateless {S A} (m : M S A) : Prop := forall s, snd (m s) = s.

(** [triple P m Q E]: from a state in [P], the step [m] either returns a
    value and a state in [Q], or ends in an error, a panic or without fuel in
    a state in [E]. *)
Definition triple {S A} (P : S -> Prop) (m : M S A) (Q : A -> S -> Prop)
           (E : S -> Prop) : Prop :=
  forall s, P s ->
    match m s with
    | (Ok a, s') => Q a s'
    | (_, s') => E s'
    end.

(** [keeps part m]: the step [m] leaves the part [part] of the state as it
    was, whatever its outcome. *)
Definition keeps {S A X} (part : S -> X) (m : M S A) : Prop :=
  forall s, part (snd (m s)) = part s.

(** ** Frames *)

Module TransportSpec.

Import Transport.

(** The splitter of the specification: chunks of at most 8190 bytes, the
    message ends with the first chunk that is shorter. *)
Fixpoint chunks (fuel : nat) (rest : list byte) : list (list byte) :=
  match fuel with
  | O => []
  | S fuel' =>
      if len rest <? mapi_MAX_PACKAGE_LENGTH then [rest]
      else firstn (Z.to_nat mapi_MAX_PACKAGE_LENGTH) rest
           :: chunks fuel' (skipn (Z.to_nat mapi_MAX_PACKAGE_LENGTH) rest)
  end.

(** The header of the specification: [(length << 1) | last_flag], two bytes,
    little-endian. *)
Definition header (length last_flag : Z) : list byte :=
  writeUint16LE (Z.lor (Z.shiftl length 1) last_flag).

(** The writes of a message given its chunks: the flag is set on the final
    chunk and on no other. *)
Fixpoint frames (chs : list (list byte)) : list (list byte) :=
  match chs with
  | [] => []
  | [ch] => [header (len ch) 1; ch]
  | ch :: rest => header (len ch) 0 :: ch :: frames rest
  end.

(** A message in chunks is well formed when every chunk but the final one is
    full and the final one is not. *)
Fixpoint wellChunked (chs : list (list byte)) : Prop :=
  match chs with
  | [] => False
  | [ch] => len ch < mapi_MAX_PACKAGE_LENGTH
  | ch :: rest => len ch = mapi_MAX_PACKAGE_LENGTH /\ wellChunked rest
  end.

(** [delivers parts inb]: reading the parts one after the other from [inb],
    every part that is not empty arrives whole in one [Read]. *)
Inductive delivers : list (list byte) -> list (list byte) -> Prop :=
| delivers_nil inb : delivers [] inb
| delivers_empty parts inb : delivers parts inb -> delivers ([] :: parts) inb
| delivers_part p parts inb inb' :
    p <> [] ->
    readSegments inb (List.length p) = Some (p, inb') ->
    delivers parts inb' ->
    delivers (p :: parts) inb.

(** What [putBlock] writes for a payload. *)
Definition sent (P : list byte) : list (list byte) :=
  outbound (snd (putBlock P (mkTCPConn [] []))).

(** What [getBlock] returns on an inbound pipe. *)
Definition received (inb : list (list byte)) : outcome (list byte) :=
  fst (getBlock (mkTCPConn inb [])).

End TransportSpec.

(** ** Login *)

Module HandshakeSpec.

Import Mapi.

(** The comma. *)
Definition comma : ascii := ascii_of_nat 44.

(** A name of an algorithm holds no comma. *)
Fixpoint commaFree (s : string) : bool :=
  match s with
  | EmptyString => true
  | String c s' => negb (Ascii.eqb c comma) && commaFree s'
  end.

(** [","  + x + ","] *)
Definition between_commas (x : string) : string :=
  String comma (x ++ String comma "")%string.

(** Stand-ins for the digests, for the examples: the digest of a text is the
    text itself, after a letter that names the function. *)
Definition sampleHashes : Hashes := {|
  SHA512 := fun s => list_ascii_of_string ("x" ++ s);
  SHA1 := fun s => list_ascii_of_string ("y" ++ s);
  MD5 := fun s => list_ascii_of_string ("z" ++ s)
|}.

(** A handle as [NewMapi] makes it, for the examples. *)
Definition sampleConn (t : option TCPConn) : MapiConn :=
  mkMapiConn "localhost" 50000 "monetdb" "pw" "demo" "sql"
             mapi_STATE_INIT true MAPI_ARRAY_SIZE true t.

(** The challenge of a server that offers SHA1 and MD5. *)
Definition sampleChallenge : string :=
  "s4lt:merovingian:9:RIPEMD160,SHA1,MD5:LIT:SHA512:".

(** A server that sends its challenge and then nothing. *)
Definition silentNetwork : Network := {|
  DialTCP := fun _ _ =>
    Some (TransportSpec.sent (list_ascii_of_string sampleChallenge))
|}.

(** The prompt of a meta-proxy that redirects the login to itself. *)
Definition merovingianRedirect : string :=
  "^mapi:merovingian://proxy?database=demo".

(** What a meta-proxy sends in [n] rounds of the handshake when it answers
    every login with a redirect to itself. *)
Definition redirectRounds (n : nat) : list (list byte) :=
  List.concat
    (repeat (TransportSpec.sent (list_ascii_of_string sampleChallenge)
             ++ TransportSpec.sent (list_ascii_of_string merovingianRedirect))
            n).

(** A meta-proxy that redirects twelve logins in a row. *)
Definition redirectingNetwork : Network := {|
  DialTCP := fun _ _ => Some (redirectRounds 12)
|}.

End HandshakeSpec.

(** ** Commands *)

Module CommandSpec.

Import Mapi.

(** The bytes of a text. *)
Definition bytes (s : string) : list byte := list_ascii_of_string s.

(** What [cmd] goes on with when the block it has read is not a request for
    more. *)
Definition replied (resp : string) : M MapiConn string :=
  if Z.of_nat (String.length resp) =? 0 then ret ""
  else if HasPrefix resp mapi_MSG_OK then
    rest <- from resp 3 ;;
    ret (TrimSpace rest)
  else if HasPrefix resp mapi_MSG_Q || HasPrefix resp mapi_MSG_HEADER
          || HasPrefix resp mapi_MSG_TUPLE then ret resp
  else if HasPrefix resp mapi_MSG_ERROR then
    e <- from resp 1 ;;
    fail ("mapi: operational error: " ++ e)%string
  else fail ("mapi: unknown state: " ++ resp)%string.

(** [k] requests of the server for more. *)
Definition mores (k : nat) : list (list byte) :=
  List.concat (repeat (TransportSpec.sent (bytes mapi_MSG_MORE)) k).

(** What a handle holds besides the connection and the state. *)
Definition settings (c : MapiConn)
  : string * Z * string * string * string * string * bool * Z * bool :=
  (Hostname c, Port c, Username c, Password c, Database c, Language c,
   sizeHeader c, replySize c, autoCommit c).

End CommandSpec.

(** ** Prompts and redirects *)

Module LoginSpec.

(** A text without the byte [c]. *)
Fixpoint without (c : ascii) (s : string) : bool :=
  match s with
  | EmptyString => true
  | String d s' => negb (Ascii.eqb c d) && without c s'
  end.

(** A part of an address: a text without space, colon and slash. *)
Definition plain (s : string) : bool :=
  without " " s && without ":" s && without "/" s.

(** The prompt that redirects the login to the server of a database. *)
Definition redirectTo (host port db : string) : string :=
  ("^mapi:monetdb://" ++ host ++ ":" ++ port ++ "/" ++ db)%string.

(** The handle when [tryLogin] has taken the address from such a prompt. *)
Definition redirected (host port db : string) (c : MapiConn) : MapiConn :=
  set_Database db (set_Port (Mapi.ParseInt32 port) (set_Hostname host c)).

(** A server that sends its challenge and then one prompt. *)
Definition promptingServer (prompt : string) : list (list byte) :=
  TransportSpec.sent (list_ascii_of_string HandshakeSpec.sampleChallenge)
  ++ TransportSpec.sent (list_ascii_of_string prompt).

(** A network with one server, a proxy at [localhost:50000] that redirects
    every login to [db.example.org:50001], where nothing answers. *)
Definition proxyNetwork : Network := {|
  DialTCP := fun host port =>
    if (host =? "localhost")%string && (port =? 50000)
    then Some (promptingServer (redirectTo "db.example.org" "50001" "demo"))
    else None
|}.

End LoginSpec.

(** ** Passes of the parser *)

Module ParserSpec.

Section Pass.

Context {C : Codec}.

(** The cursor is unset on an empty sequence, or points into the sequence. *)
Definition cursorInRange (q : query) : Prop :=
  (currentResultSet q = -1 /\ resultSets q = [])
  \/ 0 <= currentResultSet q < len (resultSets q).

(** The query between two lines of a pass that started in [q0], [added] being
    the value of [addedResultSets]: either nothing was added and the cursor
    is where it was, or the sequence has grown and the cursor is set. *)
Definition midPass (q0 : query) (added : bool) (q : query) : Prop :=
  cursorInRange q
  /\ ((added = false
       /\ len (resultSets q) = len (resultSets q0)
       /\ currentResultSet q = currentResultSet q0)
      \/ (added = true
          /\ len (resultSets q0) < len (resultSets q)
          /\ 0 <= currentResultSet q)).

(** The query when the pass has ended, in whatever way. *)
Definition endPass (q0 q : query) : Prop :=
  cursorInRange q
  /\ len (resultSets q0) <= len (resultSets q)
  /\ (len (resultSets q) = len (resultSets q0) ->
      currentResultSet q = currentResultSet q0).

(** The query after a line: on its way, or at the end of the pass. *)
Definition afterLine (q0 : query) (f : flow) (q : query) : Prop :=
  match f with
  | Continue l => midPass q0 (addedResultSets l) q
  | Return => endPass q0 q
  end.

(** The pass over some lines, as far as it gets: it goes on after the last
    of them, or it has returned. *)
Fixpoint storeLines (lines : list string) (l : locals) : M query flow :=
  match lines with
  | [] => ret (Continue l)
  | line :: rest =>
      f <- storeLine line l ;;
      match f with
      | Continue l' => storeLines rest l'
      | Return => ret Return
      end
  end.

(** A query is made by [NewQuery]; [StoreResult] and [NextResultSet] are the
    methods that change its resultsets and its cursor, the other methods
    reach the connection only. *)
Inductive reachable : query -> Prop :=
| reach_NewQuery conn text : reachable (NewQuery conn text)
| reach_StoreResult q r : reachable q -> reachable (snd (StoreResult r q))
| reach_NextResultSet q : reachable q -> reachable (snd (NextResultSet q))
| reach_mapi q c : reachable q -> reachable (set_mapi c q).

(** The cursor is at [c]. *)
Definition cursorAt (c : Z) (q : query) : Prop := currentResultSet q = c.

(** The current resultset of a query whose cursor is set. *)
Definition currentIs (q : query) (s : ResultSet) : Prop :=
  0 <= currentResultSet q
  /\ nth_error (resultSets q) (Z.to_nat (currentResultSet q)) = Some s.

(** The number of resultsets of a query of the version without a cursor. *)
Definition count (q : Legacy.query) : nat := List.length (Legacy.resultSets q).

(** The queries of this version a client can hold. *)
Inductive Legacy_reachable : Legacy.query -> Prop :=
| legacy_NewQuery conn text : Legacy_reachable (Legacy.NewQuery conn text)
| legacy_StoreResult q r :
    Legacy_reachable q -> Legacy_reachable (snd (Legacy.StoreResult r q))
| legacy_NextResultSet q :
    Legacy_reachable q -> Legacy_reachable (snd (Legacy.NextResultSet q)).

End Pass.

(** The separator of the fields of a tuple line, a comma and a tab. *)
Definition tupleSeparator : string :=
  ("," ++ String (ascii_of_nat 9) "")%string.

(** A codec for the examples: a value is the text of its field, and the
    driver hands it on as a slice of bytes, written as a text here; none of
    its values is a Go string. *)
Definition sampleCodec : Codec := {|
  Value := string;
  convertToGo := fun value _ => Ok value;
  DriverValue := string;
  convertRows := fun rows _ => Some rows;
  asString := fun _ => None;
  fromBytes := string_of_list_ascii
|}.

(** The tab character, as a text. *)
Definition tab : string := String (ascii_of_nat 9) "".

(** The lines of a response, each followed by a line feed. *)
Definition response (lines : list string) : string :=
  String.concat "" (map (fun line => line ++ newline)%string lines).

(** A header line as the server writes it. *)
Definition headerLine (values : list string) (identity : string) : string :=
  ("% " ++ String.concat ("," ++ tab) values ++ " # " ++ identity)%string.

(** A tuple line as the server writes it. *)
Definition tupleLine (fields : list string) : string :=
  ("[ " ++ String.concat ("," ++ tab) fields ++ tab ++ "]")%string.

(** The head of a response with one table of two columns, and a response
    with two tables of one column and one row each. *)
Definition oneTable : list string :=
  ["&1 7 3 2 3"; headerLine ["id"; "name"] "name";
   headerLine ["int"; "varchar"] "type"].

Definition twoTables : string :=
  response ["&1 7 1 1 1"; headerLine ["name"] "name"; tupleLine ["1"];
            "&1 8 1 1 1"; headerLine ["value"] "name"; tupleLine ["42"]].

End ParserSpec.

(** ** Lines of a response *)

Module ResponseSpec.

Section Lines.

Context {C : Codec}.

(** The conversions of the fields of a tuple line, each with the type of the
    column of its place. *)
Definition conversions (schema : list TableElement) (items : list string)
  : list (outcome Value) :=
  map (fun '(value, col) => convertToGo value (ColumnType col))
      (combine items schema).

(** The query with its current resultset changed by [f]. *)
Definition withCurrent (f : ResultSet -> ResultSet) (q : query) : query :=
  set_resultSets (update (Z.to_nat (currentResultSet q)) f (resultSets q)) q.

(** The element of a schema that is made of the values at index [i] of the
    local variables of a pass. *)
Definition element (l : locals) (i : nat) : TableElement :=
  mkTableElement (nth i (columnNames l) "") (nth i (columnTypes l) "")
                 (nth i (displaySizes l) 0) (nth i (internalSizes l) 0)
                 (nth i (precisions l) 0) (nth i (scales l) 0)
                 (nth i (nullOks l) 0).

(** The schema the local variables describe: one element for every name. *)
Definition described (l : locals) : list TableElement :=
  map (element l) (seq 0 (List.length (columnNames l))).

(** All the slices of the local variables are as long as the list of names
    at least. *)
Definition wideEnough (l : locals) : Prop :=
  let n := List.length (columnNames l) in
  (n <= List.length (columnTypes l))%nat
  /\ (n <= List.length (displaySizes l))%nat
  /\ (n <= List.length (internalSizes l))%nat
  /\ (n <= List.length (precisions l))%nat
  /\ (n <= List.length (scales l))%nat
  /\ (n <= List.length (nullOks l))%nat.

End Lines.

End ResponseSpec.

(** ** Tables of a response *)

Module TableSpec.

Import ParserSpec.
Import ResponseSpec.

Section Tables.

Context {C : Codec}.

(** The resultset that [newResultSet] adds. *)
Definition fresh : ResultSet := on_Metadata (set_ExecId (-1)) emptyResultSet.


(** The three numbers of a table line in the metadata of a resultset. *)
Definition tableCounts (a b c : string) (s : ResultSet) : ResultSet :=
  on_Metadata (set_ColumnCount (fst (Atoi c)))
    (on_Metadata (set_RowCount (fst (Atoi b)))
       (on_Metadata (set_QueryId (fst (Atoi a))) s)).

(** The local variables after the table line of a table of [n] columns. *)
Definition blank (n : Z) : locals :=
  let zeros := repeat 0 (Z.to_nat n) in
  mkLocals (repeat "" (Z.to_nat n)) (repeat "" (Z.to_nat n))
           zeros zeros zeros zeros zeros true.

(** The first number of a header value. *)
Definition firstNumber (value : string) : Z := nth 0 (numbers value) 0.

(** A slice of sizes with the first numbers of the values of a header in its
    first places. *)
Definition overwritten (values : list string) (old : list Z) : list Z :=
  map firstNumber values ++ skipn (List.length values) old.

(** Column [j] is a decimal one. *)
Definition decimalAt (types : list string) (j : nat) : bool :=
  (nth j types "" =? "decimal")%string.

(** Number [k] of the value of column [j] where the column is a decimal one,
    and what the slice held where it is not. *)
Definition decimalOr (k : nat) (types values : list string) (old : list Z)
           (j : nat) : Z :=
  if decimalAt types j then nth k (numbers (nth j values "")) 0
  else nth j old 0.

(** The local variables with other sizes. *)
Definition set_displaySizes (v : list Z) (l : locals) : locals :=
  mkLocals (columnNames l) (columnTypes l) v (internalSizes l)
           (precisions l) (scales l) (nullOks l) (addedResultSets l).

(** What a header line does to the current resultset, the local variables
    being [l] after it. *)
Definition headed (l : locals) (s : ResultSet) : ResultSet :=
  on_Metadata (set_LastRowId 0)
    (on_Metadata (set_Offset 0) (set_Schema (described l) s)).

(** The values of a header line. *)
Definition valuesOf (data : string) : list string :=
  map TrimSpace (Split (TrimSpace data) ",").

(** The pass of the version without a cursor over some lines, as far as it
    gets. *)
Fixpoint Legacy_storeLines (lines : list string) (l : locals)
  : M Legacy.query flow :=
  match lines with
  | [] => ret (Continue l)
  | line :: rest =>
      f <- Legacy.storeLine line l ;;
      match f with
      | Continue l' => Legacy_storeLines rest l'
      | Return => ret Return
      end
  end.

(** The identities of the headers that change the local variables. *)
Definition understood (identity : string) : bool :=
  (identity =? "name")%string || (identity =? "type")%string
  || (identity =? "typesizes")%string || (identity =? "length")%string.

(** A line that starts with none of the marks of a response. *)
Definition unmarked (line : string) : bool :=
  negb (HasPrefix line mapi_MSG_INFO)
  && negb (HasPrefix line mapi_MSG_Q)
  && negb (HasPrefix line mapi_MSG_TUPLE)
  && negb (HasPrefix line mapi_MSG_HEADER).

End Tables.

End TableSpec.

(** ** Statements *)

Module StatementSpec.

(** The texts of a list after the text of [i] others: with a comma and a
    space before each but the very first. *)
Definition continued (i : Z) (strs : list string) : string :=
  match strs with
  | [] => ""
  | _ :: _ => ((if i >? 0 then ", " else "") ++ String.concat ", " strs)%string
  end.

(** The named arguments of a statement: each text after its name. *)
Definition named (names strs : list string) : list string :=
  map (fun '(name, str) => (" " ++ name ++ " " ++ str)%string)
      (combine names strs).

(** The writes on the connection of a query. *)
Definition sentBy {C : Codec} (q : query) : option (list (list byte)) :=
  match mapi q with
  | Some c => option_map outbound (conn c)
  | None => None
  end.

(** The query on a handle whose connection has received [inb] and sent
    [out]. *)
Definition onWire {C : Codec} (inb out : list (list byte)) (c : MapiConn)
           (q : query) : query :=
  set_mapi (Some (set_conn (Some (mkTCPConn inb out)) c)) q.

(** An encoder for the examples: the text of a value is the value, and the
    value [?] has none. *)
Definition sampleEncoder : Encoder (C := ParserSpec.sampleCodec) :=
  @Build_Encoder ParserSpec.sampleCodec
    (fun v : string =>
       if (v =? "?")%string then Err "mapi: unsupported type" else Ok v).

End StatementSpec.

(** ** Windows of the cursor *)

Module CursorSpec.

Import ParserSpec.

(** The writes of a connection handle, if it holds a connection. *)
Definition written (c : MapiConn) : option (list (list byte)) :=
  option_map outbound (conn c).

(** The empty commands that answer the requests of the server for more. *)
Definition empties (k : nat) : list (list byte) :=
  List.concat (repeat (TransportSpec.sent []) k).

Section Window.

Context {C : Codec}.

(** The writes on the connection of the cursor. *)
Definition wire (r : Rows) : option (list (list byte)) :=
  match mapi (query_ r) with
  | Some c => written c
  | None => None
  end.

(** The text of the export command. *)
Definition fetchCommand (queryId offset amount : Z) : string :=
  ("Xexport " ++ itoa queryId ++ " " ++ itoa offset ++ " " ++ itoa amount)%string.

(** The row the cursor is at lies in the buffered window or right after
    it. *)
Definition windowOk (r : Rows) : Prop :=
  offset r <= rowNum r <= offset r + len (rows r).

(** The fields of the cursor that say where it is. *)
Definition at_ (R O : Z) (V : list (list DriverValue)) (r : Rows) : Prop :=
  rowNum r = R /\ offset r = O /\ rows r = V.

(** The same without the buffered rows. *)
Definition moved (R O : Z) (r : Rows) : Prop :=
  rowNum r = R /\ offset r = O.

(** The cursors a client can hold: the statement makes one for a query with
    the rows and the schema of the first window, and the client calls [Next],
    [Close] and [NextResultSet]. *)
Inductive reachableRows : Rows -> Prop :=
| rows_open q v sch : reachableRows (set_schema sch (set_rows v (newRows q)))
| rows_Next r dest : reachableRows r -> reachableRows (snd (Next dest r))
| rows_Close r : reachableRows r -> reachableRows (snd (Close r))
| rows_NextResultSet r :
    reachableRows r -> reachableRows (snd (onQuery NextResultSet r)).

End Window.

(** Tuple lines of one number each, from [first] on. *)
Definition numberedTuples (first count : nat) : list string :=
  map (fun i => tupleLine [itoa (Z.of_nat i)]) (seq first count).

(** The response to a query with 250 rows, of which the first 100 come with
    it. *)
Definition firstWindow : string :=
  response (["&1 7 250 1 100"; headerLine ["id"] "name";
             headerLine ["int"] "type"] ++ numberedTuples 0 100).

(** The response to the export of the rows 100 to 199. *)
Definition secondWindow : string :=
  response ("&6 7 1 100 100" :: numberedTuples 100 100).

(** A ready connection on which the server is going to send the second
    window, once. *)
Definition readyConn : MapiConn :=
  set_State mapi_STATE_READY
    (HandshakeSpec.sampleConn
       (Some (mkTCPConn
                (TransportSpec.sent (list_ascii_of_string secondWindow)) []))).

(** The query after the pass over the first response. *)
Definition windowQuery : query (C := sampleCodec) :=
  snd (StoreResult firstWindow (NewQuery (Some readyConn) "select id from t")).

(** The cursor the statement makes for the query. *)
Definition windowRows : Rows (C := sampleCodec) :=
  let s := hd emptyResultSet (resultSets windowQuery) in
  set_schema (Schema s)
    (set_rows (match convertRows (Rows_ s) (ColumnCount (Metadata_ s)) with
               | Some v => v
               | None => []
               end)
              (newRows windowQuery)).

(** The cursor over the response with two tables, when the one row of the
    first table has been read. *)
Definition secondTableRows : Rows (C := sampleCodec) :=
  let q := snd (StoreResult (C := sampleCodec) twoTables
                            (NewQuery None "select * from t1; select * from t2")) in
  let s := hd emptyResultSet (resultSets q) in
  set_rowNum 1
    (set_schema (Schema s)
       (set_rows (match convertRows (Rows_ s) (ColumnCount (Metadata_ s)) with
                  | Some v => v
                  | None => []
                  end)
                 (newRows q))).

(** The values of a driver that hands on texts and slices of bytes. *)
Inductive typedValue : Type :=
| Text (s : string)
| Bytes (b : list byte).

(** A codec for the examples of the copy into [dest]: the driver hands on
    the text of a field as a Go string. *)
Definition typedCodec : Codec := {|
  Value := string;
  convertToGo := fun value _ => Ok value;
  DriverValue := typedValue;
  convertRows := fun rows _ => Some (map (map Text) rows);
  asString := fun v => match v with Text s => Some s | Bytes _ => None end;
  fromBytes := Bytes
|}.

(** A cursor of that codec over a table of one row and two columns, whose
    window holds the row: a string and a slice of bytes. *)
Definition typedRows : Rows (C := typedCodec) :=
  let q := snd (StoreResult (C := typedCodec)
                  (response ["&1 7 1 2 1"; headerLine ["a"; "b"] "name"])
                  (NewQuery None "select a, b from t")) in
  set_rows (C := typedCodec) [[Text "x"; Bytes (list_ascii_of_string "y")]]
           (newRows q).

(** [n] calls of [Next] in a row: the outcomes and the cursor after them. *)
Fixpoint nexts (n : nat) (r : Rows (C := sampleCodec))
  : list (outcome (list string)) * Rows (C := sampleCodec) :=
  match n with
  | O => ([], r)
  | S n' =>
      let '(o, r') := Next (C := sampleCodec) ([""] : list string) r in
      let '(os, r'') := nexts n' r' in
      (o :: os, r'')
  end.

End CursorSpec.

(** * Properties *)

(** ** Reasoning about the steps of the embedding *)

(** *** Lengths *)

Lemma len_nonneg {A} (l : list A) : 0 <= len l.
Proof. unfold len. lia. Qed.

Lemma len_app {A} (l1 l2 : list A) : len (l1 ++ l2) = len l1 + len l2.
Proof. unfold len. rewrite length_app. lia. Qed.

Lemma len_firstn_full {A} (n : nat) (l : list A) :
  (n <= List.length l)%nat -> len (firstn n l) = Z.of_nat n.
Proof. intros Hn. unfold len. rewrite firstn_length_le; auto. Qed.

Lemma len_skipn {A} (n : nat) (l : list A) :
  len (skipn n l) = len l - Z.of_nat (Nat.min n (List.length l)).
Proof. unfold len. rewrite length_skipn. lia. Qed.

(** *** Steps that leave the state alone *)

Lemma stateless_ret {S A} (a : A) : stateless (S := S) (ret a).
Proof. intros s. reflexivity. Qed.

Lemma stateless_fail {S A} (e : string) : stateless (S := S) (A := A) (fail e).
Proof. intros s. reflexivity. Qed.

Lemma stateless_panic {S A} (w : string) :
  stateless (S := S) (A := A) (panic w).
Proof. intros s. reflexivity. Qed.

Lemma stateless_get {S} : stateless (S := S) get.
Proof. intros s. reflexivity. Qed.

Lemma stateless_bind {S A B} (m : M S A) (f : A -> M S B) :
  stateless m -> (forall a, stateless (f a)) -> stateless (bind m f).
Proof.
  intros Hm Hf s. unfold bind. specialize (Hm s).
  destruct (m s) as [[a | e | w |] s']; cbn [snd] in Hm; subst s';
    [apply Hf | reflexivity ..].
Qed.

Lemma stateless_index {S A} (a : list A) (i : Z) :
  stateless (S := S) (Mapi.index a i).
Proof.
  unfold Mapi.index. destruct (i <? 0); [apply stateless_panic |].
  destruct (nth_error a (Z.to_nat i));
    [apply stateless_ret | apply stateless_panic].
Qed.

Lemma stateless_from {S} (s : string) (lo : Z) :
  stateless (S := S) (Mapi.from s lo).
Proof.
  unfold Mapi.from. destruct (suffixFrom s lo);
    [apply stateless_ret | apply stateless_panic].
Qed.

Lemma stateless_between {S} (s : string) (lo hi : Z) :
  stateless (S := S) (Mapi.between s lo hi).
Proof.
  unfold Mapi.between. destruct (substr s lo hi);
    [apply stateless_ret | apply stateless_panic].
Qed.

Lemma triple_ret {S A} (P : S -> Prop) (a : A) (Q : A -> S -> Prop) E :
  (forall s, P s -> Q a s) -> triple P (ret a) Q E.
Proof. intros HQ s Hs. apply HQ, Hs. Qed.

Lemma triple_fail {S A} (P : S -> Prop) (e : string) (Q : A -> S -> Prop)
      (E : S -> Prop) :
  (forall s, P s -> E s) -> triple P (fail e) Q E.
Proof. intros HE s Hs. apply HE, Hs. Qed.

Lemma triple_panic {S A} (P : S -> Prop) (w : string) (Q : A -> S -> Prop)
      (E : S -> Prop) :
  (forall s, P s -> E s) -> triple P (panic w) Q E.
Proof. intros HE s Hs. apply HE, Hs. Qed.

Lemma triple_bind {S A B} (P : S -> Prop) (m : M S A) (f : A -> M S B)
      (Q' : A -> S -> Prop) (Q : B -> S -> Prop) (E : S -> Prop) :
  triple P m Q' E -> (forall a, triple (Q' a) (f a) Q E) ->
  triple P (bind m f) Q E.
Proof.
  intros Hm Hf s Hs. unfold bind. specialize (Hm s Hs).
  destruct (m s) as [[a | e | w |] s']; auto. apply Hf, Hm.
Qed.

Lemma triple_get {S} (P : S -> Prop) (Q : S -> S -> Prop) (E : S -> Prop) :
  (forall s, P s -> Q s s) -> triple P get Q E.
Proof. intros HQ s Hs. apply HQ, Hs. Qed.

Lemma triple_modify {S} (P : S -> Prop) (f : S -> S) (Q : unit -> S -> Prop)
      (E : S -> Prop) :
  (forall s, P s -> Q tt (f s)) -> triple P (modify f) Q E.
Proof. intros HQ s Hs. apply HQ, Hs. Qed.

Lemma triple_stateless {S A} (P : S -> Prop) (m : M S A) (E : S -> Prop) :
  stateless m -> (forall s, P s -> E s) -> triple P m (fun _ => P) E.
Proof.
  intros Hm HE s Hs. specialize (Hm s).
  destruct (m s) as [[a | e | w |] s']; cbn [snd] in Hm; subst s'; auto.
Qed.

Lemma triple_weaken {S A} (P P' : S -> Prop) (m : M S A)
      (Q Q' : A -> S -> Prop) (E E' : S -> Prop) :
  triple P' m Q' E' ->
  (forall s, P s -> P' s) -> (forall a s, Q' a s -> Q a s) ->
  (forall s, E' s -> E s) ->
  triple P m Q E.
Proof.
  intros Hm HP HQ HE s Hs. specialize (Hm s (HP s Hs)).
  destruct (m s) as [[a | e | w |] s']; auto.
Qed.

(** *** Steps that leave a part of the state alone *)

Lemma keeps_stateless {S A X} (part : S -> X) (m : M S A) :
  stateless m -> keeps part m.
Proof. intros Hm s. rewrite Hm. reflexivity. Qed.

Lemma keeps_bind {S A B X} (part : S -> X) (m : M S A) (f : A -> M S B) :
  keeps part m -> (forall a, keeps part (f a)) -> keeps part (bind m f).
Proof.
  intros Hm Hf s. unfold bind. specialize (Hm s).
  destruct (m s) as [[a | e | w |] s']; cbn [snd] in *; auto.
  rewrite Hf. exact Hm.
Qed.

Lemma keeps_attempt {S A X} (part : S -> X) (m : M S A) :
  keeps part m -> keeps part (attempt m).
Proof.
  intros Hm s. unfold attempt. specialize (Hm s).
  destruct (m s) as [[a | e | w |] s']; exact Hm.
Qed.

Lemma keeps_discard {S A X} (part : S -> X) (m : M S A) :
  keeps part m -> keeps part (discard m).
Proof.
  intros Hm. unfold discard. apply keeps_bind; [apply keeps_attempt, Hm |].
  intros _. apply keeps_stateless, stateless_ret.
Qed.

Lemma keeps_modify {S X} (part : S -> X) (f : S -> S) :
  (forall s, part (f s) = part s) -> keeps part (modify f).
Proof. intros Hf s. apply Hf. Qed.

(** What follows a step does not matter to a part of the state that it
    leaves alone. *)
Lemma keeps_after {S A B X} (part : S -> X) (m : M S A) (f : A -> M S B)
      (s : S) :
  (forall a, keeps part (f a)) ->
  part (snd (bind m f s)) = part (snd (m s)).
Proof.
  intros Hf. unfold bind.
  destruct (m s) as [[a | e | w |] s']; cbn [snd]; [apply Hf | reflexivity ..].
Qed.

(** ** Framing transport *)

Module TransportFacts.

Import Transport.
Import TransportSpec.

Lemma shiftl1_flag (n flag : Z) :
  0 <= n -> flag = 0 \/ flag = 1 ->
  Z.lor (Z.shiftl n 1) flag = Z.shiftl n 1 + flag.
Proof.
  intros Hn [-> | ->].
  - rewrite Z.lor_0_r. lia.
  - destruct n as [| p | p]; try lia; reflexivity.
Qed.

Lemma shiftl1_double (n : Z) : Z.shiftl n 1 = 2 * n.
Proof. rewrite Z.shiftl_mul_pow2 by lia. lia. Qed.

(** The header written by the code is the header of the specification. *)
Lemma uint16_header (n flag : Z) :
  0 <= n <= mapi_MAX_PACKAGE_LENGTH -> flag = 0 \/ flag = 1 ->
  writeUint16LE (uint16 (Z.shiftl n 1 + flag)) = header n flag.
Proof.
  intros Hn Hf. unfold header, uint16.
  rewrite shiftl1_flag by lia.
  rewrite shiftl1_double.
  unfold mapi_MAX_PACKAGE_LENGTH in Hn.
  rewrite Z.mod_small; [reflexivity |].
  change (2 ^ 16) with 65536. lia.
Qed.

Lemma readUint16LE_header (n flag : Z) :
  0 <= n <= mapi_MAX_PACKAGE_LENGTH -> flag = 0 \/ flag = 1 ->
  forall c, readUint16LE (header n flag) c = (Ok (2 * n + flag), c).
Proof.
  intros Hn Hf c. unfold header, writeUint16LE, readUint16LE, ret.
  rewrite shiftl1_flag by lia. rewrite shiftl1_double.
  unfold mapi_MAX_PACKAGE_LENGTH in Hn.
  set (p := 2 * n + flag).
  assert (Hp : 0 <= p < 65536) by (unfold p; lia).
  rewrite !N_ascii_embedding.
  - rewrite !Z2N.id.
    + f_equal. f_equal. pose proof (Z.div_mod p 256). lia.
    + apply Z.div_pos; lia.
    + apply Z.mod_pos_bound; lia.
  - assert (p / 256 < 256) by (apply Z.div_lt_upper_bound; lia).
    assert (0 <= p / 256) by (apply Z.div_pos; lia).
    lia.
  - pose proof (Z.mod_pos_bound p 256). lia.
Qed.

Lemma header_length (n flag : Z) : List.length (header n flag) = 2%nat.
Proof. reflexivity. Qed.

Lemma decode_length (n flag : Z) :
  flag = 0 \/ flag = 1 -> Z.shiftr (2 * n + flag) 1 = n.
Proof.
  intros Hf. rewrite Z.shiftr_div_pow2 by lia. change (2 ^ 1) with 2.
  destruct Hf; subst; [ | ]; symmetry.
  - apply Z.div_unique with 0; lia.
  - apply Z.div_unique with 1; lia.
Qed.

Lemma decode_flag (n flag : Z) :
  flag = 0 \/ flag = 1 -> Z.land (2 * n + flag) 1 = flag.
Proof.
  intros Hf.
  change (Z.land (2 * n + flag) 1) with (Z.land (2 * n + flag) (Z.ones 1)).
  rewrite Z.land_ones by lia. change (2 ^ 1) with 2.
  destruct Hf; subst; symmetry.
  - apply Z.mod_unique with n; lia.
  - apply Z.mod_unique with n; lia.
Qed.

Lemma MAX_eq : mapi_MAX_PACKAGE_LENGTH = 8190.
Proof. reflexivity. Qed.

Lemma chunks_nonempty (fuel : nat) (rest : list byte) :
  (0 < fuel)%nat -> chunks fuel rest <> [].
Proof.
  destruct fuel as [| f]; [lia |]. intros _. simpl.
  destruct (len rest <? mapi_MAX_PACKAGE_LENGTH); discriminate.
Qed.

Lemma frames_cons (ch : list byte) (rest : list (list byte)) :
  rest <> [] -> frames (ch :: rest) = header (len ch) 0 :: ch :: frames rest.
Proof. destruct rest; [congruence | reflexivity]. Qed.

Local Opaque mapi_MAX_PACKAGE_LENGTH.

(** What the loop of [putBlock] writes from position [pos] on. *)
Lemma putBlock_loop_frames (fuel : nat) :
  forall (b : list byte) (pos : Z) (c : TCPConn),
    0 <= pos <= len b ->
    len b - pos < Z.of_nat fuel * mapi_MAX_PACKAGE_LENGTH ->
    putBlock_loop fuel b pos 0 c
    = (Ok tt, mkTCPConn (inbound c)
                (outbound c ++ frames (chunks fuel (skipn (Z.to_nat pos) b)))).
Proof.
  pose proof MAX_eq as HM.
  induction fuel as [| f IH]; intros b pos c Hpos Hfuel; [lia |].
  assert (Hrest : len (skipn (Z.to_nat pos) b) = len b - pos).
  { rewrite len_skipn. unfold len in *. lia. }
  cbn [putBlock_loop chunks]. change (0 =? 1) with false. cbv iota.
  rewrite Hrest.
  destruct (len b - pos <? mapi_MAX_PACKAGE_LENGTH) eqn:Hshort.
  - apply Z.ltb_lt in Hshort.
    replace (pos + mapi_MAX_PACKAGE_LENGTH >? len b) with true
      by (symmetry; apply Z.gtb_lt; lia).
    unfold bind, slice.
    replace ((0 <=? pos) && (pos <=? len b) && (len b <=? len b)) with true
      by (symmetry; rewrite !andb_true_iff; repeat split; apply Z.leb_le; lia).
    unfold ret at 1.
    assert (Hdata : firstn (Z.to_nat (len b - pos)) (skipn (Z.to_nat pos) b)
                    = skipn (Z.to_nat pos) b).
    { apply firstn_all2. rewrite length_skipn. unfold len. lia. }
    rewrite Hdata, Hrest.
    replace (len b - pos <? mapi_MAX_PACKAGE_LENGTH) with true
      by (symmetry; apply Z.ltb_lt; lia).
    rewrite uint16_header by lia.
    unfold Write, modify. cbn [inbound outbound].
    destruct f; cbn [putBlock_loop]; change (1 =? 1) with true; cbv iota;
      unfold ret; rewrite <- app_assoc; cbn [frames]; rewrite Hrest;
      reflexivity.
  - apply Z.ltb_ge in Hshort.
    replace (pos + mapi_MAX_PACKAGE_LENGTH >? len b) with false
      by (symmetry; rewrite Z.gtb_ltb; apply Z.ltb_ge; lia).
    unfold bind at 1. unfold slice.
    replace ((0 <=? pos) && (pos <=? pos + mapi_MAX_PACKAGE_LENGTH)
             && (pos + mapi_MAX_PACKAGE_LENGTH <=? len b)) with true
      by (symmetry; rewrite !andb_true_iff; repeat split; apply Z.leb_le; lia).
    unfold ret at 1.
    replace (pos + mapi_MAX_PACKAGE_LENGTH - pos)
      with mapi_MAX_PACKAGE_LENGTH by lia.
    set (data := firstn (Z.to_nat mapi_MAX_PACKAGE_LENGTH)
                        (skipn (Z.to_nat pos) b)).
    assert (Hdata : len data = mapi_MAX_PACKAGE_LENGTH).
    { unfold data. rewrite len_firstn_full; [lia |].
      rewrite length_skipn. unfold len in *. lia. }
    rewrite Hdata.
    replace (mapi_MAX_PACKAGE_LENGTH <? mapi_MAX_PACKAGE_LENGTH) with false
      by (symmetry; apply Z.ltb_irrefl).
    rewrite uint16_header by lia.
    unfold bind, Write, modify. cbn [inbound outbound].
    rewrite IH by (unfold len in *; lia).
    cbn [inbound outbound].
    replace (Z.to_nat (pos + mapi_MAX_PACKAGE_LENGTH))
      with (Z.to_nat mapi_MAX_PACKAGE_LENGTH + Z.to_nat pos)%nat by lia.
    rewrite <- skipn_skipn.
    rewrite frames_cons by (apply chunks_nonempty; unfold len in *; lia).
    rewrite Hdata. rewrite <- !app_assoc. reflexivity.
Qed.

Lemma putBlock_frames (b : list byte) (c : TCPConn) :
  putBlock b c
  = (Ok tt, mkTCPConn (inbound c)
              (outbound c ++ frames (chunks (S (List.length b)) b))).
Proof.
  pose proof MAX_eq as HM. unfold putBlock.
  rewrite putBlock_loop_frames; [reflexivity | unfold len; lia |].
  unfold len. lia.
Qed.

(** The chunks put together are the payload, and they are well formed. *)
Lemma chunks_concat (fuel : nat) :
  forall rest : list byte,
    len rest < Z.of_nat fuel * mapi_MAX_PACKAGE_LENGTH ->
    List.concat (chunks fuel rest) = rest /\ wellChunked (chunks fuel rest).
Proof.
  pose proof MAX_eq as HM.
  induction fuel as [| f IH]; intros rest Hfuel.
  - pose proof (len_nonneg rest). lia.
  - cbn [chunks].
    destruct (len rest <? mapi_MAX_PACKAGE_LENGTH) eqn:Hshort.
    + apply Z.ltb_lt in Hshort. cbn. rewrite app_nil_r. auto.
    + apply Z.ltb_ge in Hshort.
      set (n := Z.to_nat mapi_MAX_PACKAGE_LENGTH).
      assert (Hlen : len (skipn n rest) = len rest - mapi_MAX_PACKAGE_LENGTH).
      { rewrite len_skipn. unfold len in *. lia. }
      destruct (IH (skipn n rest)) as [Hcat Hwell]; [lia |].
      split.
      * cbn [List.concat]. rewrite Hcat. apply firstn_skipn.
      * assert (Hne : chunks f (skipn n rest) <> []).
        { apply chunks_nonempty. unfold len in *. lia. }
        cbn [wellChunked].
        destruct (chunks f (skipn n rest)) as [| ch chs]; [congruence |].
        split; [| exact Hwell].
        unfold n. rewrite len_firstn_full; unfold len in *; lia.
Qed.

(** A payload whose length is a multiple of the package length ends in an
    empty chunk. *)
Lemma chunks_multiple (fuel : nat) :
  forall rest : list byte,
    len rest < Z.of_nat fuel * mapi_MAX_PACKAGE_LENGTH ->
    len rest mod mapi_MAX_PACKAGE_LENGTH = 0 ->
    last (chunks fuel rest) [] = [].
Proof.
  pose proof MAX_eq as HM.
  induction fuel as [| f IH]; intros rest Hfuel Hmod; [reflexivity |].
  cbn [chunks].
  destruct (len rest <? mapi_MAX_PACKAGE_LENGTH) eqn:Hshort.
  - apply Z.ltb_lt in Hshort. pose proof (len_nonneg rest).
    rewrite Z.mod_small in Hmod by lia.
    destruct rest; [reflexivity | unfold len in Hmod; cbn in Hmod; lia].
  - apply Z.ltb_ge in Hshort.
    set (n := Z.to_nat mapi_MAX_PACKAGE_LENGTH).
    assert (Hlen : len (skipn n rest) = len rest - mapi_MAX_PACKAGE_LENGTH).
    { rewrite len_skipn. unfold len in *. lia. }
    assert (Hne : chunks f (skipn n rest) <> []).
    { apply chunks_nonempty. unfold len in *. lia. }
    specialize (IH (skipn n rest)).
    destruct (chunks f (skipn n rest)) as [| ch chs] eqn:E; [congruence |].
    change (last (firstn n rest :: ch :: chs) []) with (last (ch :: chs) []).
    apply IH; [lia |].
    rewrite Hlen.
    replace (len rest - mapi_MAX_PACKAGE_LENGTH)
      with (len rest + (-1) * mapi_MAX_PACKAGE_LENGTH) by lia.
    rewrite Z.mod_add by lia. exact Hmod.
Qed.

Lemma wellChunked_bounds (chs : list (list byte)) :
  wellChunked chs ->
  Forall (fun ch => len ch <= mapi_MAX_PACKAGE_LENGTH) chs
  /\ (forall ch, In ch (removelast chs) -> len ch = mapi_MAX_PACKAGE_LENGTH)
  /\ len (last chs []) < mapi_MAX_PACKAGE_LENGTH.
Proof.
  induction chs as [| ch chs IH]; [intros [] |].
  destruct chs as [| ch' chs'].
  - cbn. intros Hlt. repeat split; [constructor; [lia | constructor] | | lia].
    intros ? [].
  - intros [Hfull Hrest]. destruct (IH Hrest) as (Hall & Hinit & Hlast).
    repeat split.
    + constructor; [lia | exact Hall].
    + intros x Hx. change (removelast (ch :: ch' :: chs'))
        with (ch :: removelast (ch' :: chs')) in Hx.
      destruct Hx as [<- | Hx]; auto.
    + exact Hlast.
Qed.

(** *** Reading *)

Lemma getBytes_zero (c : TCPConn) : getBytes 0 c = (Ok [], c).
Proof. reflexivity. Qed.

Lemma getBytes_whole (p : list byte) (inb inb' out : list (list byte)) :
  p <> [] ->
  readSegments inb (List.length p) = Some (p, inb') ->
  getBytes (len p) (mkTCPConn inb out) = (Ok p, mkTCPConn inb' out).
Proof.
  intros Hne Hread. unfold getBytes, len. rewrite Nat2Z.id.
  destruct (List.length p) as [| k] eqn:Hk.
  - destruct p; [congruence | discriminate].
  - cbn [getBytes_loop].
    replace (0 <? Z.of_nat (S k)) with true by (symmetry; apply Z.ltb_lt; lia).
    unfold bind, Read. cbn [inbound outbound]. rewrite Nat2Z.id, Hread.
    change (Z.to_nat 0) with 0%nat. cbn [firstn skipn app].
    unfold copy, make. rewrite repeat_length, Nat2Z.id, Hk.
    rewrite (firstn_all2 (n := S k) p) by lia.
    rewrite skipn_all2 by (rewrite repeat_length; lia). rewrite app_nil_r.
    assert (Hdone : (0 + len p <? Z.of_nat (S k)) = false).
    { apply Z.ltb_ge. unfold len. lia. }
    destruct k; cbn [getBytes_loop]; rewrite Hdone; reflexivity.
Qed.

Lemma delivers_getBytes (p : list byte) (parts inb out : list (list byte)) :
  delivers (p :: parts) inb ->
  exists inb',
    getBytes (len p) (mkTCPConn inb out) = (Ok p, mkTCPConn inb' out)
    /\ delivers parts inb'.
Proof.
  intros Hd. inversion Hd; subst.
  - exists inb. split; [apply getBytes_zero | assumption].
  - exists inb'. split; [apply getBytes_whole; assumption | assumption].
Qed.

(** What the loop of [getBlock] returns when the frames of a well formed
    message are delivered. *)
Lemma getBlock_loop_frames (chs : list (list byte)) :
  forall (fuel : nat) (acc : list byte) (inb out : list (list byte)),
    wellChunked chs ->
    (List.length chs <= fuel)%nat ->
    delivers (frames chs) inb ->
    exists inb',
      getBlock_loop fuel acc 0 (mkTCPConn inb out)
      = (Ok (acc ++ List.concat chs), mkTCPConn inb' out).
Proof.
  pose proof MAX_eq as HM.
  induction chs as [| ch chs IH]; intros fuel acc inb out Hwell Hfuel Hd;
    [destruct Hwell |].
  destruct fuel as [| f]; [cbn in Hfuel; lia |].
  pose proof (len_nonneg ch) as Hch.
  destruct chs as [| ch' chs'].
  - cbn [wellChunked] in Hwell. cbn [frames] in Hd.
    destruct (delivers_getBytes _ _ _ out Hd) as (inb1 & Hhdr & Hd1).
    destruct (delivers_getBytes _ _ _ out Hd1) as (inb2 & Hdata & _).
    exists inb2. cbn [getBlock_loop]. change (0 =? 1) with false. cbv iota.
    unfold bind at 1. change 2 with (len (header (len ch) 1)). rewrite Hhdr.
    unfold bind at 1. rewrite readUint16LE_header by lia.
    rewrite decode_length, decode_flag by auto.
    unfold bind. rewrite Hdata.
    destruct f; cbn [getBlock_loop]; change (1 =? 1) with true; cbv iota;
      unfold ret; cbn [List.concat]; rewrite app_nil_r; reflexivity.
  - destruct Hwell as [Hfull Hwell].
    rewrite frames_cons in Hd by discriminate.
    destruct (delivers_getBytes _ _ _ out Hd) as (inb1 & Hhdr & Hd1).
    destruct (delivers_getBytes _ _ _ out Hd1) as (inb2 & Hdata & Hd2).
    destruct (IH f (acc ++ ch) inb2 out Hwell) as (inb3 & Hloop);
      [cbn in *; lia | exact Hd2 |].
    exists inb3. cbn [getBlock_loop]. change (0 =? 1) with false. cbv iota.
    unfold bind at 1. change 2 with (len (header (len ch) 0)). rewrite Hhdr.
    unfold bind at 1. rewrite readUint16LE_header by lia.
    rewrite decode_length, decode_flag by auto.
    unfold bind. rewrite Hdata, Hloop.
    cbn [List.concat]. rewrite <- app_assoc. reflexivity.
Qed.

Lemma readSegments_concat (inb : list (list byte)) :
  forall (n : nat) (p : list byte) (inb' : list (list byte)),
    readSegments inb n = Some (p, inb') ->
    List.concat inb = p ++ List.concat inb'.
Proof.
  induction inb as [| seg rest IH]; intros n p inb' Hread; [discriminate |].
  destruct seg as [| a seg].
  - cbn in Hread |- *. eauto.
  - cbn [readSegments] in Hread. injection Hread as <- <-.
    cbn [List.concat]. rewrite app_assoc, firstn_skipn. reflexivity.
Qed.

Lemma delivers_pending (parts inb : list (list byte)) :
  delivers parts inb ->
  (List.length (List.concat parts) <= List.length (List.concat inb))%nat.
Proof.
  induction 1 as [inb | parts inb _ IH | p parts inb inb' _ Hread _ IH].
  - cbn. lia.
  - exact IH.
  - apply readSegments_concat in Hread. rewrite Hread.
    cbn [List.concat]. rewrite !length_app. lia.
Qed.

Lemma frames_length (chs : list (list byte)) :
  (List.length chs <= List.length (List.concat (frames chs)))%nat.
Proof.
  induction chs as [| ch chs IH]; [cbn; lia |].
  destruct chs as [| ch' chs'].
  - cbn. lia.
  - rewrite frames_cons by discriminate.
    cbn [List.concat List.length]. rewrite !length_app, header_length.
    cbn [List.length] in IH. lia.
Qed.

(** Whatever delivers the frames of a well formed message in whole parts
    makes [getBlock] return the message. *)
Lemma getBlock_frames (chs inb : list (list byte)) :
  wellChunked chs ->
  delivers (frames chs) inb ->
  received inb = Ok (List.concat chs).
Proof.
  intros Hwell Hd. unfold received, getBlock.
  destruct (getBlock_loop_frames chs (S (pending (mkTCPConn inb []))) [] inb []
              Hwell) as (inb' & Hloop); [| exact Hd |].
  - unfold pending. cbn [inbound].
    pose proof (delivers_pending _ _ Hd). pose proof (frames_length chs). lia.
  - rewrite Hloop. reflexivity.
Qed.

(** *** Two deliveries: segment by segment as written, and as one stream *)

Lemma delivers_skip (parts inb : list (list byte)) :
  delivers parts inb -> delivers parts ([] :: inb).
Proof.
  induction 1 as [inb | parts inb _ IH | p parts inb inb' Hne Hread Hd _].
  - constructor.
  - constructor. exact IH.
  - apply delivers_part with inb'; auto.
Qed.

Lemma delivers_written (parts : list (list byte)) : delivers parts parts.
Proof.
  induction parts as [| p parts IH]; [constructor |].
  destruct p as [| a p].
  - constructor. apply delivers_skip. exact IH.
  - apply delivers_part with ([] :: parts); [discriminate | |].
    + cbn [readSegments]. rewrite firstn_all, skipn_all. reflexivity.
    + apply delivers_skip. exact IH.
Qed.

Lemma delivers_stream (parts : list (list byte)) :
  forall tl : list byte, delivers parts [List.concat parts ++ tl].
Proof.
  induction parts as [| p parts IH]; intros tl; [constructor |].
  destruct p as [| a p].
  - constructor. apply IH.
  - apply delivers_part with [List.concat parts ++ tl]; [discriminate | |].
    + cbn [List.concat]. rewrite <- app_assoc.
      set (rest := List.concat parts ++ tl).
      change (readSegments [(a :: p) ++ rest] (List.length (a :: p)))
        with (Some (firstn (List.length (a :: p)) ((a :: p) ++ rest),
                    [skipn (List.length (a :: p)) ((a :: p) ++ rest)])).
      rewrite firstn_app, skipn_app, firstn_all, skipn_all, Nat.sub_diag.
      cbn [firstn skipn]. rewrite app_nil_r. reflexivity.
    + apply IH.
Qed.

Lemma sent_frames (P : list byte) :
  sent P = frames (chunks (S (List.length P)) P).
Proof. unfold sent. rewrite putBlock_frames. reflexivity. Qed.

Lemma chunks_payload (P : list byte) :
  List.concat (chunks (S (List.length P)) P) = P
  /\ wellChunked (chunks (S (List.length P)) P).
Proof.
  pose proof MAX_eq. apply chunks_concat. unfold len. lia.
Qed.

(** C1. For every payload [P]: [putBlock] returns without error, and
    [getBlock] run on the frames it wrote gives back exactly [P]: when the
    frames arrive write by write, when they arrive as one contiguous stream,
    and in every delivery in which the header and the data of each chunk
    arrive whole.  The payload is arbitrary, so its length may be 0, 1, 8190,
    8191, 16381 or 20000. *)
Theorem putBlock_getBlock_roundtrip (P : list byte) :
  fst (putBlock P (mkTCPConn [] [])) = Ok tt
  /\ received (sent P) = Ok P
  /\ received [List.concat (sent P)] = Ok P
  /\ (forall inb : list (list byte),
        delivers (sent P) inb -> received inb = Ok P).
Proof.
  destruct (chunks_payload P) as [Hcat Hwell].
  assert (Hany : forall inb, delivers (sent P) inb -> received inb = Ok P).
  { intros inb Hd. rewrite sent_frames in Hd.
    rewrite (getBlock_frames _ _ Hwell Hd). f_equal. exact Hcat. }
  split; [rewrite putBlock_frames; reflexivity |].
  split; [apply Hany, delivers_written |].
  split; [| exact Hany].
  apply Hany. rewrite <- (app_nil_r (List.concat _)). apply delivers_stream.
Qed.

(** A message that arrives in one segment together with the header of the
    next one. *)
Lemma putBlock_getBlock_roundtrip_witness :
  let P := list_ascii_of_string "abc" in
  let inb := [List.concat (sent P) ++ [ascii_of_nat 9; zero]] in
  delivers (sent P) inb /\ received inb = Ok P.
Proof.
  intros P inb.
  assert (Hd : delivers (sent P) inb).
  { unfold inb. change (sent P) with (frames [P]). apply delivers_stream. }
  split; [exact Hd |].
  destruct (putBlock_getBlock_roundtrip P) as (_ & _ & _ & Hany).
  apply Hany, Hd.
Defined.

(** The header of a chunk, byte by byte: two bytes, of which the first is
    the low byte and the second the high byte of the number
    [(length << 1) | last_flag]. *)
Lemma header_bytes (n flag : Z) :
  0 <= n <= 8190 -> flag = 0 \/ flag = 1 ->
  exists lo hi : byte,
    header n flag = [lo; hi]
    /\ Z.of_N (N_of_ascii lo) = Z.lor (Z.shiftl n 1) flag mod 256
    /\ Z.of_N (N_of_ascii hi) = Z.lor (Z.shiftl n 1) flag / 256
    /\ Z.lor (Z.shiftl n 1) flag < 2 ^ 16.
Proof.
  intros Hn Hf.
  exists (ascii_of_N (Z.to_N (Z.lor (Z.shiftl n 1) flag mod 256))),
         (ascii_of_N (Z.to_N (Z.lor (Z.shiftl n 1) flag / 256))).
  split; [reflexivity |].
  rewrite shiftl1_flag by lia. rewrite shiftl1_double.
  set (p := 2 * n + flag).
  assert (Hp : 0 <= p < 65536) by (unfold p; lia).
  assert (Hlo : 0 <= p mod 256 < 256) by (apply Z.mod_pos_bound; lia).
  assert (Hhi : 0 <= p / 256 < 256).
  { split; [apply Z.div_pos; lia | apply Z.div_lt_upper_bound; lia]. }
  rewrite !N_ascii_embedding by lia. rewrite !Z2N.id by lia.
  change (2 ^ 16) with 65536. repeat split; lia.
Qed.

(** C6. [putBlock] writes the payload as a sequence of chunks [chs], each
    after its header ([frames]), with the flag 1 before the final chunk and
    the flag 0 before every other: the chunks put together are the payload,
    none is longer than 8190 bytes, every chunk before the final one has
    exactly 8190 bytes and the final one has fewer, so a chunk of 8190 bytes
    is never marked last; a payload whose length is a positive multiple of
    8190 ends with an empty final chunk.  The header of a chunk is two
    bytes, the low byte first and the high byte second (little-endian), of
    the 16-bit number [(length << 1) | last_flag]. *)
Theorem putBlock_chunks (b : list byte) (c : TCPConn) :
  exists chs : list (list byte),
    putBlock b c = (Ok tt, mkTCPConn (inbound c) (outbound c ++ frames chs))
    /\ List.concat chs = b
    /\ Forall (fun ch => len ch <= 8190) chs
    /\ (forall ch, In ch (removelast chs) -> len ch = 8190)
    /\ len (last chs []) < 8190
    /\ (0 < len b -> len b mod 8190 = 0 -> last chs [] = [])
    /\ (forall (ch : list byte) (last_flag : Z),
          In ch chs -> last_flag = 0 \/ last_flag = 1 ->
          exists lo hi : byte,
            header (len ch) last_flag = [lo; hi]
            /\ Z.of_N (N_of_ascii lo)
               = Z.lor (Z.shiftl (len ch) 1) last_flag mod 256
            /\ Z.of_N (N_of_ascii hi)
               = Z.lor (Z.shiftl (len ch) 1) last_flag / 256
            /\ Z.lor (Z.shiftl (len ch) 1) last_flag < 2 ^ 16).
Proof.
  pose proof MAX_eq as HM.
  exists (chunks (S (List.length b)) b).
  destruct (chunks_payload b) as [Hcat Hwell].
  destruct (wellChunked_bounds _ Hwell) as (Hall & Hinit & Hlast).
  rewrite HM in *.
  split; [apply putBlock_frames |].
  split; [exact Hcat |]. split; [exact Hall |]. split; [exact Hinit |].
  split; [exact Hlast |]. split.
  - intros _ Hmod. apply chunks_multiple; rewrite HM; unfold len in *; lia.
  - intros ch last_flag Hin Hflag. apply header_bytes; [| exact Hflag].
    rewrite Forall_forall in Hall. specialize (Hall ch Hin).
    pose proof (len_nonneg ch). lia.
Qed.

Local Transparent mapi_MAX_PACKAGE_LENGTH.

Example sent_short :
  sent (list_ascii_of_string "abc")
  = [[ascii_of_nat 7; zero]; list_ascii_of_string "abc"].
Proof. reflexivity. Qed.

Example sent_empty : sent [] = [[ascii_of_nat 1; zero]; []].
Proof. reflexivity. Qed.

Example sent_full_package :
  let P := repeat (ascii_of_nat 120) (Z.to_nat 8190) in
  sent P = [[ascii_of_nat 252; ascii_of_nat 63]; P; [ascii_of_nat 1; zero]; []].
Proof. vm_compute. reflexivity. Qed.

Example received_long :
  let P := repeat (ascii_of_nat 120) (Z.to_nat 16381) in
  received [List.concat (sent P)] = Ok P.
Proof. vm_compute. reflexivity. Qed.

(** A header that arrives one byte at a time: the second [Read] of [getBytes]
    fills the whole scratch buffer again, the byte that does not fit is taken
    off the pipe all the same. *)
Example getBytes_short_read :
  let a := ascii_of_nat 97 in
  getBytes 2 (mkTCPConn [[ascii_of_nat 7]; [zero; a; a; a]] [])
  = (Ok [ascii_of_nat 7; zero], mkTCPConn [[a; a]] []).
Proof. reflexivity. Qed.

End TransportFacts.

(** ** Login handshake *)

Module HandshakeFacts.

Import Mapi.
Import HandshakeSpec.

(** *** A comma-separated list holds a name iff the name, between commas,
    occurs in the list put between commas *)

Lemma commaFree_app (s t : string) :
  commaFree (s ++ t)%string = commaFree s && commaFree t.
Proof.
  induction s as [| c s IH]; [reflexivity |].
  cbn [commaFree String.append]. rewrite IH. apply andb_assoc.
Qed.

Lemma append_assoc (s t u : string) :
  ((s ++ t) ++ u = s ++ (t ++ u))%string.
Proof. induction s as [| c s IH]; cbn; [| rewrite IH]; reflexivity. Qed.

Lemma prefix_empty (s : string) : String.prefix "" s = true.
Proof. destruct s; reflexivity. Qed.

Lemma prefix_cons (c d : ascii) (s t : string) :
  String.prefix (String c s) (String d t) = Ascii.eqb c d && String.prefix s t.
Proof.
  cbn [String.prefix]. destruct (ascii_dec c d) as [-> | Hne].
  - rewrite Ascii.eqb_refl. reflexivity.
  - apply Ascii.eqb_neq in Hne. rewrite Hne. reflexivity.
Qed.

(** A comma-free field followed by a comma is a prefix of another one
    followed by a comma exactly when the two fields are equal. *)
Lemma prefix_field (x : string) :
  forall cur rest : string,
    commaFree x = true -> commaFree cur = true ->
    String.prefix (x ++ String comma "")%string
                  (cur ++ String comma rest)%string
    = String.eqb x cur.
Proof.
  induction x as [| c x IH]; intros cur rest Hx Hcur.
  - destruct cur as [| d cur];
      [cbn [String.append];
       rewrite prefix_cons, Ascii.eqb_refl, prefix_empty; reflexivity |].
    cbn [String.append]. rewrite prefix_cons.
    cbn [commaFree] in Hcur. apply andb_true_iff in Hcur as [Hd _].
    apply negb_true_iff in Hd. rewrite Ascii.eqb_sym, Hd. reflexivity.
  - cbn [commaFree] in Hx. apply andb_true_iff in Hx as [Hc Hx].
    apply negb_true_iff in Hc.
    destruct cur as [| d cur].
    + cbn [String.append]. rewrite prefix_cons, Hc. reflexivity.
    + cbn [commaFree] in Hcur. apply andb_true_iff in Hcur as [_ Hcur].
      cbn [String.append String.eqb]. rewrite prefix_cons, IH by assumption.
      reflexivity.
Qed.

Lemma Contains_cons (c : ascii) (s sub : string) :
  Contains (String c s) sub = String.prefix sub (String c s) || Contains s sub.
Proof. reflexivity. Qed.

(** A pattern that starts with a comma is not found inside a comma-free
    field. *)
Lemma Contains_skip_field (pat : string) (cur : string) :
  forall rest : string,
    commaFree cur = true ->
    Contains (cur ++ rest)%string (String comma pat) = Contains rest (String comma pat).
Proof.
  induction cur as [| d cur IH]; intros rest Hcur; [reflexivity |].
  cbn [commaFree] in Hcur. apply andb_true_iff in Hcur as [Hd Hcur].
  apply negb_true_iff in Hd.
  cbn [String.append]. rewrite Contains_cons, prefix_cons.
  rewrite Ascii.eqb_sym, Hd. cbn [andb orb]. apply IH. exact Hcur.
Qed.

Lemma Contains_field (x cur rest : string) :
  commaFree x = true -> commaFree cur = true ->
  Contains (String comma (cur ++ String comma rest))%string (between_commas x)
  = String.eqb x cur || Contains (String comma rest) (between_commas x).
Proof.
  intros Hx Hcur. unfold between_commas.
  rewrite Contains_cons, prefix_cons, Ascii.eqb_refl. cbn [andb].
  rewrite prefix_field by assumption.
  rewrite Contains_skip_field by assumption. reflexivity.
Qed.

Lemma Contains_last (x : string) :
  Contains (String comma "") (between_commas x) = false.
Proof.
  unfold between_commas. rewrite Contains_cons, prefix_cons, Ascii.eqb_refl.
  destruct x; reflexivity.
Qed.

Lemma splitFrom_comma (x : string) (h : string) :
  forall cur : string,
    commaFree x = true -> commaFree cur = true ->
    (In x (splitFrom (String comma "") 0 cur h)
     <-> Contains (String comma (cur ++ h ++ String comma ""))%string
                  (between_commas x) = true).
Proof.
  induction h as [| c h IH]; intros cur Hx Hcur.
  - cbn [splitFrom String.append].
    rewrite Contains_field, Contains_last, orb_false_r by assumption.
    rewrite String.eqb_eq. cbn. intuition congruence.
  - cbn [splitFrom]. rewrite prefix_cons.
    destruct (Ascii.eqb comma c) eqn:Hc.
    + apply Ascii.eqb_eq in Hc. subst c.
      rewrite prefix_empty. cbn [andb].
      change (String.length (String comma "") - 1)%nat with 0%nat.
      cbn [In String.append].
      rewrite Contains_field by assumption.
      rewrite orb_true_iff, String.eqb_eq.
      rewrite (IH EmptyString Hx eq_refl). cbn [String.append].
      intuition congruence.
    + cbn [andb].
      rewrite IH; [| assumption |].
      * rewrite append_assoc. reflexivity.
      * rewrite commaFree_app, Hcur. cbn [commaFree andb].
        rewrite (Ascii.eqb_sym c comma), Hc. reflexivity.
Qed.

(** The test of the code, [strings.Contains("," + hashes + ",", ",X,")], says
    whether [X] is one of the comma-separated names of [hashes]. *)
Lemma offered_iff (x hashes : string) :
  commaFree x = true ->
  Contains ("," ++ hashes ++ ",")%string ("," ++ x ++ ",")%string = true
  <-> In x (Split hashes ",").
Proof.
  intros Hx. symmetry. apply (splitFrom_comma x hashes EmptyString Hx eq_refl).
Qed.

(** *** The response to a challenge *)

Section Response.

Context {H : Hashes}.

Lemma challengeResponse_state (challenge : list byte) :
  stateless (challengeResponse challenge).
Proof.
  unfold challengeResponse.
  repeat first
    [ apply stateless_bind; [| intros ?]
    | apply stateless_get | apply stateless_ret | apply stateless_fail
    | apply stateless_index
    | match goal with
      | |- stateless (if ?b then _ else _) => destruct b
      end ].
Qed.

(** C5. For a challenge of protocol version "9" and password algorithm
    SHA512: when SHA1 is among the hash algorithms the server offers, whether
    or not MD5 is too, the response is exactly
    ["BIG:" + username + ":" + "{SHA1}" + hex(sha1(hex(sha512(password)) + salt))
     + ":" + language + ":" + database + ":"]; the MD5 form of the response is
    given when SHA1 is not among them and MD5 is. *)
Theorem challengeResponse_transport_hash
        (c : MapiConn) (challenge : list byte)
        (salt user hashes f4 : string) (rest : list string) :
  Split (string_of_list_ascii challenge) ":"
  = salt :: user :: "9" :: hashes :: f4 :: "SHA512" :: rest ->
  let p := hex (SHA512 (Password c)) in
  let answer pwhash :=
    ("BIG:" ++ Username c ++ ":" ++ pwhash ++ ":" ++ Language c ++ ":"
     ++ Database c ++ ":")%string in
  (In "SHA1" (Split hashes ",") ->
   challengeResponse challenge c
   = (Ok (answer ("{SHA1}" ++ hex (SHA1 (p ++ salt)))%string), c))
  /\ (~ In "SHA1" (Split hashes ",") -> In "MD5" (Split hashes ",") ->
      challengeResponse challenge c
      = (Ok (answer ("{MD5}" ++ hex (MD5 (p ++ salt)))%string), c)).
Proof.
  intros Hsplit p answer.
  assert (Hhead : forall k : string -> M MapiConn string,
             challengeResponse challenge c
             = (pwhash <-
                  (if Contains ("," ++ hashes ++ ",")%string ",SHA1,"
                   then ret ("{SHA1}" ++ hex (SHA1 (p ++ salt)))%string
                   else if Contains ("," ++ hashes ++ ",")%string ",MD5,"
                   then ret ("{MD5}" ++ hex (MD5 (p ++ salt)))%string
                   else fail ("mapi: unsupported hash algorithm required for login "
                              ++ hashes)%string) ;;
                ret (answer pwhash)) c).
  { intros _. unfold challengeResponse. unfold bind at 1. unfold get at 1.
    rewrite Hsplit. reflexivity. }
  specialize (Hhead (fun _ => ret "")). rewrite Hhead. clear Hhead.
  split.
  - intros Hsha1.
    apply (offered_iff "SHA1" hashes eq_refl) in Hsha1.
    change ("," ++ "SHA1" ++ ",")%string with ",SHA1," in Hsha1.
    unfold bind. rewrite Hsha1. reflexivity.
  - intros Hno Hmd5.
    apply (offered_iff "MD5" hashes eq_refl) in Hmd5.
    change ("," ++ "MD5" ++ ",")%string with ",MD5," in Hmd5.
    destruct (Contains ("," ++ hashes ++ ",")%string ",SHA1,") eqn:Hsha1.
    + exfalso. apply Hno. apply (offered_iff "SHA1" hashes eq_refl).
      exact Hsha1.
    + unfold bind. rewrite Hmd5. reflexivity.
Qed.

End Response.

Lemma challengeResponse_transport_hash_witness :
  Split sampleChallenge ":"
  = ["s4lt"; "merovingian"; "9"; "RIPEMD160,SHA1,MD5"; "LIT"; "SHA512"; ""]
  /\ In "SHA1" (Split "RIPEMD160,SHA1,MD5" ",")
  /\ challengeResponse (H := sampleHashes)
       (list_ascii_of_string sampleChallenge) (sampleConn None)
     = (Ok "BIG:monetdb:{SHA1}7937383730373773346c74:sql:demo:", sampleConn None).
Proof.
  split; [reflexivity |]. split; [cbn; auto |].
  apply (challengeResponse_transport_hash (H := sampleHashes) (sampleConn None)
           (list_ascii_of_string sampleChallenge)
           "s4lt" "merovingian" "RIPEMD160,SHA1,MD5" "LIT" [""] eq_refl).
  cbn. auto.
Defined.

Example challengeResponse_MD5_only :
  fst (challengeResponse (H := sampleHashes)
         (list_ascii_of_string "s4lt:merovingian:9:RIPEMD160,MD5:LIT:SHA512:")
         (sampleConn None))
  = Ok "BIG:monetdb:{MD5}7a37383730373773346c74:sql:demo:".
Proof. reflexivity. Qed.

(** *** The login sequence *)

Lemma onConn_State {A} (m : M TCPConn A) (c : MapiConn) :
  State (snd (onConn m c)) = State c.
Proof.
  unfold onConn. destruct (conn c) as [t |]; [| reflexivity].
  destruct (m t). reflexivity.
Qed.

Lemma onConn_connected {A} (m : M TCPConn A) (c c' : MapiConn) (a : A) :
  onConn m c = (Ok a, c') -> exists t, conn c' = Some t.
Proof.
  unfold onConn. destruct (conn c) as [t |]; [| discriminate].
  destruct (m t) as [r t']. intros [= _ <-]. exists t'. reflexivity.
Qed.

Lemma putBlock_ok (b : list byte) (c : MapiConn) (t : TCPConn) :
  conn c = Some t -> fst (putBlock b c) = Ok tt.
Proof.
  intros Hc. unfold putBlock, onConn. rewrite Hc.
  rewrite TransportFacts.putBlock_frames. reflexivity.
Qed.

Section Login.

Context {H : Hashes} {N : Network}.

(** When the prompt cannot be read, [tryLogin] returns nil and leaves the
    state of the handle as it was. *)
Lemma tryLogin_prompt_read_error
      (fuel : nat) (iteration : Z) (c c1 : MapiConn)
      (challenge : list byte) (response e : string) :
  getBlock c = (Ok challenge, c1) ->
  fst (challengeResponse challenge c1) = Ok response ->
  fst (getBlock (snd (putBlock (list_ascii_of_string response) c1))) = Err e ->
  fst (tryLogin (S fuel) iteration c) = Ok tt
  /\ State (snd (tryLogin (S fuel) iteration c)) = State c.
Proof.
  intros Hchallenge Hresponse Hprompt.
  destruct (onConn_connected _ _ _ _ Hchallenge) as [t Ht].
  pose proof (putBlock_ok (list_ascii_of_string response) c1 t Ht) as Hput.
  pose proof (challengeResponse_state challenge c1) as Hsame.
  assert (Hstate : State c1 = State c).
  { change c1 with (snd (Ok challenge, c1)). rewrite <- Hchallenge.
    apply onConn_State. }
  destruct (challengeResponse challenge c1) as [r1 c1'] eqn:Hc1.
  cbn [fst snd] in Hresponse, Hsame. subst r1 c1'.
  destruct (putBlock (list_ascii_of_string response) c1) as [r2 c2] eqn:Hc2.
  cbn [fst] in Hput. subst r2. cbn [snd] in Hprompt.
  assert (Hstate2 : State c2 = State c1).
  { change c2 with (snd (Ok tt, c2)). rewrite <- Hc2. apply onConn_State. }
  pose proof (onConn_State Transport.getBlock c2) as Hstate3.
  fold getBlock in Hstate3.
  destruct (getBlock c2) as [r3 c3] eqn:Hc3. cbn [fst snd] in *. subst r3.
  assert (Hrun : tryLogin (S fuel) iteration c = (Ok tt, c3)).
  { cbn [tryLogin]. unfold bind at 1. rewrite Hchallenge.
    unfold bind at 1. rewrite Hc1.
    unfold bind at 1. unfold discard, bind at 1, attempt at 1. rewrite Hc2.
    unfold ret at 1. unfold bind at 1, attempt at 1. rewrite Hc3.
    reflexivity. }
  rewrite Hrun. split; [reflexivity | cbn [snd]; congruence].
Qed.

(** C9. When the login response has been sent and reading the prompt block
    fails, [tryLogin] returns nil and the state of the handle is not set to
    ready: [Connect] on a handle in the initial state reports success and the
    handle is still in the initial state. *)
Theorem Connect_prompt_read_error
        (fuel : nat) (c c1 : MapiConn) (script : list (list byte))
        (challenge : list byte) (response e : string) :
  State c = mapi_STATE_INIT ->
  DialTCP (Hostname c) (Port c) = Some script ->
  getBlock (set_conn (Some (mkTCPConn script [])) c) = (Ok challenge, c1) ->
  fst (challengeResponse challenge c1) = Ok response ->
  fst (getBlock (snd (putBlock (list_ascii_of_string response) c1))) = Err e ->
  fst (tryLogin (S fuel) 0 (set_conn (Some (mkTCPConn script [])) c)) = Ok tt
  /\ fst (Connect (S fuel) c) = Ok tt
  /\ State (snd (Connect (S fuel) c)) = mapi_STATE_INIT.
Proof.
  intros Hinit Hdial Hchallenge Hresponse Hprompt.
  destruct (tryLogin_prompt_read_error fuel 0 _ _ _ _ _
              Hchallenge Hresponse Hprompt) as [Hnil Hstate].
  split; [exact Hnil |].
  assert (Hconnect : Connect (S fuel) c
                     = tryLogin (S fuel) 0
                                (set_conn (Some (mkTCPConn script [])) c)).
  { unfold Connect, Connect_with, login, bind, modify, get.
    cbn [Hostname Port set_conn]. rewrite Hdial.
    destruct c; reflexivity. }
  rewrite Hconnect. split; [exact Hnil |].
  rewrite Hstate. exact Hinit.
Qed.

End Login.

Lemma Connect_prompt_read_error_witness :
  State (sampleConn None) = mapi_STATE_INIT
  /\ fst (Connect (H := sampleHashes) (N := silentNetwork) 1 (sampleConn None))
     = Ok tt
  /\ State (snd (Connect (H := sampleHashes) (N := silentNetwork) 1
                        (sampleConn None)))
     = mapi_STATE_INIT.
Proof.
  split; [reflexivity |].
  apply (Connect_prompt_read_error (H := sampleHashes) (N := silentNetwork)
           0 (sampleConn None)
           (sampleConn (Some (mkTCPConn [[]] [])))
           (TransportSpec.sent (list_ascii_of_string sampleChallenge))
           (list_ascii_of_string sampleChallenge)
           "BIG:monetdb:{SHA1}7937383730373773346c74:sql:demo:" "EOF");
    reflexivity.
Defined.

(** *** A chain of redirects to the meta-proxy *)

(** C2, at a chain of twelve redirects to the meta-proxy: the handshake is
    run twelve times on the connection, that is restarted eleven times; the
    twelfth run, at iteration 11, returns the error about the number of
    redirects to the run that called it and no further, and [Connect] returns
    nil with the handle in the ready state. *)
Theorem Connect_redirect_chain_accepted :
  let c := sampleConn None in
  let r := Connect (H := sampleHashes) (N := redirectingNetwork) 13 c in
  fst r = Ok tt
  /\ State (snd r) = mapi_STATE_READY
  /\ option_map (fun t => (List.length (outbound t), Transport.pending t)) (conn (snd r))
     = Some (24%nat, 0%nat)
  /\ fst (tryLogin (H := sampleHashes) (N := redirectingNetwork) 1 11
            (sampleConn (Some (mkTCPConn (redirectRounds 1) []))))
     = Err "mapi: maximal number of redirects reached (10)".
Proof. vm_compute. repeat split. Qed.

End HandshakeFacts.

(** ** Response parser and resultset cursor *)

Module ParserFacts.

Import ParserSpec.

(** *** Steps of the parser that leave the query alone *)

Lemma stateless_lift {S A} (o : outcome A) : stateless (S := S) (lift o).
Proof. intros s. reflexivity. Qed.

Lemma stateless_setIndex {S A} (a : list A) (i : Z) (v : A) :
  stateless (S := S) (setIndex a i v).
Proof.
  unfold setIndex. destruct ((0 <=? i) && (i <? len a));
    [apply stateless_ret | apply stateless_panic].
Qed.

Lemma stateless_makeSlice {S A} (z : A) (n : Z) :
  stateless (S := S) (makeSlice z n).
Proof.
  unfold makeSlice. destruct (n <? 0);
    [apply stateless_panic | apply stateless_ret].
Qed.

Lemma stateless_makeSliceOf {S A} (size : Z) (z : A) (n : Z) :
  stateless (S := S) (makeSliceOf size z n).
Proof.
  unfold makeSliceOf. destruct ((n <? 0) || (maxAlloc <? size * n));
    [apply stateless_panic | apply stateless_ret].
Qed.

Ltac stateless_step :=
  first
    [ apply stateless_ret | apply stateless_fail | apply stateless_panic
    | apply stateless_get | apply stateless_index | apply stateless_from
    | apply stateless_between | apply stateless_lift
    | apply stateless_setIndex | apply stateless_makeSlice
    | apply stateless_makeSliceOf
    | apply stateless_bind; [| intros ?]
    | match goal with
      | |- stateless (if ?b then _ else _) => destruct b
      | |- stateless (let '(_, _) := ?x in _) => destruct x
      | |- stateless (match ?x with _ => _ end) => destruct x
      end ].

Section Stateless.

Context {C : Codec}.

Lemma stateless_parseTuple_loop {S} (schema : list TableElement)
      (items : list string) :
  forall i : Z, stateless (S := S) (parseTuple_loop schema items i).
Proof.
  induction items as [| value rest IH]; intros i; cbn [parseTuple_loop];
    repeat stateless_step. apply IH.
Qed.

Lemma stateless_updateSchema_loop {S} (names : list string) (l : locals) :
  forall i : Z, stateless (S := S) (updateSchema_loop names i l).
Proof.
  induction names as [| n rest IH]; intros i; cbn [updateSchema_loop];
    repeat stateless_step. apply IH.
Qed.

Lemma stateless_typesizes_loop {S} (values : list string) :
  forall (i : Z) (internalSizes : list Z) (sizes : list (list Z)),
    stateless (S := S) (typesizes_loop values i internalSizes sizes).
Proof.
  induction values as [| v rest IH]; intros i internalSizes sizes;
    cbn [typesizes_loop]; repeat stateless_step. apply IH.
Qed.

Lemma stateless_decimal_loop {S} (types : list string) (sizes : list (list Z)) :
  forall (j : Z) (precisions scales : list Z),
    stateless (S := S) (decimal_loop types j sizes precisions scales).
Proof.
  induction types as [| t rest IH]; intros j precisions scales;
    cbn [decimal_loop]; repeat stateless_step; apply IH.
Qed.

Lemma stateless_length_loop {S} (values : list string) :
  forall (i : Z) (displaySizes : list Z),
    stateless (S := S) (length_loop values i displaySizes).
Proof.
  induction values as [| v rest IH]; intros i displaySizes;
    cbn [length_loop]; repeat stateless_step. apply IH.
Qed.

Lemma stateless_Result : stateless Result.
Proof. unfold Result. repeat stateless_step. Qed.

Lemma stateless_load (p : ptr) : stateless (load p).
Proof. unfold load. repeat stateless_step. Qed.

Lemma stateless_parseTuple (p : ptr) (d : string) : stateless (parseTuple p d).
Proof.
  unfold parseTuple. repeat stateless_step;
    auto using stateless_load, stateless_parseTuple_loop.
Qed.

Lemma stateless_headerLocals {S} (identity : string) (values : list string)
      (l : locals) :
  stateless (S := S) (headerLocals identity values l).
Proof.
  unfold headerLocals. repeat stateless_step;
    auto using stateless_typesizes_loop, stateless_decimal_loop,
               stateless_length_loop.
Qed.

End Stateless.

Ltac stateless_solve :=
  first [ apply stateless_Result | apply stateless_load
        | apply stateless_parseTuple | apply stateless_headerLocals
        | apply stateless_updateSchema_loop
        | apply stateless_typesizes_loop | apply stateless_decimal_loop
        | apply stateless_length_loop
        | solve [repeat stateless_step] ].

Section Facts.

Context {C : Codec}.

(** *** The cursor during a pass of [StoreResult] *)

Lemma midPass_start (q : query) : cursorInRange q -> midPass q false q.
Proof. intros Hq. split; [exact Hq | left; auto]. Qed.

Lemma midPass_endPass (q0 : query) (added : bool) (q : query) :
  midPass q0 added q -> endPass q0 q.
Proof.
  intros [Hq [(_ & Hlen & Hcur) | (_ & Hlen & Hcur)]];
    (split; [exact Hq | split; lia]).
Qed.

Lemma update_length {A} (i : nat) (f : A -> A) (l : list A) :
  List.length (update i f l) = List.length l.
Proof.
  revert i. induction l as [| x l IH]; intros [| i]; cbn; auto.
Qed.

Lemma update_nil {A} (i : nat) (f : A -> A) (l : list A) :
  update i f l = [] <-> l = [].
Proof. destruct l, i; cbn; split; congruence. Qed.

Lemma midPass_update (q0 : query) (added : bool) (q : query) (i : nat)
      (f : ResultSet -> ResultSet) :
  midPass q0 added q ->
  midPass q0 added (set_resultSets (update i f (resultSets q)) q).
Proof.
  unfold midPass, cursorInRange, len. cbn [resultSets currentResultSet set_resultSets].
  rewrite update_length, update_nil. auto.
Qed.

Ltac through_pass := intros ? ?; eapply midPass_endPass; eassumption.

Lemma pass_stateless {A} (q0 : query) (added : bool) (m : M query A) :
  stateless m ->
  triple (midPass q0 added) m (fun _ => midPass q0 added) (endPass q0).
Proof. intros Hm. apply triple_stateless; [exact Hm | through_pass]. Qed.

Lemma pass_store (q0 : query) (added : bool) (p : ptr)
      (f : ResultSet -> ResultSet) :
  triple (midPass q0 added) (store p f) (fun _ => midPass q0 added)
         (endPass q0).
Proof.
  intros q Hq. unfold store.
  destruct p as [i |]; [| eapply midPass_endPass; eassumption].
  unfold bind, get, put.
  destruct (nth_error (resultSets q) i);
    [apply midPass_update; exact Hq | eapply midPass_endPass; eassumption].
Qed.

Lemma pass_newResultSet (q0 : query) (added : bool) :
  triple (midPass q0 added) newResultSet (fun _ => midPass q0 true)
         (endPass q0).
Proof.
  intros q [Hq Hpass]. unfold newResultSet, bind, modify.
  unfold midPass, cursorInRange in *.
  cbn [resultSets currentResultSet set_resultSets set_currentResultSet].
  rewrite len_app. change (len [_]) with 1.
  assert (Hlen := len_nonneg (resultSets q)).
  assert (Hcur : -1 <= currentResultSet q < len (resultSets q)).
  { destruct Hq as [[-> ->] | Hq]; [cbn; lia | lia]. }
  split; [right; lia | right; lia].
Qed.

(** One step of a branch: a bind whose first action is one of the above. *)
Ltac pass_action :=
  first
    [ apply pass_store
    | apply pass_newResultSet
    | apply pass_stateless; stateless_solve ].

Ltac pass_steps :=
  repeat (eapply triple_bind; [pass_action | intros ?]).

Lemma pass_Continue (q0 : query) (added : bool) (l : locals) :
  addedResultSets l = added ->
  triple (midPass q0 added) (ret (Continue l)) (afterLine q0) (endPass q0).
Proof. intros <-. apply triple_ret. auto. Qed.

Lemma pass_Return (q0 : query) (added : bool) :
  triple (midPass q0 added) (ret Return) (afterLine q0) (endPass q0).
Proof. apply triple_ret. intros q Hq. eapply midPass_endPass, Hq. Qed.

Lemma pass_fail (q0 : query) (added : bool) (e : string) :
  triple (midPass q0 added) (fail e) (afterLine q0) (endPass q0).
Proof. apply triple_fail. through_pass. Qed.

Lemma pass_updateSchema (q0 : query) (added : bool) (p : ptr) (l : locals) :
  triple (midPass q0 added) (updateSchema p l) (fun _ => midPass q0 added)
         (endPass q0).
Proof. unfold updateSchema. pass_steps. apply pass_store. Qed.

Lemma pass_storePrepare (q0 : query) (added : bool) (line : string) :
  triple (midPass q0 added) (storePrepare line) (afterLine q0) (endPass q0).
Proof. unfold storePrepare. pass_steps. apply pass_Return. Qed.

Lemma pass_storeTable (q0 : query) (l : locals) (line : string) :
  triple (midPass q0 (addedResultSets l)) (storeTable line l)
         (afterLine q0) (endPass q0).
Proof. unfold storeTable. pass_steps. apply pass_Continue. reflexivity. Qed.

Lemma pass_storeTuple (q0 : query) (l : locals) (line : string) :
  triple (midPass q0 (addedResultSets l)) (storeTuple line l)
         (afterLine q0) (endPass q0).
Proof. unfold storeTuple. pass_steps. apply pass_Continue. reflexivity. Qed.

Lemma pass_storeBlock (q0 : query) (l : locals) :
  triple (midPass q0 (addedResultSets l)) (storeBlock l)
         (afterLine q0) (endPass q0).
Proof. unfold storeBlock. pass_steps. apply pass_Continue. reflexivity. Qed.

Lemma pass_storeMarker (q0 : query) (l : locals) :
  triple (midPass q0 (addedResultSets l)) (storeMarker l)
         (afterLine q0) (endPass q0).
Proof. unfold storeMarker. pass_steps. apply pass_Continue. reflexivity. Qed.

Lemma pass_storeUpdate (q0 : query) (l : locals) (line : string) :
  triple (midPass q0 (addedResultSets l)) (storeUpdate line l)
         (afterLine q0) (endPass q0).
Proof.
  unfold storeUpdate.
  eapply triple_bind; [pass_action | intros q].
  eapply triple_bind
    with (Q' := fun l' => midPass q0 (addedResultSets l')).
  - destruct (currentResultSet q =? -1).
    + eapply triple_bind; [pass_action | intros ?].
      apply triple_ret. auto.
    + apply triple_ret. auto.
  - intros l'. pass_steps. apply pass_Continue. reflexivity.
Qed.

Lemma pass_storeHeader (q0 : query) (l : locals) (line : string) :
  triple (midPass q0 (addedResultSets l)) (storeHeader line l)
         (afterLine q0) (endPass q0).
Proof.
  unfold storeHeader.
  eapply triple_bind; [pass_action | intros rest].
  eapply triple_bind; [pass_action | intros t0].
  eapply triple_bind; [pass_action | intros t1].
  eapply triple_bind
    with (Q' := fun l' => midPass q0 (addedResultSets l')).
  - unfold headerLocals.
    repeat match goal with
           | |- triple _ (if ?b then _ else _) _ _ => destruct b
           end;
      try (apply triple_ret; auto).
    + eapply triple_bind;
        [apply pass_stateless, stateless_typesizes_loop | intros [? ?]].
      eapply triple_bind;
        [apply pass_stateless, stateless_decimal_loop | intros [? ?]].
      apply triple_ret. auto.
    + eapply triple_bind;
        [apply pass_stateless, stateless_length_loop | intros ?].
      apply triple_ret. auto.
  - intros l'.
    eapply triple_bind; [pass_action | intros p].
    eapply triple_bind; [apply pass_updateSchema | intros ?].
    pass_steps. apply pass_Continue. reflexivity.
Qed.

Lemma pass_storePrompt (q0 : query) (l : locals) :
  triple (midPass q0 (addedResultSets l)) (storePrompt l)
         (afterLine q0) (endPass q0).
Proof.
  unfold storePrompt.
  eapply triple_bind with (Q' := fun _ => endPass q0).
  - destruct (addedResultSets l) eqn:Hadded.
    + apply triple_modify. intros q [Hq Hpass].
      destruct Hpass as [(Hf & _) | (_ & Hlen & Hcur)]; [discriminate |].
      assert (Hlen0 := len_nonneg (resultSets q0)).
      unfold endPass, cursorInRange.
      cbn [resultSets currentResultSet set_currentResultSet].
      repeat split; [right; lia | lia | lia].
    + apply triple_ret. through_pass.
  - intros _. apply triple_ret. auto.
Qed.

(** Every line keeps the pass in order. *)
Lemma pass_storeLine (q0 : query) (l : locals) (line : string) :
  triple (midPass q0 (addedResultSets l)) (storeLine line l)
         (afterLine q0) (endPass q0).
Proof.
  unfold storeLine. destruct (getLineType line);
    auto using pass_storePrepare, pass_storeTable, pass_storeTuple,
               pass_storeBlock, pass_storeMarker, pass_storeUpdate,
               pass_storeHeader, pass_storePrompt, pass_fail, pass_Continue.
  pass_steps. apply pass_fail.
Qed.

(** *** A pass over a list of lines, complete or in progress *)

Lemma pass_storeLines (q0 : query) (lines : list string) :
  forall l : locals,
    triple (midPass q0 (addedResultSets l)) (storeLines lines l)
           (afterLine q0) (endPass q0).
Proof.
  induction lines as [| line rest IH]; intros l; cbn [storeLines].
  - apply pass_Continue. reflexivity.
  - eapply triple_bind; [apply pass_storeLine | intros [l' |]].
    + apply IH.
    + apply triple_ret. auto.
Qed.

Lemma storeLines_app (pre rest : list string) :
  forall (l : locals) (q : query),
    storeLines (pre ++ rest) l q
    = match storeLines pre l q with
      | (Ok (Continue l'), q') => storeLines rest l' q'
      | other => other
      end.
Proof.
  induction pre as [| line pre IH]; intros l q; [reflexivity |].
  cbn [app storeLines]. unfold bind.
  destruct (storeLine line l q) as [[[l' |] | e | w |] q']; try reflexivity.
  apply IH.
Qed.

(** [StoreResult] is the pass over the lines of the response; when the lines
    run out it returns the error about the unknown state. *)
Lemma StoreResult_loop_storeLines (r : string) (lines : list string) :
  forall (l : locals) (q : query),
    StoreResult_loop r lines l q
    = match storeLines lines l q with
      | (Ok (Continue _), q') => (Err ("mapi: unknown state: " ++ r)%string, q')
      | (Ok Return, q') => (Ok tt, q')
      | (Err e, q') => (Err e, q')
      | (Panic w, q') => (Panic w, q')
      | (Timeout, q') => (Timeout, q')
      end.
Proof.
  induction lines as [| line rest IH]; intros l q; [reflexivity |].
  cbn [StoreResult_loop storeLines]. unfold bind.
  destruct (storeLine line l q) as [[[l' |] | e | w |] q']; try reflexivity.
  apply IH.
Qed.

Lemma StoreResult_state (r : string) (q : query) :
  snd (StoreResult r q) = snd (storeLines (Split r newline) locals0 q).
Proof.
  unfold StoreResult. rewrite StoreResult_loop_storeLines.
  destruct (storeLines (Split r newline) locals0 q)
    as [[[l' |] | e | w |] q']; reflexivity.
Qed.

Lemma storeLines_endPass (q : query) (lines : list string) :
  cursorInRange q -> endPass q (snd (storeLines lines locals0 q)).
Proof.
  intros Hq.
  pose proof (pass_storeLines q lines locals0 q (midPass_start q Hq)) as Hpass.
  destruct (storeLines lines locals0 q) as [[[l' |] | e | w |] q'];
    cbn [afterLine snd] in *; eauto using midPass_endPass.
Qed.

Lemma StoreResult_endPass (q : query) (r : string) :
  cursorInRange q -> endPass q (snd (StoreResult r q)).
Proof. rewrite StoreResult_state. apply storeLines_endPass. Qed.

(** *** The queries a client can hold *)

Lemma HasNextResultSet_spec (q : query) :
  HasNextResultSet q = true
  <-> currentResultSet q <> -1
      /\ currentResultSet q + 1 < len (resultSets q).
Proof.
  unfold HasNextResultSet.
  rewrite andb_true_iff, negb_true_iff, Z.eqb_neq, Z.gtb_ltb, Z.ltb_lt.
  reflexivity.
Qed.

Lemma NextResultSet_cases (q : query) :
  NextResultSet q
  = if HasNextResultSet q
    then (Ok tt, set_currentResultSet (currentResultSet q + 1) q)
    else (Err "EOF", q).
Proof.
  unfold NextResultSet, bind, get. destruct (HasNextResultSet q); reflexivity.
Qed.

Lemma reachable_cursorInRange (q : query) : reachable q -> cursorInRange q.
Proof.
  induction 1 as [conn text | q r _ IH | q _ IH | q c _ IH].
  - left. split; reflexivity.
  - apply (StoreResult_endPass q r IH).
  - rewrite NextResultSet_cases.
    destruct (HasNextResultSet q) eqn:Hnext; [| exact IH].
    apply HasNextResultSet_spec in Hnext. right.
    cbn [snd set_currentResultSet currentResultSet resultSets].
    destruct IH as [[Hcur _] | Hcur]; lia.
  - exact IH.
Qed.

Lemma cursorInRange_bounds (q : query) :
  cursorInRange q -> -1 <= currentResultSet q < len (resultSets q).
Proof.
  pose proof (len_nonneg (resultSets q)).
  intros [[-> ->] | Hcur]; [cbn; lia | lia].
Qed.

Lemma Result_inRange (q : query) :
  cursorInRange q ->
  Result q
  = (Ok (if currentResultSet q =? -1 then None
         else Some (Z.to_nat (currentResultSet q))), q).
Proof.
  intros Hq. unfold Result, bind, get.
  destruct (currentResultSet q =? -1) eqn:Hunset; [reflexivity |].
  apply Z.eqb_neq in Hunset.
  destruct Hq as [[Hcur _] | Hcur]; [congruence |].
  replace ((0 <=? currentResultSet q)
           && (currentResultSet q <? len (resultSets q))) with true;
    [reflexivity |].
  symmetry. apply andb_true_iff. split; [apply Z.leb_le | apply Z.ltb_lt]; lia.
Qed.

(** C10. For every query built by [NewQuery] and changed by [StoreResult]
    and [NextResultSet] only: the cursor is at least -1 and below the number
    of resultsets, also between any two lines of a pass of [StoreResult];
    [Result()] does not panic, it returns nil exactly when the cursor is -1
    and otherwise a pointer to an element of the sequence. *)
Theorem cursor_bounds (q : query) :
  reachable q ->
  -1 <= currentResultSet q < len (resultSets q)
  /\ (forall lines : list string,
        let q' := snd (storeLines lines locals0 q) in
        -1 <= currentResultSet q' < len (resultSets q'))
  /\ exists p : ptr,
        Result q = (Ok p, q)
        /\ (p = None <-> currentResultSet q = -1)
        /\ (forall i, p = Some i -> nth_error (resultSets q) i <> None).
Proof.
  intros Hreach. pose proof (reachable_cursorInRange q Hreach) as Hq.
  split; [apply cursorInRange_bounds, Hq |].
  split.
  - intros lines q'. apply cursorInRange_bounds.
    apply (storeLines_endPass q lines Hq).
  - eexists. split; [apply Result_inRange, Hq |].
    pose proof (cursorInRange_bounds q Hq) as Hb.
    destruct (currentResultSet q =? -1) eqn:Hunset.
    + apply Z.eqb_eq in Hunset. split; [tauto | discriminate].
    + apply Z.eqb_neq in Hunset. split; [split; [discriminate | tauto] |].
      intros i [= <-]. apply nth_error_Some. unfold len in Hb. lia.
Qed.

(** In the version with a cursor: [HasNextResultSet()] is true iff there is a
    resultset at index cursor + 1; [NextResultSet()] moves the cursor there,
    or returns [io.EOF] and leaves the query as it was. *)
Lemma HasNextResultSet_cursor (q : query) :
  reachable q ->
  (HasNextResultSet q = true
   <-> 0 <= currentResultSet q + 1
       /\ exists s, nth_error (resultSets q)
                             (Z.to_nat (currentResultSet q + 1)) = Some s)
  /\ (HasNextResultSet q = true ->
      NextResultSet q
      = (Ok tt, set_currentResultSet (currentResultSet q + 1) q))
  /\ (HasNextResultSet q = false -> NextResultSet q = (Err "EOF", q)).
Proof.
  intros Hreach. pose proof (reachable_cursorInRange q Hreach) as Hq.
  pose proof (cursorInRange_bounds q Hq) as Hb.
  split; [| split; intros Hnext; rewrite NextResultSet_cases, Hnext;
            reflexivity].
  rewrite HasNextResultSet_spec. split.
  - intros [Hset Hlt]. split; [lia |].
    destruct (nth_error (resultSets q) (Z.to_nat (currentResultSet q + 1)))
      as [s |] eqn:Hnth; [eauto |].
    apply nth_error_None in Hnth. unfold len in Hlt. lia.
  - intros [Hpos [s Hs]].
    assert (Hlt : (Z.to_nat (currentResultSet q + 1)
                   < List.length (resultSets q))%nat).
    { apply nth_error_Some. congruence. }
    unfold len. split; [| lia].
    intros Hunset. destruct Hq as [[_ Hnil] | Hcur]; [| lia].
    rewrite Hnil in Hlt. cbn in Hlt. lia.
Qed.

(** *** Where the cursor is after a pass *)

Lemma storeLines_reaches (q : query) (pre : list string) (l1 : locals)
      (q1 : query) :
  cursorInRange q ->
  storeLines pre locals0 q = (Ok (Continue l1), q1) ->
  midPass q (addedResultSets l1) q1.
Proof.
  intros Hq Hpre.
  pose proof (pass_storeLines q pre locals0 q (midPass_start q Hq)) as Hpass.
  rewrite Hpre in Hpass. exact Hpass.
Qed.

Lemma StoreResult_at_line (q : query) (r : string) (pre : list string)
      (line : string) (post : list string) (l1 : locals) (q1 : query) :
  Split r newline = pre ++ line :: post ->
  storeLines pre locals0 q = (Ok (Continue l1), q1) ->
  StoreResult r q
  = match storeLine line l1 q1 with
    | (Ok (Continue l'), q') => StoreResult_loop r post l' q'
    | (Ok Return, q') => (Ok tt, q')
    | (Err e, q') => (Err e, q')
    | (Panic w, q') => (Panic w, q')
    | (Timeout, q') => (Timeout, q')
    end.
Proof.
  intros Hsplit Hpre. unfold StoreResult.
  rewrite StoreResult_loop_storeLines, Hsplit, storeLines_app, Hpre.
  cbn [storeLines]. unfold bind.
  destruct (storeLine line l1 q1) as [[[l' |] | e | w |] q']; try reflexivity.
  rewrite StoreResult_loop_storeLines. reflexivity.
Qed.

Lemma cursorAt_stateless {A} (c : Z) (m : M query A) :
  stateless m ->
  triple (cursorAt c) m (fun _ => cursorAt c) (cursorAt c).
Proof. intros Hm. apply triple_stateless; auto. Qed.

Lemma cursorAt_store (c : Z) (p : ptr) (f : ResultSet -> ResultSet) :
  triple (cursorAt c) (store p f) (fun _ => cursorAt c) (cursorAt c).
Proof.
  intros q Hq. unfold store. destruct p as [i |]; [| exact Hq].
  unfold bind, get, put. destruct (nth_error (resultSets q) i); exact Hq.
Qed.

Lemma cursorAt_storePrepare (c : Z) (line : string) :
  triple (cursorAt c) (storePrepare line)
         (fun f q => f = Return /\ cursorAt (c + 1) q) (cursorAt (c + 1)).
Proof.
  unfold storePrepare.
  eapply triple_bind with (Q' := fun _ => cursorAt (c + 1)).
  { intros q Hq. unfold newResultSet, bind, modify, cursorAt in *.
    cbn [currentResultSet set_currentResultSet set_resultSets]. lia. }
  intros _.
  repeat (eapply triple_bind;
          [first [ apply cursorAt_store
                 | apply cursorAt_stateless; stateless_solve ]
          | intros ?]).
  apply triple_ret. auto.
Qed.

(** C8, as the code has it.  A new query has the cursor at -1 and no current
    resultset.  For a pass of [StoreResult] over a response [r] on a query a
    client can hold: a pass that adds no resultset leaves the cursor where it
    was; a pass that gets to a prepare line moves the cursor one forward from
    where it was before that line, so off -1, and stops there with no prompt
    line read; a pass that gets to a prompt line sets the cursor to 0 when it
    has added a resultset before (at a table, update, schema or transaction
    line, a prepare line ends the pass), and leaves the query as it is when
    it has added none. *)
Theorem cursor_after_pass (q : query) (r : string) :
  reachable q ->
  (forall conn text,
      currentResultSet (NewQuery conn text) = -1
      /\ Result (NewQuery conn text) = (Ok None, NewQuery conn text))
  /\ (len (resultSets (snd (StoreResult r q))) = len (resultSets q) ->
      currentResultSet (snd (StoreResult r q)) = currentResultSet q)
  /\ (forall pre line post l1 q1,
        Split r newline = pre ++ line :: post ->
        storeLines pre locals0 q = (Ok (Continue l1), q1) ->
        getLineType line = QPREPARE ->
        currentResultSet (snd (StoreResult r q)) = currentResultSet q1 + 1
        /\ 0 <= currentResultSet q1 + 1)
  /\ (forall pre post l1 q1,
        Split r newline = pre ++ mapi_MSG_PROMPT :: post ->
        storeLines pre locals0 q = (Ok (Continue l1), q1) ->
        StoreResult r q
        = (Ok tt,
           if len (resultSets q) <? len (resultSets q1)
           then set_currentResultSet 0 q1
           else q1)).
Proof.
  intros Hreach. pose proof (reachable_cursorInRange q Hreach) as Hq.
  split; [intros conn text; split; reflexivity |].
  split; [| split].
  - destruct (StoreResult_endPass q r Hq) as (_ & _ & Hsame). exact Hsame.
  - intros pre line post l1 q1 Hsplit Hpre Hline.
    pose proof (storeLines_reaches q pre l1 q1 Hq Hpre) as [Hq1 _].
    pose proof (cursorInRange_bounds q1 Hq1) as Hb.
    split; [| lia].
    rewrite (StoreResult_at_line q r pre line post l1 q1 Hsplit Hpre).
    unfold storeLine. rewrite Hline.
    pose proof (cursorAt_storePrepare (currentResultSet q1) line q1 eq_refl)
      as Hprep.
    destruct (storePrepare line q1) as [[[l' |] | e | w |] q'];
      cbn [snd]; try exact Hprep; destruct Hprep as [Hret Hcur];
      [discriminate | exact Hcur].
  - intros pre post l1 q1 Hsplit Hpre.
    pose proof (storeLines_reaches q pre l1 q1 Hq Hpre) as [_ Hmid].
    rewrite (StoreResult_at_line q r pre _ post l1 q1 Hsplit Hpre).
    change (storeLine mapi_MSG_PROMPT l1 q1) with (storePrompt l1 q1).
    unfold storePrompt, bind.
    destruct Hmid as [(-> & Hlen & _) | (-> & Hlen & _)].
    + replace (len (resultSets q) <? len (resultSets q1)) with false
        by (symmetry; apply Z.ltb_ge; lia).
      reflexivity.
    + replace (len (resultSets q) <? len (resultSets q1)) with true
        by (symmetry; apply Z.ltb_lt; lia).
      reflexivity.
Qed.

(** *** A tuple line that does not match the schema *)

Lemma Result_current (q : query) (s : ResultSet) :
  currentIs q s ->
  Result q = (Ok (Some (Z.to_nat (currentResultSet q))), q)
  /\ load (Some (Z.to_nat (currentResultSet q))) q = (Ok s, q).
Proof.
  intros [Hcur Hs]. split.
  - unfold Result, bind, get.
    replace (currentResultSet q =? -1) with false
      by (symmetry; apply Z.eqb_neq; lia).
    assert (Hlt : (Z.to_nat (currentResultSet q)
                   < List.length (resultSets q))%nat).
    { apply nth_error_Some. congruence. }
    replace ((0 <=? currentResultSet q)
             && (currentResultSet q <? len (resultSets q))) with true;
      [reflexivity |].
    symmetry. apply andb_true_iff.
    split; [apply Z.leb_le | apply Z.ltb_lt]; unfold len; lia.
  - unfold load, bind, get. rewrite Hs. reflexivity.
Qed.

(** C4. When a pass of [StoreResult] gets to a tuple line whose interior,
    split on [",\t"], has a number of fields that differs from the number of
    columns of the schema of the current resultset, [StoreResult] returns the
    error about the length of the row, and the query is as it was before the
    line: no row has been appended to the current resultset. *)
Theorem StoreResult_tuple_mismatch
        (q : query) (r : string) (pre : list string) (line : string)
        (post : list string) (l1 : locals) (q1 : query) (s : ResultSet)
        (inner : string) :
  Split r newline = pre ++ line :: post ->
  storeLines pre locals0 q = (Ok (Continue l1), q1) ->
  getLineType line = TUPLE ->
  0 <= currentResultSet q1 ->
  nth_error (resultSets q1) (Z.to_nat (currentResultSet q1)) = Some s ->
  substr line 1 (Z.of_nat (String.length line) - 1) = Some inner ->
  List.length (Split inner tupleSeparator) <> List.length (Schema s) ->
  StoreResult r q = (Err "mapi: length of row doesn't match header", q1)
  /\ option_map Rows_
       (nth_error (resultSets (snd (StoreResult r q)))
                  (Z.to_nat (currentResultSet q1)))
     = Some (Rows_ s).
Proof.
  intros Hsplit Hpre Hline Hcur Hs Hinner Hcount.
  assert (Hrun : StoreResult r q
                 = (Err "mapi: length of row doesn't match header", q1)).
  { rewrite (StoreResult_at_line q r pre line post l1 q1 Hsplit Hpre).
    unfold storeLine. rewrite Hline. unfold storeTuple.
    destruct (Result_current q1 s (conj Hcur Hs)) as [Hres _].
    unfold bind at 1. rewrite Hres.
    unfold bind at 1. unfold parseTuple, Mapi.between.
    rewrite Hinner. unfold bind at 1, ret at 1.
    unfold bind at 1, load. unfold bind at 1, get at 1. rewrite Hs.
    unfold ret at 1. fold tupleSeparator.
    replace (len (Split inner tupleSeparator) =? len (Schema s)) with false
      by (symmetry; apply Z.eqb_neq; unfold len; lia).
    reflexivity. }
  split; [exact Hrun |].
  rewrite Hrun. cbn [snd]. rewrite Hs. reflexivity.
Qed.

End Facts.

(** *** The version without a cursor *)

Section LegacyFacts.

Context {C : Codec}.

Lemma Legacy_store_count (p : ptr) (f : ResultSet -> ResultSet) :
  keeps count (Legacy.store p f).
Proof.
  intros q. unfold Legacy.store. destruct p as [i |]; [| reflexivity].
  unfold bind, get, put. destruct (nth_error (Legacy.resultSets q) i);
    [| reflexivity].
  unfold count. cbn [snd Legacy.resultSets Legacy.set_resultSets].
  apply update_length.
Qed.

Lemma stateless_Legacy_Result : stateless Legacy.Result.
Proof. unfold Legacy.Result. repeat stateless_step. Qed.

Lemma stateless_Legacy_load (p : ptr) : stateless (Legacy.load p).
Proof. unfold Legacy.load. repeat stateless_step. Qed.

Lemma stateless_Legacy_parseTuple (p : ptr) (d : string) :
  stateless (Legacy.parseTuple p d).
Proof.
  unfold Legacy.parseTuple. repeat stateless_step;
    auto using stateless_Legacy_load, stateless_parseTuple_loop.
Qed.

Ltac keeps_count :=
  repeat first
    [ apply Legacy_store_count
    | apply keeps_stateless;
      first [ apply stateless_Legacy_Result | apply stateless_Legacy_load
            | apply stateless_Legacy_parseTuple | stateless_solve ]
    | apply keeps_bind; [| intros ?]
    | match goal with
      | |- keeps _ (if ?b then _ else _) => destruct b
      end ].

Lemma Legacy_storeLine_count (line : string) (l : locals) :
  keeps count (Legacy.storeLine line l).
Proof.
  unfold Legacy.storeLine, Legacy.storeMarker, Legacy.updateSchema.
  keeps_count.
Qed.

Lemma Legacy_StoreResult_count (r : string) : keeps count (Legacy.StoreResult r).
Proof.
  unfold Legacy.StoreResult. generalize locals0.
  induction (Split r newline) as [| line rest IH]; intros l;
    cbn [Legacy.StoreResult_loop]; [apply keeps_stateless, stateless_fail |].
  apply keeps_bind; [apply Legacy_storeLine_count | intros [l' |]].
  - apply IH.
  - apply keeps_stateless, stateless_ret.
Qed.

(** There is one resultset, and [Result()] is its address. *)
Lemma Legacy_one_resultSet (q : Legacy.query) :
  Legacy_reachable q ->
  count q = 1%nat /\ Legacy.Result q = (Ok (Some 0%nat), q).
Proof.
  intros Hreach.
  assert (Hone : count q = 1%nat).
  { induction Hreach as [conn text | q r _ IH | q _ IH];
      [reflexivity | rewrite Legacy_StoreResult_count; exact IH | exact IH]. }
  split; [exact Hone |].
  unfold Legacy.Result, bind, get, len. unfold count in Hone. rewrite Hone.
  reflexivity.
Qed.

(** C7. For every query a client can hold, in the version with a cursor ([q])
    and in the version without ([q0], where the cursor stays on the resultset
    at index 0): [HasNextResultSet()] is true iff there is a resultset at
    index cursor + 1 of the sequence; when there is, [NextResultSet()]
    returns nil and moves the cursor forward by one; when there is none, it
    returns [io.EOF] and leaves the query as it was. *)
Theorem HasNextResultSet_NextResultSet (q : query) (q0 : Legacy.query) :
  reachable q ->
  Legacy_reachable q0 ->
  ((HasNextResultSet q = true
    <-> 0 <= currentResultSet q + 1
        /\ exists s, nth_error (resultSets q)
                              (Z.to_nat (currentResultSet q + 1)) = Some s)
   /\ (HasNextResultSet q = true ->
       NextResultSet q
       = (Ok tt, set_currentResultSet (currentResultSet q + 1) q))
   /\ (HasNextResultSet q = false -> NextResultSet q = (Err "EOF", q)))
  /\ (Legacy.Result q0 = (Ok (Some 0%nat), q0)
      /\ (Legacy.HasNextResultSet q0 = true
          <-> exists s, nth_error (Legacy.resultSets q0) 1 = Some s)
      /\ Legacy.NextResultSet q0 = (Err "EOF", q0)).
Proof.
  intros Hreach Hreach0. split; [apply HasNextResultSet_cursor, Hreach |].
  destruct (Legacy_one_resultSet q0 Hreach0) as [Hone Hres].
  split; [exact Hres |]. split; [| reflexivity].
  unfold Legacy.HasNextResultSet. split; [discriminate |].
  intros [s Hs]. unfold count in Hone.
  assert (Hlt : (1 < List.length (Legacy.resultSets q0))%nat)
    by (apply nth_error_Some; congruence).
  lia.
Qed.

End LegacyFacts.

(** *** The parser at work *)

Example tupleLine_text :
  tupleLine ["1"; "a"] = ("[ 1," ++ tab ++ "a" ++ tab ++ "]")%string.
Proof. reflexivity. Qed.

Example StoreResult_three_rows :
  let q := snd (StoreResult (C := sampleCodec)
                  (response (oneTable ++ [tupleLine ["1"; "a"];
                                          tupleLine ["2"; "b"];
                                          tupleLine ["3"; "c"]]))
                  (NewQuery None "select * from t")) in
  currentResultSet q = 0
  /\ map (fun s => (map ColumnName (Schema s), List.length (Rows_ s)))
         (resultSets q)
     = [(["id"; "name"], 3%nat)].
Proof. vm_compute. auto. Qed.

Lemma StoreResult_tuple_mismatch_witness :
  let r := response (oneTable ++ [tupleLine ["1"; "a"]; tupleLine ["2"];
                                  tupleLine ["3"; "c"]]) in
  let q := NewQuery (C := sampleCodec) None "select * from t" in
  fst (StoreResult r q) = Err "mapi: length of row doesn't match header"
  /\ map (fun s => Rows_ s) (resultSets (snd (StoreResult r q)))
     = [[[" 1"; ("a" ++ tab)%string]]].
Proof.
  intros r q.
  edestruct (StoreResult_tuple_mismatch (C := sampleCodec) q r
               (oneTable ++ [tupleLine ["1"; "a"]]) (tupleLine ["2"])
               [tupleLine ["3"; "c"]; ""])
    as [Hrun _];
    [ reflexivity | vm_compute; reflexivity | reflexivity
    | vm_compute; discriminate | reflexivity | reflexivity
    | vm_compute; lia | ].
  rewrite Hrun. split; reflexivity.
Defined.

Lemma cursor_bounds_witness :
  let q := snd (StoreResult (C := sampleCodec) twoTables (NewQuery None "")) in
  reachable q
  /\ -1 <= currentResultSet q < len (resultSets q)
  /\ Result q = (Ok (Some 0%nat), q).
Proof.
  intros q.
  assert (Hreach : reachable q) by (apply reach_StoreResult, reach_NewQuery).
  split; [exact Hreach |].
  destruct (cursor_bounds q Hreach) as (Hb & _ & _).
  split; [exact Hb | reflexivity].
Defined.

Lemma HasNextResultSet_NextResultSet_witness :
  let q := snd (StoreResult (C := sampleCodec) twoTables (NewQuery None "")) in
  reachable q
  /\ HasNextResultSet q = true
  /\ NextResultSet q = (Ok tt, set_currentResultSet 1 q)
  /\ HasNextResultSet (snd (NextResultSet q)) = false.
Proof.
  intros q.
  assert (Hreach : reachable q) by (apply reach_StoreResult, reach_NewQuery).
  split; [exact Hreach |].
  destruct (HasNextResultSet_NextResultSet q (Legacy.NewQuery None "") Hreach
              (legacy_NewQuery None ""))
    as [(_ & Hmove & _) _].
  split; [reflexivity |]. split; [apply Hmove; reflexivity | reflexivity].
Defined.

(** C8 as stated fails at a prepare response: the response has no prompt
    line, and after the pass over it the cursor of the new query is 0. *)
Lemma cursor_set_without_prompt :
  let r := "&5 12 2 3 2" in
  let q := snd (StoreResult (C := sampleCodec) r
                  (NewQuery None "PREPARE select 1")) in
  ~ In mapi_MSG_PROMPT (Split r newline)
  /\ Forall (fun line => getLineType line <> PROMT) (Split r newline)
  /\ currentResultSet q = 0
  /\ currentResultSet q <> -1.
Proof.
  cbn zeta. split; [| split; [| split]].
  - cbn. intros [Heq | []]. discriminate.
  - repeat constructor. discriminate.
  - reflexivity.
  - vm_compute. discriminate.
Qed.

Lemma cursor_after_pass_witness :
  let q := NewQuery (C := sampleCodec) None "" in
  reachable q
  /\ StoreResult twoTables q
     = (Ok tt, set_currentResultSet 0
                 (snd (storeLines (Split twoTables newline) locals0 q)))
  /\ currentResultSet (snd (StoreResult (response ["# no result"]) q)) = -1.
Proof.
  intros q.
  assert (Hreach : reachable q) by apply reach_NewQuery.
  split; [exact Hreach |].
  destruct (cursor_after_pass q twoTables Hreach) as (_ & _ & _ & Hprompt).
  split.
  - erewrite (Hprompt (removelast (Split twoTables newline)) []);
      [| reflexivity | vm_compute; reflexivity].
    reflexivity.
  - destruct (cursor_after_pass q (response ["# no result"]) Hreach)
      as (_ & Hsame & _).
    apply Hsame. reflexivity.
Defined.

End ParserFacts.

(** ** Row cursor and pagination *)

Module CursorFacts.

Import ParserSpec.
Import ParserFacts.
Import CursorSpec.

(** *** What a command writes on the connection *)

Lemma getBytes_loop_outbound (fuel : nat) :
  forall (count read : Z) (r : list byte),
    keeps outbound (Transport.getBytes_loop fuel count read r).
Proof.
  induction fuel as [| f IH]; intros count read r c;
    cbn [Transport.getBytes_loop]; destruct (read <? count); try reflexivity.
  unfold bind, Transport.Read.
  destruct (Transport.readSegments (inbound c) (Z.to_nat count))
    as [[data rest] |]; [| reflexivity].
  rewrite IH. reflexivity.
Qed.

Lemma getBytes_outbound (count : Z) : keeps outbound (Transport.getBytes count).
Proof. apply getBytes_loop_outbound. Qed.

Lemma getBlock_loop_outbound (fuel : nat) :
  forall (r : list byte) (last : Z),
    keeps outbound (Transport.getBlock_loop fuel r last).
Proof.
  induction fuel as [| f IH]; intros r last;
    cbn [Transport.getBlock_loop]; destruct (last =? 1);
    try (intros c; reflexivity).
  apply keeps_bind; [apply getBytes_outbound | intros flag].
  apply keeps_bind.
  - apply keeps_stateless. unfold Transport.readUint16LE.
    destruct flag as [| lo [| hi rest]];
      first [apply stateless_fail | apply stateless_ret].
  - intros unpacked. apply keeps_bind; [apply getBytes_outbound | intros d].
    apply IH.
Qed.

Lemma getBlock_outbound : keeps outbound Transport.getBlock.
Proof. intros c. apply getBlock_loop_outbound. Qed.

Lemma Mapi_getBlock_written : keeps written Mapi.getBlock.
Proof.
  intros c. unfold Mapi.getBlock, Mapi.onConn, written.
  destruct (conn c) as [t |] eqn:Hc; [| cbn [snd]; rewrite Hc; reflexivity].
  pose proof (getBlock_outbound t) as Hout.
  destruct (Transport.getBlock t) as [r t']. cbn in *. congruence.
Qed.

Lemma Mapi_getBlock_State (c : MapiConn) :
  State (snd (Mapi.getBlock c)) = State c.
Proof. apply HandshakeFacts.onConn_State. Qed.

Lemma Mapi_putBlock (b : list byte) (c : MapiConn) (t : TCPConn) :
  conn c = Some t ->
  Mapi.putBlock b c
  = (Ok tt,
     set_conn (Some (mkTCPConn (inbound t)
                               (outbound t ++ TransportSpec.sent b))) c).
Proof.
  intros Hc. unfold Mapi.putBlock, Mapi.onConn. rewrite Hc.
  rewrite TransportFacts.putBlock_frames, TransportFacts.sent_frames.
  reflexivity.
Qed.

(** A command on a ready connection writes its block, and one empty block
    for every request for more. *)
Lemma cmd_written (fuel : nat) :
  forall (operation : string) (c : MapiConn) (t : TCPConn),
    conn c = Some t ->
    State c = mapi_STATE_READY ->
    exists k : nat,
      written (snd (Mapi.cmd (S fuel) operation c))
      = Some (outbound t
              ++ TransportSpec.sent (list_ascii_of_string operation)
              ++ empties k).
Proof.
  induction fuel as [| f IH]; intros operation c t Hc Hready.
  - cbn [Mapi.cmd]. unfold bind at 1, get at 1.
    rewrite Hready. change (negb (mapi_STATE_READY =? mapi_STATE_READY))
      with false. cbv iota.
    unfold bind at 1. rewrite (Mapi_putBlock _ c t Hc).
    set (c1 := set_conn _ c).
    exists 0%nat. cbn [empties repeat List.concat]. rewrite app_nil_r.
    rewrite keeps_after with (part := written).
    + rewrite Mapi_getBlock_written. reflexivity.
    + intros r.
      repeat first
        [ apply keeps_stateless; solve [repeat first
            [ apply stateless_ret | apply stateless_fail
            | apply stateless_from | apply stateless_bind; [| intros ?] ]]
        | match goal with
          | |- keeps _ (if ?b then _ else _) => destruct b
          end
        | apply keeps_bind; [| intros ?] ].
      intros s. reflexivity.
  - remember (S f) as f1 eqn:Hf1. cbn [Mapi.cmd]. subst f1.
    unfold bind at 1, get at 1.
    rewrite Hready. change (negb (mapi_STATE_READY =? mapi_STATE_READY))
      with false. cbv iota.
    unfold bind at 1. rewrite (Mapi_putBlock _ c t Hc).
    set (c1 := set_conn _ c).
    pose proof (Mapi_getBlock_written c1) as Hw.
    pose proof (Mapi_getBlock_State c1) as Hs.
    unfold bind at 1.
    destruct (Mapi.getBlock c1) as [[r | e | w |] c2]; cbn [snd] in *;
      try (exists 0%nat; cbn [empties repeat List.concat];
           rewrite app_nil_r; exact Hw).
    assert (Hdone : forall (A : Type) (m : M MapiConn A),
               stateless m ->
               exists k : nat,
                 written (snd (m c2))
                 = Some (outbound t
                         ++ TransportSpec.sent (list_ascii_of_string operation)
                         ++ empties k)).
    { intros A m Hm. exists 0%nat. rewrite Hm.
      cbn [empties repeat List.concat]. rewrite app_nil_r. exact Hw. }
    destruct (Z.of_nat (String.length (string_of_list_ascii r)) =? 0);
      [apply Hdone, stateless_ret |].
    destruct (HasPrefix (string_of_list_ascii r) mapi_MSG_OK).
    { apply Hdone. apply stateless_bind; [apply stateless_from |].
      intros ?. apply stateless_ret. }
    destruct (string_of_list_ascii r =? mapi_MSG_MORE)%string.
    { unfold written in Hw. cbn [conn set_conn c1 option_map] in Hw.
      destruct (conn c2) as [t2 |] eqn:Hc2; [| discriminate].
      cbn [option_map] in Hw. injection Hw as Hw.
      destruct (IH "" c2 t2 Hc2) as [k Hk]; [rewrite Hs; exact Hready |].
      exists (S k). rewrite Hk, Hw.
      cbn [empties repeat List.concat]. fold (empties k).
      rewrite <- !app_assoc. reflexivity. }
    destruct (HasPrefix (string_of_list_ascii r) mapi_MSG_Q
              || HasPrefix (string_of_list_ascii r) mapi_MSG_HEADER
              || HasPrefix (string_of_list_ascii r) mapi_MSG_TUPLE);
      [apply Hdone, stateless_ret |].
    destruct (HasPrefix (string_of_list_ascii r) mapi_MSG_ERROR).
    { apply Hdone. apply stateless_bind; [apply stateless_from |].
      intros ?. apply stateless_fail. }
    apply Hdone, stateless_fail.
Qed.

Section Window.

Context {C : Codec}.

(** *** The parser leaves the connection of the query alone *)

Lemma store_mapi (p : ptr) (f : ResultSet -> ResultSet) :
  keeps mapi (store p f).
Proof.
  intros q. unfold store. destruct p as [i |]; [| reflexivity].
  unfold bind, get, put. destruct (nth_error (resultSets q) i); reflexivity.
Qed.

Lemma newResultSet_mapi : keeps mapi (newResultSet (C := C)).
Proof. intros q. reflexivity. Qed.

Ltac keeps_mapi :=
  repeat first
    [ apply store_mapi
    | apply newResultSet_mapi
    | apply keeps_modify; intros ?; reflexivity
    | apply keeps_stateless; stateless_solve
    | apply keeps_bind; [| intros ?]
    | match goal with
      | |- keeps _ (if ?b then _ else _) => destruct b
      end ].

Lemma storeLine_mapi (line : string) (l : locals) : keeps mapi (storeLine line l).
Proof.
  unfold storeLine. destruct (getLineType line);
    unfold storePrepare, storeTable, storeTuple, storeBlock, storeMarker,
           storeUpdate, storeHeader, storePrompt, updateSchema;
    keeps_mapi.
Qed.

Lemma StoreResult_mapi (r : string) : keeps mapi (StoreResult r).
Proof.
  unfold StoreResult. generalize locals0.
  induction (Split r newline) as [| line rest IH]; intros l;
    cbn [StoreResult_loop]; [apply keeps_stateless, stateless_fail |].
  apply keeps_bind; [apply storeLine_mapi | intros [l' |]].
  - apply IH.
  - apply keeps_stateless, stateless_ret.
Qed.

(** *** What a fetch writes *)

Lemma onQuery_wire {A} (m : M query A) :
  keeps mapi m -> keeps wire (onQuery m).
Proof.
  intros Hm r. unfold onQuery, wire. specialize (Hm (query_ r)).
  destruct (m (query_ r)) as [a q']. cbn [snd query_ set_query] in *.
  rewrite Hm. reflexivity.
Qed.

Lemma set_query_same (r : Rows) : set_query (query_ r) r = r.
Proof. destruct r. reflexivity. Qed.

Lemma onQuery_current (r : Rows) (s : ResultSet) :
  currentIs (query_ r) s ->
  onQuery Result r = (Ok (Some (Z.to_nat (currentResultSet (query_ r)))), r)
  /\ onQuery (load (Some (Z.to_nat (currentResultSet (query_ r))))) r
     = (Ok s, r).
Proof.
  intros Hs. destruct (Result_current _ _ Hs) as [Hres Hload].
  unfold onQuery. rewrite Hres, Hload, set_query_same. auto.
Qed.

Ltac keeps_wire :=
  repeat first
    [ apply onQuery_wire;
      first [ apply StoreResult_mapi
            | apply keeps_stateless; stateless_solve ]
    | apply keeps_discard
    | apply keeps_modify; intros ?; reflexivity
    | apply keeps_stateless; stateless_solve
    | apply keeps_bind; [| intros ?]
    | match goal with
      | |- keeps _ (match ?x with _ => _ end) => destruct x
      end ].

(** [fetchNext], called where there are rows left to fetch on a ready
    connection, writes the export command for the rows from the end of the
    buffered window on: no more than the array size, and no further than
    the row the cursor is at plus the array size allows. *)
Lemma fetchNext_written (r : Rows) (s : ResultSet) (c : MapiConn)
      (t : TCPConn) :
  currentIs (query_ r) s ->
  mapi (query_ r) = Some c ->
  conn c = Some t ->
  State c = mapi_STATE_READY ->
  rowNum r < RowCount (Metadata_ s) ->
  let off := offset r + len (rows r) in
  let amount :=
    min (RowCount (Metadata_ s)) (rowNum r + MAPI_ARRAY_SIZE) - off in
  exists k : nat,
    wire (snd (fetchNext r))
    = Some (outbound t
            ++ TransportSpec.sent
                 (list_ascii_of_string
                    (fetchCommand (QueryId (Metadata_ s)) off amount))
            ++ empties k).
Proof.
  intros Hs Hmapi Hconn Hready Hleft off amount.
  destruct (onQuery_current r s Hs) as [Hres Hload].
  set (r1 := set_offset off r).
  assert (Hs1 : currentIs (query_ r1) s) by exact Hs.
  destruct (onQuery_current r1 s Hs1) as [Hres1 Hload1].
  destruct (cmd_written (Transport.pending t)
              (fetchCommand (QueryId (Metadata_ s)) off amount) c t
              Hconn Hready) as [k Hk].
  exists k. rewrite <- Hk. clear Hk.
  unfold fetchNext.
  unfold bind at 1, get at 1. unfold bind at 1. rewrite Hres.
  unfold bind at 1. rewrite Hload.
  replace (rowNum r >=? RowCount (Metadata_ s)) with false
    by (symmetry; rewrite Z.geb_leb; apply Z.leb_gt; lia).
  unfold bind at 1, modify at 1. fold off. fold r1.
  unfold bind at 1, get at 1. unfold bind at 1. rewrite Hres1.
  unfold bind at 1. rewrite Hload1.
  rewrite keeps_after with (part := wire); [| intros res; keeps_wire].
  unfold mapiDo, bind at 1, get at 1.
  unfold onQuery, FetchNext. unfold bind at 1, get at 1.
  destruct Hs as [Hcur Hnth].
  assert (Hidx : forall q' : query,
             Mapi.index (resultSets (query_ r1))
                        (currentResultSet (query_ r1)) q'
             = (Ok s, q')).
  { intros q'. unfold Mapi.index, ret.
    replace (currentResultSet (query_ r1) <? 0) with false
      by (symmetry; apply Z.ltb_ge; exact Hcur).
    cbn [query_ r1 set_offset]. rewrite Hnth. reflexivity. }
  unfold bind at 1. rewrite Hidx.
  unfold onMapi. cbn [query_ r1 set_offset]. rewrite Hmapi.
  unfold Mapi.fetchNext. rewrite Hconn.
  unfold fetchCommand. subst r1. cbn [offset set_offset]. subst amount off.
  destruct (Mapi.cmd (S (Transport.pending t)) _ c) as [res c'].
  unfold wire. reflexivity.
Qed.

(** *** The buffered window *)

Lemma triple_onQuery {A} (P E : Rows -> Prop) (m : M query A) :
  (forall r q, P r -> P (set_query q r)) ->
  (forall r, P r -> E r) ->
  triple P (onQuery m) (fun _ => P) E.
Proof.
  intros Hframe HE r Hr. unfold onQuery.
  destruct (m (query_ r)) as [[a | e | w |] q']; auto.
Qed.

Lemma at_frame (R O : Z) (V : list (list DriverValue)) (r : Rows) (q : query) :
  at_ R O V r -> at_ R O V (set_query q r).
Proof. auto. Qed.

Lemma moved_frame (R O : Z) (r : Rows) (q : query) :
  moved R O r -> moved R O (set_query q r).
Proof. auto. Qed.

(** [fetchNext] leaves the row number alone; it moves the offset to the end
    of the buffered window, unless it returns before. *)
Lemma fetchNext_moves (R O : Z) (V : list (list DriverValue)) :
  triple (at_ R O V) fetchNext
         (fun _ => moved R (O + len V))
         (fun r => at_ R O V r \/ moved R (O + len V) r).
Proof.
  unfold fetchNext.
  eapply triple_bind; [apply triple_get with (Q := fun _ => at_ R O V); auto |].
  intros r0.
  eapply triple_bind; [apply triple_onQuery; auto using at_frame |]. intros p.
  eapply triple_bind; [apply triple_onQuery; auto using at_frame |]. intros s.
  destruct (rowNum r0 >=? RowCount (Metadata_ s));
    [apply triple_fail; auto |].
  eapply triple_bind with (Q' := fun _ => moved R (O + len V)).
  { apply triple_modify. intros r (HR & HO & HV). unfold moved.
    cbn [rowNum offset set_offset]. subst. auto. }
  intros _.
  eapply triple_weaken with (P' := moved R (O + len V))
                            (Q' := fun _ => moved R (O + len V))
                            (E' := moved R (O + len V)); auto.
  eapply triple_bind;
    [apply triple_get with (Q := fun _ => moved R (O + len V)); auto |].
  intros r1.
  eapply triple_bind; [apply triple_onQuery; auto using moved_frame |].
  intros p1.
  eapply triple_bind; [apply triple_onQuery; auto using moved_frame |].
  intros s1.
  eapply triple_bind.
  { unfold mapiDo. eapply triple_bind;
      [apply triple_get with (Q := fun _ => moved R (O + len V)); auto |].
    intros r2. apply triple_onQuery; auto using moved_frame. }
  intros res.
  eapply triple_bind with (Q' := fun _ => moved R (O + len V)).
  { unfold discard.
    eapply triple_bind with (Q' := fun _ => moved R (O + len V)).
    - intros r Hr. unfold attempt, onQuery.
      destruct (StoreResult res (query_ r)) as [[a | e | w |] q'];
        apply (moved_frame R (O + len V) r q' Hr).
    - intros _. apply triple_ret. auto. }
  intros _.
  eapply triple_bind; [apply triple_onQuery; auto using moved_frame |].
  intros p2.
  eapply triple_bind; [apply triple_onQuery; auto using moved_frame |].
  intros s2.
  eapply triple_bind; [apply triple_onQuery; auto using moved_frame |].
  intros p3.
  eapply triple_bind; [apply triple_onQuery; auto using moved_frame |].
  intros s3.
  destruct (convertRows (Rows_ s2) (ColumnCount (Metadata_ s3))) as [v |];
    [| apply triple_panic; auto].
  eapply triple_bind with (Q' := fun _ => moved R (O + len V));
    [apply triple_modify; auto |].
  intros _.
  eapply triple_bind; [apply triple_onQuery; auto using moved_frame |].
  intros p4.
  eapply triple_bind; [apply triple_onQuery; auto using moved_frame |].
  intros s4. apply triple_modify. auto.
Qed.

Lemma triple_index_bound {S A} (P E : S -> Prop) (a : list A) (i : Z) :
  (forall s, P s -> E s) ->
  triple P (Mapi.index a i) (fun _ s => P s /\ 0 <= i < len a) E.
Proof.
  intros HE s Hs. unfold Mapi.index.
  destruct (i <? 0) eqn:Hneg; [apply HE, Hs |].
  apply Z.ltb_ge in Hneg.
  destruct (nth_error a (Z.to_nat i)) eqn:Hnth; [| apply HE, Hs].
  split; [exact Hs |].
  assert (Hlt : (Z.to_nat i < List.length a)%nat)
    by (apply nth_error_Some; congruence).
  unfold len. lia.
Qed.

Lemma stateless_copyRow {S} (row : list DriverValue) :
  forall dest : list DriverValue, stateless (S := S) (copyRow row dest).
Proof.
  induction row as [| v row IH]; intros [| d dest]; cbn [copyRow];
    try apply stateless_ret; try apply stateless_panic.
  apply stateless_bind; [apply IH | intros ?; apply stateless_ret].
Qed.

(** [Next] keeps the row the cursor is at in or right after the window. *)
Lemma Next_window (dest : list DriverValue) (r : Rows) :
  windowOk r -> windowOk (snd (Next dest r)).
Proof.
  intros Hw.
  set (R := rowNum r). set (O := offset r). set (V := rows r).
  assert (HO : O <= R <= O + len V) by exact Hw.
  assert (Hat : forall r', at_ R O V r' -> windowOk r').
  { intros r' (HR' & HO' & HV'). unfold windowOk. rewrite HR', HO', HV'.
    exact HO. }
  assert (Hrun : triple (at_ R O V) (Next dest) (fun _ => windowOk) windowOk).
  { unfold Next.
    eapply triple_bind;
      [apply triple_get with (Q := fun v s => at_ R O V s /\ at_ R O V v);
       auto |].
    intros r0.
    eapply triple_weaken with (P' := fun s => at_ R O V r0 /\ at_ R O V s)
                              (Q' := fun _ => windowOk) (E' := windowOk);
      [| tauto | auto | auto].
    intros s0 [Hr0 Hs0]. revert s0 Hs0.
    change (triple (at_ R O V)
              (if negb (active r0) then fail "monetdb: rows closed"
               else
                 p <- onQuery Result ;; s <- onQuery (load p) ;;
                 if QueryId (Metadata_ s) =? -1
                 then fail "monetdb: query didn't result in a resultset"
                 else
                   p <- onQuery Result ;; s <- onQuery (load p) ;;
                   if rowNum r0 >=? RowCount (Metadata_ s) then fail "EOF"
                   else
                     (if rowNum r0 >=? offset r0 + len (rows r0)
                      then fetchNext else ret tt) ;;;
                     r <- get ;;
                     row <- Mapi.index (rows r) (rowNum r - offset r) ;;
                     dest' <- copyRow row dest ;;
                     modify (fun r => set_rowNum (rowNum r + 1) r) ;;;
                     ret dest')
              (fun _ => windowOk) windowOk).
    destruct Hr0 as (HR0 & HO0 & HV0).
    destruct (negb (active r0)); [apply triple_fail; auto |].
    eapply triple_bind; [apply triple_onQuery; auto using at_frame |].
    intros p.
    eapply triple_bind; [apply triple_onQuery; auto using at_frame |].
    intros s.
    destruct (QueryId (Metadata_ s) =? -1); [apply triple_fail; auto |].
    eapply triple_bind; [apply triple_onQuery; auto using at_frame |].
    intros p'.
    eapply triple_bind; [apply triple_onQuery; auto using at_frame |].
    intros s'.
    destruct (rowNum r0 >=? RowCount (Metadata_ s'));
      [apply triple_fail; auto |].
    eapply triple_bind with (Q' := fun _ => windowOk).
    { rewrite HR0, HO0, HV0.
      destruct (R >=? O + len V) eqn:Hfetch.
      - rewrite Z.geb_leb in Hfetch. apply Z.leb_le in Hfetch.
        eapply triple_weaken; [apply (fetchNext_moves R O V) | auto | |].
        + intros _ r' [HR' HO']. unfold windowOk. rewrite HR', HO'.
          pose proof (len_nonneg (rows r')). lia.
        + intros r' [Hr' | [HR' HO']]; [auto |].
          unfold windowOk. rewrite HR', HO'.
          pose proof (len_nonneg (rows r')). lia.
      - apply triple_ret. auto. }
    intros _.
    eapply triple_bind;
      [apply triple_get with (Q := fun v s => windowOk s /\ v = s); auto |].
    intros r1.
    eapply triple_bind.
    { apply triple_index_bound with (E := windowOk). tauto. }
    intros row.
    eapply triple_bind.
    { apply triple_stateless with (E := windowOk);
        [apply stateless_copyRow | tauto]. }
    intros dest'.
    eapply triple_bind with (Q' := fun _ => windowOk).
    { apply triple_modify. intros r' [[Hw' ->] Hidx]. unfold windowOk in *.
      cbn [rowNum offset rows set_rowNum]. lia. }
    intros _. apply triple_ret. auto. }
  specialize (Hrun r (conj eq_refl (conj eq_refl eq_refl))).
  destruct (Next dest r) as [[a | e | w |] r']; exact Hrun.
Qed.

Lemma reachableRows_window (r : Rows) : reachableRows r -> windowOk r.
Proof.
  induction 1 as [q v sch | r dest _ IH | r _ IH | r _ IH].
  - unfold windowOk. cbn. pose proof (len_nonneg v). lia.
  - apply Next_window, IH.
  - exact IH.
  - unfold onQuery. destruct (NextResultSet (query_ r)). exact IH.
Qed.

(** *** The fetch a call of [Next] makes *)

Lemma Next_wire (dest : list DriverValue) (r : Rows) (s : ResultSet) :
  active r = true ->
  currentIs (query_ r) s ->
  QueryId (Metadata_ s) <> -1 ->
  rowNum r < RowCount (Metadata_ s) ->
  wire (snd (Next dest r))
  = wire (snd ((if rowNum r >=? offset r + len (rows r)
                then fetchNext else ret tt) r)).
Proof.
  intros Hactive Hs Hid Hleft.
  destruct (onQuery_current r s Hs) as [Hres Hload].
  unfold Next. unfold bind at 1, get at 1. rewrite Hactive. cbn [negb].
  unfold bind at 1. rewrite Hres. unfold bind at 1. rewrite Hload.
  replace (QueryId (Metadata_ s) =? -1) with false
    by (symmetry; apply Z.eqb_neq; exact Hid).
  unfold bind at 1. rewrite Hres. unfold bind at 1. rewrite Hload.
  replace (rowNum r >=? RowCount (Metadata_ s)) with false
    by (symmetry; rewrite Z.geb_leb; apply Z.leb_gt; lia).
  apply keeps_after. intros _.
  apply keeps_bind; [apply keeps_stateless, stateless_get | intros r1].
  apply keeps_bind; [apply keeps_stateless, stateless_index | intros row].
  apply keeps_bind; [apply keeps_stateless, stateless_copyRow | intros d].
  apply keeps_bind; [apply keeps_modify; intros ?; reflexivity | intros _].
  apply keeps_stateless, stateless_ret.
Qed.

Lemma min_window (rowCount off : Z) :
  min rowCount (off + MAPI_ARRAY_SIZE) - off
  = Z.min MAPI_ARRAY_SIZE (rowCount - off).
Proof.
  unfold min. destruct (rowCount <? off + MAPI_ARRAY_SIZE) eqn:Hlt;
    [apply Z.ltb_lt in Hlt | apply Z.ltb_ge in Hlt]; lia.
Qed.

(** A call of [Next] on a cursor a client can hold, open, on a ready
    connection, at a row below the row count of its resultset.  When the row
    is in the buffered window nothing is written.  When it is not, the row is
    the one right after the window, and what is written is one command,
    [Xexport <query_id> <offset> <amount>], where the offset is the end of the
    window and the amount is the smaller of the array size, 100, and the
    number of rows from the offset to the row count (and, after it, an empty
    block for every request of the server for more input). *)
Lemma Next_fetch (r : Rows) (dest : list DriverValue) (s : ResultSet)
      (c : MapiConn) (t : TCPConn) :
  reachableRows r ->
  active r = true ->
  currentIs (query_ r) s ->
  QueryId (Metadata_ s) <> -1 ->
  mapi (query_ r) = Some c ->
  conn c = Some t ->
  State c = mapi_STATE_READY ->
  rowNum r < RowCount (Metadata_ s) ->
  let off := offset r + len (rows r) in
  (rowNum r < off -> wire (snd (Next dest r)) = Some (outbound t))
  /\ (off <= rowNum r ->
      rowNum r = off
      /\ exists k : nat,
          wire (snd (Next dest r))
          = Some (outbound t
                  ++ TransportSpec.sent
                       (list_ascii_of_string
                          (fetchCommand
                             (QueryId (Metadata_ s)) off
                             (Z.min MAPI_ARRAY_SIZE
                                    (RowCount (Metadata_ s) - off))))
                  ++ empties k)).
Proof.
  intros Hreach Hactive Hs Hid Hmapi Hconn Hready Hleft off.
  pose proof (reachableRows_window r Hreach) as Hw.
  rewrite (Next_wire dest r s Hactive Hs Hid Hleft). fold off.
  split.
  - intros Hin.
    replace (rowNum r >=? off) with false
      by (symmetry; rewrite Z.geb_leb; apply Z.leb_gt; lia).
    unfold wire, written. cbn [snd ret]. rewrite Hmapi, Hconn. reflexivity.
  - intros Hout.
    assert (Hend : rowNum r = off) by (unfold windowOk in Hw; lia).
    split; [exact Hend |].
    replace (rowNum r >=? off) with true
      by (symmetry; rewrite Z.geb_leb; apply Z.leb_le; lia).
    destruct (fetchNext_written r s c t Hs Hmapi Hconn Hready Hleft)
      as [k Hk].
    exists k. rewrite Hk. fold off. rewrite Hend, min_window. reflexivity.
Qed.

End Window.

(** *** The cursor at work: 250 rows in windows of 100 *)

Lemma nexts_reachable (n : nat) :
  forall r, reachableRows r -> reachableRows (snd (nexts n r)).
Proof.
  induction n as [| n IH]; intros r Hr; [exact Hr |].
  cbn [nexts]. pose proof (rows_Next r ([""] : list string) Hr) as Hnext.
  destruct (Next (C := sampleCodec) ([""] : list string) r) as [o r'].
  specialize (IH r' Hnext). destruct (nexts n r') as [os r'']. exact IH.
Qed.

(** C3.  In general, for any codec: a call of [Next] that has to fetch asks
    for the rows from the end of the buffered window on, and for
    [min(100, row_count - offset)] of them; a call for a buffered row writes
    nothing.  In the case at hand, a resultset of 250 rows with the rows 0
    to 99 buffered: the first hundred calls of [Next] write nothing, the
    calls up to the one that returns row 150 write one command,
    [Xexport 7 100 100], and nothing else. *)
Theorem Next_fetch_window :
  (forall (C : Codec) (r : Rows) (dest : list DriverValue) (s : ResultSet)
          (c : MapiConn) (t : TCPConn),
      reachableRows r ->
      active r = true ->
      currentIs (query_ r) s ->
      QueryId (Metadata_ s) <> -1 ->
      mapi (query_ r) = Some c ->
      conn c = Some t ->
      State c = mapi_STATE_READY ->
      rowNum r < RowCount (Metadata_ s) ->
      let off := offset r + len (rows r) in
      (rowNum r < off -> wire (snd (Next dest r)) = Some (outbound t))
      /\ (off <= rowNum r ->
          rowNum r = off
          /\ exists k : nat,
              wire (snd (Next dest r))
              = Some (outbound t
                      ++ TransportSpec.sent
                           (list_ascii_of_string
                              (fetchCommand
                                 (QueryId (Metadata_ s)) off
                                 (Z.min 100 (RowCount (Metadata_ s) - off))))
                      ++ empties k)))
  /\ (map (fun s => (RowCount (Metadata_ s), List.length (Rows_ s)))
          (resultSets windowQuery) = [(250, 100%nat)]
      /\ (offset windowRows, List.length (rows windowRows)) = (0, 100%nat)
      /\ wire (snd (nexts 100 windowRows)) = Some []
      /\ last (fst (nexts 151 windowRows)) Timeout
         = Ok [(" 150" ++ tab)%string]
      /\ wire (snd (nexts 151 windowRows))
         = Some (TransportSpec.sent
                   (list_ascii_of_string "Xexport 7 100 100"))).
Proof.
  split.
  - intros C r dest s c t. apply Next_fetch.
  - vm_compute. repeat split.
Qed.

Lemma Next_fetch_window_witness :
  let r := snd (nexts 100 windowRows) in
  reachableRows r
  /\ (rowNum r, offset r, List.length (rows r)) = (100, 0, 100%nat)
  /\ exists k : nat,
      wire (snd (Next (C := sampleCodec) ([""] : list string) r))
      = Some (TransportSpec.sent (list_ascii_of_string "Xexport 7 100 100")
              ++ empties k).
Proof.
  intros r.
  assert (Hreach : reachableRows r) by (apply nexts_reachable, rows_open).
  split; [exact Hreach |]. split; [vm_compute; reflexivity |].
  destruct (proj1 Next_fetch_window sampleCodec r ([""] : list string)
              (hd emptyResultSet (resultSets (query_ r))) readyConn
              (mkTCPConn
                 (TransportSpec.sent (list_ascii_of_string secondWindow)) [])
              Hreach)
    as [_ Hfetch];
    [ vm_compute; reflexivity
    | split; [vm_compute; discriminate | vm_compute; reflexivity]
    | vm_compute; discriminate | vm_compute; reflexivity | reflexivity
    | reflexivity | vm_compute; reflexivity | ].
  destruct Hfetch as [_ [k Hk]]; [vm_compute; discriminate |].
  exists k. rewrite Hk. vm_compute. reflexivity.
Defined.

End CursorFacts.

(** ** More about the framing: sequences of messages, short reads, cut
    streams and the size of what is written *)

Module FramingFacts.

Import Transport.
Import TransportSpec.
Import TransportFacts.

(** Arithmetic on the lengths of byte strings. *)
Ltac bytes := unfold len, byte in *; lia.

(** *** One round of the loop of [getBytes] *)

Lemma getBytes_loop_round (fuel : nat) (count read : Z) (r : list byte)
      (c : TCPConn) :
  read < count ->
  getBytes_loop (S fuel) count read r c
  = match Read count c with
    | (Ok data, c') =>
        getBytes_loop fuel count (read + len data)
                      (firstn (Z.to_nat read) r
                       ++ copy (skipn (Z.to_nat read) r) data) c'
    | (Err e, c') => (Err e, c')
    | (Panic w, c') => (Panic w, c')
    | (Timeout, c') => (Timeout, c')
    end.
Proof.
  intros Hlt. cbn [getBytes_loop].
  replace (read <? count) with true by (symmetry; apply Z.ltb_lt; lia).
  unfold bind. destruct (Read count c) as [[data | e | w |] c']; reflexivity.
Qed.

Lemma getBytes_loop_done (fuel : nat) (count read : Z) (r : list byte)
      (c : TCPConn) :
  count <= read -> getBytes_loop fuel count read r c = (Ok r, c).
Proof.
  intros Hle.
  destruct fuel; cbn [getBytes_loop];
    replace (read <? count) with false by (symmetry; apply Z.ltb_ge; lia);
    reflexivity.
Qed.

Lemma copy_into (dst src : list byte) :
  (List.length src <= List.length dst)%nat ->
  copy dst src = src ++ skipn (List.length src) dst.
Proof. intros Hle. unfold copy. rewrite firstn_all2 by lia. reflexivity. Qed.

Lemma copy_over (dst src : list byte) :
  (List.length dst <= List.length src)%nat ->
  copy dst src = firstn (List.length dst) src.
Proof.
  intros Hle. unfold copy. rewrite skipn_all2 by lia. apply app_nil_r.
Qed.

(** X1.  A short read followed by a long one: when the first [Read] of
    [getBytes(count)] returns fewer bytes than asked for, the next [Read] is
    made with the whole buffer again; of the [count] bytes it returns only
    the first [count - len a] are kept, the others are taken off the
    connection and dropped. *)
Theorem getBytes_short_read_drops
        (count : Z) (a seg : list byte) (rest out : list (list byte)) :
  a <> [] -> len a < count -> count <= len seg ->
  getBytes count (mkTCPConn (a :: seg :: rest) out)
  = (Ok (a ++ firstn (Z.to_nat (count - len a)) seg),
     mkTCPConn (skipn (Z.to_nat count) seg :: rest) out)
  /\ len (a ++ firstn (Z.to_nat (count - len a)) seg) = count
  /\ len (List.concat (a :: seg :: rest))
     - len (List.concat (skipn (Z.to_nat count) seg :: rest))
     = count + len a.
Proof.
  intros Hne Hshort Hlong.
  assert (Ha : (0 < List.length a)%nat) by (destruct a; [congruence | cbn; lia]).
  unfold len in Hshort, Hlong.
  split; [| split].
  - unfold getBytes.
    destruct (Z.to_nat count) as [| [| k]] eqn:Hk; [lia | lia |].
    rewrite getBytes_loop_round by lia.
    unfold Read. cbn [inbound outbound readSegments].
    destruct a as [| x a']; [congruence |]. rewrite Hk.
    rewrite (firstn_all2 (n := S (S k))) by bytes.
    rewrite (skipn_all2 (n := S (S k))) by bytes.
    change (Z.to_nat 0) with 0%nat. cbn [firstn skipn app].
    rewrite copy_into by (unfold make; rewrite repeat_length; bytes).
    rewrite getBytes_loop_round by bytes.
    unfold Read. cbn [inbound outbound readSegments].
    destruct seg as [| y seg']; [cbn in Hlong; lia |]. rewrite Hk.
    f_equal.
    + rewrite getBytes_loop_done.
      2:{ unfold len. rewrite firstn_length_le by bytes. bytes. }
      f_equal.
      replace (Z.to_nat (0 + len (x :: a'))) with (List.length (x :: a'))
        by bytes.
      rewrite firstn_app, firstn_all, Nat.sub_diag, firstn_O, app_nil_r.
      rewrite skipn_app, skipn_all, Nat.sub_diag, skipn_O. cbn [app].
      rewrite copy_over.
      2:{ rewrite length_skipn, firstn_length_le by bytes.
          unfold make. rewrite repeat_length. bytes. }
      rewrite length_skipn. unfold make. rewrite repeat_length.
      rewrite firstn_firstn. do 4 f_equal. bytes.
  - rewrite len_app. unfold len at 2.
    rewrite firstn_length_le by bytes. bytes.
  - cbn [List.concat]. rewrite !len_app, len_skipn. bytes.
Qed.

(** A connection on which a header arrives in two reads: the first byte
    alone, the second together with the payload. *)
Lemma getBytes_short_read_drops_witness :
  let a := [ascii_of_nat 7] in
  let seg := zero :: list_ascii_of_string "abc" in
  a <> [] /\ len a < 2 /\ 2 <= len seg
  /\ getBytes 2 (mkTCPConn [a; seg] [])
     = (Ok [ascii_of_nat 7; zero],
        mkTCPConn [list_ascii_of_string "bc"] []).
Proof.
  split; [discriminate | split; [cbn; lia | split; [cbn; lia |]]].
  exact (proj1 (getBytes_short_read_drops 2 [ascii_of_nat 7]
                  (zero :: list_ascii_of_string "abc") [] []
                  ltac:(discriminate) ltac:(cbn; lia) ltac:(cbn; lia))).
Defined.

(** *** One message after the other *)

Lemma getBlock_loop_rest (chs : list (list byte)) :
  forall (fuel : nat) (acc : list byte) (parts inb out : list (list byte)),
    wellChunked chs ->
    (List.length chs <= fuel)%nat ->
    delivers (frames chs ++ parts) inb ->
    exists inb',
      getBlock_loop fuel acc 0 (mkTCPConn inb out)
      = (Ok (acc ++ List.concat chs), mkTCPConn inb' out)
      /\ delivers parts inb'.
Proof.
  pose proof MAX_eq as HM.
  induction chs as [| ch chs IH]; intros fuel acc parts inb out Hwell Hfuel Hd;
    [destruct Hwell |].
  destruct fuel as [| f]; [cbn in Hfuel; lia |].
  pose proof (len_nonneg ch) as Hch.
  destruct chs as [| ch' chs'].
  - cbn [wellChunked] in Hwell. cbn [frames app] in Hd.
    destruct (delivers_getBytes _ _ _ out Hd) as (inb1 & Hhdr & Hd1).
    destruct (delivers_getBytes _ _ _ out Hd1) as (inb2 & Hdata & Hd2).
    exists inb2. split; [| exact Hd2].
    cbn [getBlock_loop]. change (0 =? 1) with false. cbv iota.
    unfold bind at 1. change 2 with (len (header (len ch) 1)). rewrite Hhdr.
    unfold bind at 1. rewrite readUint16LE_header by lia.
    rewrite decode_length, decode_flag by auto.
    unfold bind. rewrite Hdata.
    destruct f; cbn [getBlock_loop]; change (1 =? 1) with true; cbv iota;
      unfold ret; cbn [List.concat]; rewrite app_nil_r; reflexivity.
  - destruct Hwell as [Hfull Hwell].
    rewrite frames_cons in Hd by discriminate. cbn [app] in Hd.
    destruct (delivers_getBytes _ _ _ out Hd) as (inb1 & Hhdr & Hd1).
    destruct (delivers_getBytes _ _ _ out Hd1) as (inb2 & Hdata & Hd2).
    destruct (IH f (acc ++ ch) parts inb2 out Hwell) as (inb3 & Hloop & Hd3);
      [cbn in *; lia | exact Hd2 |].
    exists inb3. split; [| exact Hd3].
    cbn [getBlock_loop]. change (0 =? 1) with false. cbv iota.
    unfold bind at 1. change 2 with (len (header (len ch) 0)). rewrite Hhdr.
    unfold bind at 1. rewrite readUint16LE_header by lia.
    rewrite decode_length, decode_flag by auto.
    unfold bind. rewrite Hdata, Hloop.
    cbn [List.concat]. rewrite <- app_assoc. reflexivity.
Qed.

(** What follows the frames of a message on the connection is still there
    when [getBlock] has read the message. *)
Lemma getBlock_rest (P : list byte) (parts inb out : list (list byte)) :
  delivers (sent P ++ parts) inb ->
  exists inb',
    getBlock (mkTCPConn inb out) = (Ok P, mkTCPConn inb' out)
    /\ delivers parts inb'.
Proof.
  intros Hd. rewrite sent_frames in Hd.
  destruct (chunks_payload P) as [Hcat Hwell].
  set (chs := chunks (S (List.length P)) P) in *.
  unfold getBlock.
  destruct (getBlock_loop_rest chs (S (pending (mkTCPConn inb out))) []
              parts inb out Hwell) as (inb' & Hloop & Hd'); [| exact Hd |].
  - pose proof (frames_length chs) as Hlen.
    pose proof (delivers_pending _ _ Hd) as Hpend.
    rewrite concat_app, length_app in Hpend.
    unfold pending. cbn [inbound]. lia.
  - exists inb'. rewrite Hloop, Hcat. split; [reflexivity | exact Hd'].
Qed.

(** X2.  [getBlock] reads one message and no more: when the frames of two
    messages are delivered one after the other (each header and each chunk
    whole), the first call returns the first message, the second call the
    second one, and nothing is written. *)
Theorem getBlock_in_sequence
        (P1 P2 : list byte) (parts inb out : list (list byte)) :
  delivers (sent P1 ++ sent P2 ++ parts) inb ->
  exists inb1 inb2 : list (list byte),
    getBlock (mkTCPConn inb out) = (Ok P1, mkTCPConn inb1 out)
    /\ getBlock (mkTCPConn inb1 out) = (Ok P2, mkTCPConn inb2 out)
    /\ delivers parts inb2.
Proof.
  intros Hd.
  destruct (getBlock_rest P1 _ inb out Hd) as (inb1 & H1 & Hd1).
  destruct (getBlock_rest P2 _ inb1 out Hd1) as (inb2 & H2 & Hd2).
  exists inb1, inb2. auto.
Qed.

(** Two messages that arrive as one stream of bytes. *)
Lemma getBlock_in_sequence_witness :
  let P1 := list_ascii_of_string "challenge" in
  let P2 := list_ascii_of_string "" in
  let inb := [List.concat (sent P1 ++ sent P2 ++ [])] in
  delivers (sent P1 ++ sent P2 ++ []) inb
  /\ exists inb1 inb2 : list (list byte),
      getBlock (mkTCPConn inb []) = (Ok P1, mkTCPConn inb1 [])
      /\ getBlock (mkTCPConn inb1 []) = (Ok P2, mkTCPConn inb2 [])
      /\ delivers [] inb2.
Proof.
  intros P1 P2 inb.
  assert (Hd : delivers (sent P1 ++ sent P2 ++ []) inb).
  { unfold inb.
    rewrite <- (app_nil_r (List.concat (sent P1 ++ sent P2 ++ []))).
    apply delivers_stream. }
  split; [exact Hd |].
  exact (getBlock_in_sequence P1 P2 [] inb [] Hd).
Defined.

(** *** A stream that is cut *)

(** Segments without a byte do not count for a [Read]. *)
Lemma readSegments_empties (pre inb : list (list byte)) (n : nat) :
  Forall (fun seg => seg = []) pre ->
  readSegments (pre ++ inb) n = readSegments inb n.
Proof.
  induction 1 as [| seg pre Hseg _ IH]; [reflexivity |].
  subst seg. cbn [app readSegments]. exact IH.
Qed.

Lemma readSegments_end (pre : list (list byte)) (n : nat) :
  Forall (fun seg => seg = []) pre -> readSegments pre n = None.
Proof.
  intros Hpre. rewrite <- (app_nil_r pre).
  rewrite readSegments_empties by exact Hpre. reflexivity.
Qed.

Lemma getBytes_end (count : Z) (pre out : list (list byte)) :
  0 < count ->
  Forall (fun seg => seg = []) pre ->
  getBytes count (mkTCPConn pre out) = (Err "EOF", mkTCPConn pre out).
Proof.
  intros Hpos Hpre. unfold getBytes.
  destruct (Z.to_nat count) as [| k] eqn:Hk; [lia |].
  rewrite getBytes_loop_round by lia.
  unfold Read. cbn [inbound]. rewrite readSegments_end by exact Hpre.
  reflexivity.
Qed.

Lemma getBytes_part (p : list byte) (pre tl out : list (list byte)) :
  p <> [] ->
  Forall (fun seg => seg = []) pre ->
  getBytes (len p) (mkTCPConn (pre ++ p :: tl) out)
  = (Ok p, mkTCPConn ([] :: tl) out).
Proof.
  intros Hne Hpre. apply getBytes_whole; [exact Hne |].
  rewrite readSegments_empties by exact Hpre.
  destruct p as [| x p']; [congruence |].
  cbn [readSegments]. rewrite firstn_all, skipn_all. reflexivity.
Qed.

Lemma frames_last (chs : list (list byte)) :
  chs <> [] -> last (frames chs) [] = last chs [].
Proof.
  induction chs as [| ch [| ch' chs'] IH]; intros Hne;
    [congruence | reflexivity |].
  rewrite frames_cons by discriminate.
  change (last (header (len ch) 0 :: ch :: frames (ch' :: chs')) [])
    with (match frames (ch' :: chs') with
          | [] => ch
          | _ :: _ => last (frames (ch' :: chs')) []
          end).
  destruct (frames (ch' :: chs')) eqn:Hfr.
  - destruct chs'; discriminate.
  - rewrite IH by discriminate. reflexivity.
Qed.


(** The first [n] writes of a message hold at least [n] bytes, every other
    one being a header. *)
Lemma frames_prefix_bytes (chs : list (list byte)) :
  forall n : nat,
    (n <= List.length (frames chs))%nat ->
    (n <= List.length (List.concat (firstn n (frames chs))))%nat.
Proof.
  induction chs as [| ch chs IH]; intros n Hn.
  - cbn in *. lia.
  - assert (Hfr : exists tl, frames (ch :: chs) = [ascii_of_N 0; zero] :: ch :: tl
                             \/ True) by (exists []; auto).
    clear Hfr.
    destruct chs as [| ch' chs'].
    + cbn [frames] in *. destruct n as [| [| [| m]]]; cbn in *; lia.
    + rewrite frames_cons in * by discriminate.
      destruct n as [| [| m]]; [cbn; lia | cbn; lia |].
      cbn [firstn List.concat]. rewrite !length_app, header_length.
      cbn [List.length] in Hn.
      specialize (IH m ltac:(lia)). lia.
Qed.

Lemma getBlock_loop_cut (chs : list (list byte)) :
  forall (n fuel : nat) (acc : list byte) (pre out : list (list byte)),
    wellChunked chs ->
    Forall (fun seg => seg = []) pre ->
    (n < List.length (frames chs))%nat ->
    last chs [] <> [] \/ (S n < List.length (frames chs))%nat ->
    (n < 2 * fuel)%nat ->
    fst (getBlock_loop fuel acc 0
           (mkTCPConn (pre ++ firstn n (frames chs)) out))
    = Err "EOF".
Proof.
  pose proof MAX_eq as HM.
  induction chs as [| ch chs IH];
    intros n fuel acc pre out Hwell Hpre Hn Hlast Hfuel;
    [destruct Hwell |].
  destruct fuel as [| f]; [lia |].
  pose proof (len_nonneg ch) as Hch.
  cbn [getBlock_loop]. change (0 =? 1) with false. cbv iota.
  destruct n as [| n].
  { cbn [firstn]. rewrite app_nil_r. unfold bind at 1.
    rewrite getBytes_end by (lia || exact Hpre). reflexivity. }
  destruct chs as [| ch' chs'].
  - cbn [wellChunked] in Hwell. cbn [frames List.length] in *.
    destruct n as [| n]; [| lia].
    cbn [firstn]. unfold bind at 1.
    change 2 with (len (header (len ch) 1)).
    rewrite getBytes_part by (discriminate || exact Hpre).
    unfold bind at 1. rewrite readUint16LE_header by lia.
    rewrite decode_length, decode_flag by auto.
    destruct Hlast as [Hlast | Hlast]; [| lia].
    cbn [last] in Hlast.
    unfold bind at 1. rewrite getBytes_end.
    + reflexivity.
    + destruct ch; [congruence | unfold len; cbn; lia].
    + repeat constructor.
  - destruct Hwell as [Hfull Hwell].
    rewrite frames_cons in * by discriminate.
    cbn [List.length] in Hn, Hlast.
    unfold bind at 1. change 2 with (len (header (len ch) 0)).
    assert (Hchne : ch <> []).
    { intros ->. unfold len in Hfull. cbn in Hfull. lia. }
    destruct n as [| n].
    + cbn [firstn].
      rewrite getBytes_part by (discriminate || exact Hpre).
      unfold bind at 1. rewrite readUint16LE_header by lia.
      rewrite decode_length, decode_flag by auto.
      unfold bind at 1. rewrite getBytes_end; [reflexivity | lia |].
      repeat constructor.
    + cbn [firstn].
      rewrite getBytes_part by (discriminate || exact Hpre).
      unfold bind at 1. rewrite readUint16LE_header by lia.
      rewrite decode_length, decode_flag by auto.
      unfold bind at 1.
      pose proof (getBytes_part ch [[]] (firstn n (frames (ch' :: chs'))) out
                    Hchne ltac:(repeat constructor)) as Hdata.
      cbn [app] in Hdata. rewrite Hdata.
      apply (IH n f (acc ++ ch) [[]] out Hwell);
        [repeat constructor | lia | | lia].
      destruct Hlast as [Hlast | Hlast]; [left; exact Hlast | right; lia].
Qed.

(** An empty part at the end needs no [Read]. *)
Lemma delivers_snoc_empty (parts inb : list (list byte)) :
  delivers parts inb -> delivers (parts ++ [[]]) inb.
Proof.
  induction 1 as [inb | parts inb _ IH | p parts inb inb' Hp Hread _ IH].
  - apply delivers_empty, delivers_nil.
  - apply delivers_empty, IH.
  - exact (delivers_part p _ inb inb' Hp Hread IH).
Qed.

(** The bytes of a message in chunks: the full chunks and the final one. *)
Lemma wellChunked_total (chs : list (list byte)) :
  wellChunked chs ->
  len (List.concat chs)
  = mapi_MAX_PACKAGE_LENGTH * (len chs - 1) + len (last chs []).
Proof.
  induction chs as [| ch chs IH]; [intros [] |].
  destruct chs as [| ch' chs'].
  - intros _. cbn [List.concat last]. rewrite app_nil_r.
    unfold len at 2. cbn [List.length]. lia.
  - intros [Hfull Hrest]. specialize (IH Hrest).
    change (List.concat (ch :: ch' :: chs'))
      with (ch ++ List.concat (ch' :: chs')).
    change (last (ch :: ch' :: chs') []) with (last (ch' :: chs') []).
    rewrite len_app, IH, Hfull.
    replace (len (ch :: ch' :: chs')) with (1 + len (ch' :: chs'))
      by (unfold len; cbn [List.length]; lia).
    rewrite MAX_eq. lia.
Qed.

(** The final chunk of a message holds what is left of the payload after
    the chunks of 8190 bytes. *)
Lemma final_chunk (P : list byte) :
  len (last (chunks (S (List.length P)) P) []) = len P mod 8190.
Proof.
  destruct (chunks_payload P) as [Hcat Hwell].
  pose proof (wellChunked_total _ Hwell) as Htotal.
  destruct (wellChunked_bounds _ Hwell) as (_ & _ & Hlast).
  rewrite Hcat in Htotal. rewrite MAX_eq in *.
  set (chs := chunks (S (List.length P)) P) in *.
  pose proof (len_nonneg (last chs [])) as Hpos.
  apply Z.mod_unique with (len chs - 1); lia.
Qed.

Lemma empty_length {A} (l : list A) : len l = 0 <-> l = [].
Proof.
  split; [| intros ->; reflexivity].
  destruct l; [reflexivity |]. unfold len. cbn [List.length]. lia.
Qed.

(** X3.  A stream that ends before the message does, only the first [n]
    writes of the message being there.  When a write is missing that is more
    than the empty chunk at the end of a message, [getBlock] returns the
    error of the [Read] and no part of the message.  When the one write
    that is missing is the empty final chunk, which is there for a payload
    whose length is a multiple of 8190, the empty payload among them,
    [getBlock] returns the whole payload and no error: it reads nothing for
    a chunk of no bytes. *)
Theorem getBlock_cut_stream (P : list byte) (n : nat) :
  (n < List.length (sent P))%nat ->
  (len P mod 8190 <> 0 \/ (S n < List.length (sent P))%nat ->
   received (firstn n (sent P)) = Err "EOF")
  /\ (len P mod 8190 = 0 -> S n = List.length (sent P) ->
      received (firstn n (sent P)) = Ok P).
Proof.
  intros Hn.
  pose proof (final_chunk P) as Hfinal.
  pose proof (sent_frames P) as Hsent.
  destruct (chunks_payload P) as [_ Hwell].
  set (chs := chunks (S (List.length P)) P) in *.
  assert (Hne : chs <> []) by (intros E; rewrite E in Hwell; exact Hwell).
  split.
  - intros Hcut. unfold received, getBlock. rewrite Hsent in *.
    apply (getBlock_loop_cut chs n _ [] [] [] Hwell); auto.
    + destruct Hcut as [Hmod | Hmore]; [left | right; exact Hmore].
      intros Hempty. apply Hmod. rewrite <- Hfinal, Hempty. reflexivity.
    + unfold pending. cbn [inbound].
      pose proof (frames_prefix_bytes chs n ltac:(lia)). lia.
  - intros Hmod Hall.
    assert (Hempty : last (sent P) [] = []).
    { rewrite Hsent, frames_last by exact Hne.
      apply empty_length. rewrite Hfinal. exact Hmod. }
    assert (Hsome : sent P <> [])
      by (intros E; rewrite E in Hn; cbn in Hn; lia).
    assert (Hfirst : firstn n (sent P) = removelast (sent P)).
    { rewrite removelast_firstn_len. f_equal. lia. }
    pose proof (app_removelast_last [] Hsome) as Hparts.
    rewrite Hempty in Hparts.
    pose proof (delivers_snoc_empty _ _
                  (delivers_written (removelast (sent P)))) as Hd.
    rewrite <- Hparts in Hd.
    destruct (getBlock_rest P [] (removelast (sent P)) [])
      as [inb' [Hget _]]; [rewrite app_nil_r; exact Hd |].
    unfold received. rewrite Hfirst, Hget. reflexivity.
Qed.

(** A message of three bytes of which the header alone has arrived, and an
    empty message of which the header alone has arrived. *)
Lemma getBlock_cut_stream_witness :
  let P := list_ascii_of_string "abc" in
  (firstn 1 (sent P) = [[ascii_of_nat 7; zero]]
   /\ received (firstn 1 (sent P)) = Err "EOF")
  /\ (firstn 1 (sent []) = [[ascii_of_nat 1; zero]]
      /\ received (firstn 1 (sent [])) = Ok []).
Proof.
  intros P. split.
  - assert (Hn : (1 < List.length (sent P))%nat).
    { replace (List.length (sent P)) with 2%nat by (vm_compute; reflexivity).
      lia. }
    assert (Hmod : len P mod 8190 <> 0) by (vm_compute; discriminate).
    split; [vm_compute; reflexivity |].
    exact (proj1 (getBlock_cut_stream P 1 Hn) (or_introl Hmod)).
  - assert (Hn : (1 < List.length (sent []))%nat).
    { replace (List.length (sent [])) with 2%nat by (vm_compute; reflexivity).
      lia. }
    assert (Hmod : len (@nil byte) mod 8190 = 0) by (vm_compute; reflexivity).
    assert (Hall : 2%nat = List.length (sent []))
      by (vm_compute; reflexivity).
    split; [vm_compute; reflexivity |].
    exact (proj2 (getBlock_cut_stream [] 1 Hn) Hmod Hall).
Defined.

(** *** The size of what is written *)

Local Opaque mapi_MAX_PACKAGE_LENGTH.






Local Transparent mapi_MAX_PACKAGE_LENGTH.


End FramingFacts.

(** ** Commands on a connection *)

Module CommandFacts.

Import Mapi.
Import TransportSpec.
Import HandshakeFacts.
Import CommandSpec.
Import CursorSpec.
Import CursorFacts.

(** *** Texts *)

Lemma substring_all (s : string) : String.substring 0 (String.length s) s = s.
Proof. induction s as [| c s IH]; [reflexivity |]. cbn. rewrite IH. reflexivity. Qed.

Lemma substring_suffix (pre rest : string) :
  String.substring (String.length pre) (String.length rest) (pre ++ rest)
  = rest.
Proof.
  induction pre as [| c pre IH]; [apply substring_all | exact IH].
Qed.

Lemma length_append (s t : string) :
  String.length (s ++ t) = (String.length s + String.length t)%nat.
Proof. induction s as [| c s IH]; [reflexivity |]. cbn. rewrite IH. reflexivity. Qed.

Lemma suffixFrom_append (pre rest : string) :
  suffixFrom (pre ++ rest) (Z.of_nat (String.length pre)) = Some rest.
Proof.
  unfold suffixFrom, substr. rewrite length_append.
  replace ((0 <=? Z.of_nat (String.length pre))
           && (Z.of_nat (String.length pre)
               <=? Z.of_nat (String.length pre + String.length rest))
           && (Z.of_nat (String.length pre + String.length rest)
               <=? Z.of_nat (String.length pre + String.length rest)))
    with true.
  - rewrite Nat2Z.id.
    replace (Z.to_nat (Z.of_nat (String.length pre + String.length rest)
                       - Z.of_nat (String.length pre)))
      with (String.length rest) by lia.
    rewrite substring_suffix. reflexivity.
  - symmetry. rewrite !andb_true_iff, !Z.leb_le. lia.
Qed.

Lemma from_append {S} (pre rest : string) (s : S) :
  from (pre ++ rest) (Z.of_nat (String.length pre)) s = (Ok rest, s).
Proof. unfold from. rewrite suffixFrom_append. reflexivity. Qed.

Lemma bytes_text (s : string) : string_of_list_ascii (bytes s) = s.
Proof. apply string_of_list_ascii_of_string. Qed.

(** *** One block of the server *)

(** A command on a ready connection writes its block and reads one; a
    request for more is answered by the empty command. *)
Lemma cmd_block (f : nat) (operation : string) (c : MapiConn) (t : TCPConn)
      (R : list byte) (parts : list (list byte)) :
  conn c = Some t ->
  State c = mapi_STATE_READY ->
  delivers (sent R ++ parts) (inbound t) ->
  exists inb1 : list (list byte),
    delivers parts inb1
    /\ let c1 := set_conn (Some (mkTCPConn inb1
                                  (outbound t ++ sent (bytes operation)))) c in
       cmd (S f) operation c
       = if (string_of_list_ascii R =? mapi_MSG_MORE)%string
         then cmd f "" c1
         else replied (string_of_list_ascii R) c1.
Proof.
  intros Hc Hready Hd.
  destruct (FramingFacts.getBlock_rest R parts (inbound t)
              (outbound t ++ sent (bytes operation)) Hd)
    as (inb1 & Hget & Hd1).
  exists inb1. split; [exact Hd1 |]. intros c1.
  cbn [cmd]. unfold bind at 1, get at 1.
  rewrite Hready. change (negb (mapi_STATE_READY =? mapi_STATE_READY))
    with false. cbv iota.
  unfold bind at 1. rewrite (Mapi_putBlock _ c t Hc).
  unfold bind at 1. unfold getBlock at 1, onConn at 1.
  cbn [conn set_conn]. unfold bytes in Hget. rewrite Hget.
  cbn [set_conn Hostname Port Username Password Database Language State
       sizeHeader replySize autoCommit conn].
  fold (bytes operation).
  replace (mkMapiConn (Hostname c) (Port c) (Username c) (Password c)
             (Database c) (Language c) (State c) (sizeHeader c) (replySize c)
             (autoCommit c)
             (Some (mkTCPConn inb1 (outbound t ++ sent (bytes operation)))))
    with c1 by reflexivity.
  set (resp := string_of_list_ascii R).
  unfold replied.
  destruct (resp =? mapi_MSG_MORE)%string eqn:Hmore.
  - apply String.eqb_eq in Hmore. rewrite Hmore. reflexivity.
  - reflexivity.
Qed.

Lemma more_text :
  (string_of_list_ascii (bytes mapi_MSG_MORE) =? mapi_MSG_MORE)%string = true.
Proof. reflexivity. Qed.

Lemma mores_succ (k : nat) :
  mores (S k) = sent (bytes mapi_MSG_MORE) ++ mores k.
Proof. reflexivity. Qed.

Lemma empties_succ (k : nat) : empties (S k) = sent [] ++ empties k.
Proof. reflexivity. Qed.

(** The requests for more, each answered by an empty command, and the
    block after them. *)
Lemma cmd_more (k : nat) :
  forall (f : nat) (operation : string) (c : MapiConn) (t : TCPConn)
         (R : list byte) (parts : list (list byte)),
    conn c = Some t ->
    State c = mapi_STATE_READY ->
    delivers (mores k ++ sent R ++ parts) (inbound t) ->
    (string_of_list_ascii R =? mapi_MSG_MORE)%string = false ->
    exists inb' : list (list byte),
      delivers parts inb'
      /\ cmd (S (k + f)) operation c
         = replied (string_of_list_ascii R)
             (set_conn (Some (mkTCPConn inb'
                                (outbound t ++ sent (bytes operation)
                                 ++ empties k))) c).
Proof.
  induction k as [| k IH]; intros f operation c t R parts Hc Hready Hd Hnot.
  - cbn [mores repeat List.concat app] in Hd.
    destruct (cmd_block f operation c t R parts Hc Hready Hd)
      as (inb1 & Hd1 & Hcmd).
    exists inb1. split; [exact Hd1 |].
    cbn zeta in Hcmd. rewrite Hnot in Hcmd.
    cbn [empties repeat List.concat Nat.add]. rewrite app_nil_r. exact Hcmd.
  - rewrite mores_succ, <- app_assoc in Hd.
    destruct (cmd_block (S (k + f)) operation c t _ _ Hc Hready Hd)
      as (inb1 & Hd1 & Hcmd).
    cbn zeta in Hcmd. rewrite more_text in Hcmd.
    set (c1 := set_conn _ c) in Hcmd.
    destruct (IH f "" c1 (mkTCPConn inb1 (outbound t ++ sent (bytes operation)))
                 R parts)
      as (inb' & Hd' & Hrest); [reflexivity | exact Hready | exact Hd1
                               | exact Hnot |].
    exists inb'. split; [exact Hd' |].
    change (S (S k + f)) with (S (S (k + f))). rewrite Hcmd, Hrest.
    cbn [outbound]. rewrite empties_succ, <- !app_assoc.
    destruct c; reflexivity.
Qed.

Lemma mores_pending (k : nat) (tl : list (list byte)) :
  (k <= List.length (List.concat (mores k ++ tl)))%nat.
Proof.
  induction k as [| k IH]; [lia |].
  rewrite mores_succ, <- app_assoc, concat_app, length_app.
  replace (List.length (List.concat (sent (bytes mapi_MSG_MORE)))) with 5%nat
    by (vm_compute; reflexivity).
  lia.
Qed.

(** The same for a call from a method of the handle, which bounds the calls
    by the input that is pending. *)
Lemma call_more (k : nat) (operation : string) (c : MapiConn) (t : TCPConn)
      (R : list byte) (parts : list (list byte)) :
  conn c = Some t ->
  State c = mapi_STATE_READY ->
  delivers (mores k ++ sent R ++ parts) (inbound t) ->
  (string_of_list_ascii R =? mapi_MSG_MORE)%string = false ->
  exists inb' : list (list byte),
    delivers parts inb'
    /\ call operation c
       = replied (string_of_list_ascii R)
           (set_conn (Some (mkTCPConn inb'
                              (outbound t ++ sent (bytes operation)
                               ++ empties k))) c).
Proof.
  intros Hc Hready Hd Hnot. unfold call. rewrite Hc.
  pose proof (TransportFacts.delivers_pending _ _ Hd) as Hpend.
  pose proof (mores_pending k (sent R ++ parts)) as Hk.
  fold (Transport.pending t) in Hpend.
  replace (S (Transport.pending t))
    with (S (k + (Transport.pending t - k))) by lia.
  apply cmd_more; assumption.
Qed.

(** *** The block that answers a command *)

Lemma replied_ok (rest : string) (c : MapiConn) :
  replied ("=OK" ++ rest) c = (Ok (TrimSpace rest), c).
Proof.
  unfold replied. cbn [String.length append]. rewrite Nat2Z.inj_succ.
  replace (Z.succ _ =? 0) with false by (symmetry; apply Z.eqb_neq; lia).
  unfold HasPrefix, mapi_MSG_OK. rewrite !prefix_cons, prefix_empty.
  rewrite !Ascii.eqb_refl. cbn [andb]. unfold bind.
  rewrite (from_append "=OK" rest). reflexivity.
Qed.

Lemma replied_data (reply rest : string) (c : MapiConn) :
  reply = ("&" ++ rest)%string \/ reply = ("%" ++ rest)%string
  \/ reply = ("[" ++ rest)%string ->
  replied reply c = (Ok reply, c).
Proof.
  intros Hshape. unfold replied.
  destruct Hshape as [-> | [-> | ->]];
    cbn [String.length append]; rewrite Nat2Z.inj_succ;
    (replace (Z.succ _ =? 0) with false
      by (symmetry; apply Z.eqb_neq; lia));
    unfold HasPrefix, mapi_MSG_OK, mapi_MSG_Q, mapi_MSG_HEADER,
           mapi_MSG_TUPLE;
    rewrite !prefix_cons, !prefix_empty; reflexivity.
Qed.

Lemma replied_error (msg : string) (c : MapiConn) :
  replied ("!" ++ msg) c
  = (Err ("mapi: operational error: " ++ msg)%string, c).
Proof.
  unfold replied. cbn [String.length append]. rewrite Nat2Z.inj_succ.
  replace (Z.succ _ =? 0) with false by (symmetry; apply Z.eqb_neq; lia).
  unfold HasPrefix, mapi_MSG_OK, mapi_MSG_Q, mapi_MSG_HEADER,
         mapi_MSG_TUPLE, mapi_MSG_ERROR.
  rewrite !prefix_cons, !prefix_empty.
  change (Ascii.eqb "=" "!") with false. change (Ascii.eqb "&" "!") with false.
  change (Ascii.eqb "%" "!") with false. change (Ascii.eqb "[" "!") with false.
  rewrite Ascii.eqb_refl. cbn [andb orb]. unfold bind.
  rewrite (from_append "!" msg). reflexivity.
Qed.

Lemma data_not_more (reply rest : string) :
  reply = ("&" ++ rest)%string \/ reply = ("%" ++ rest)%string
  \/ reply = ("[" ++ rest)%string \/ reply = ("!" ++ rest)%string ->
  (reply =? mapi_MSG_MORE)%string = false.
Proof. intros [-> | [-> | [-> | ->]]]; reflexivity. Qed.

(** X5.  A statement on a ready connection: [Execute] writes the block
    [s<query>;], answers every request of the server for more with an empty
    block, and returns by the first block that is no such request: the
    empty text for an empty block, the rest trimmed for a block that starts
    with [=OK], the block as it is when it starts with [&], [%] or a
    bracket, and an error with the text after the mark for a block that
    starts with [!].  The other blocks of the server stay on the connection;
    the handle is not changed otherwise. *)
Theorem Execute_reply
        (c : MapiConn) (t : TCPConn) (query : string) (k : nat)
        (reply : string) (parts : list (list byte)) :
  conn c = Some t ->
  State c = mapi_STATE_READY ->
  delivers (mores k ++ sent (bytes reply) ++ parts) (inbound t) ->
  let returns r :=
    exists inb' : list (list byte),
      delivers parts inb'
      /\ Execute query c
         = (r, set_conn (Some (mkTCPConn inb'
                                 (outbound t
                                  ++ sent (bytes ("s" ++ query ++ ";"))
                                  ++ empties k))) c) in
  (reply = "" -> returns (Ok ""))
  /\ (forall rest : string,
        reply = ("=OK" ++ rest)%string -> returns (Ok (TrimSpace rest)))
  /\ (forall rest : string,
        reply = ("&" ++ rest)%string \/ reply = ("%" ++ rest)%string
        \/ reply = ("[" ++ rest)%string ->
        returns (Ok reply))
  /\ (forall msg : string,
        reply = ("!" ++ msg)%string ->
        returns (Err ("mapi: operational error: " ++ msg)%string)).
Proof.
  intros Hc Hready Hd returns.
  assert (Hcall : (reply =? mapi_MSG_MORE)%string = false ->
                  forall r,
                    (forall c', replied reply c' = (r, c')) -> returns r).
  { intros Hnot r Hr. unfold returns, Execute.
    destruct (call_more k ("s" ++ query ++ ";") c t (bytes reply) parts
                Hc Hready Hd) as (inb' & Hd' & Hrun);
      [rewrite bytes_text; exact Hnot |].
    exists inb'. split; [exact Hd' |].
    rewrite Hrun, bytes_text. apply Hr. }
  split; [| split; [| split]].
  - intros ->. apply Hcall; reflexivity.
  - intros rest ->. apply Hcall; [reflexivity |]. intros c'. apply replied_ok.
  - intros rest Hshape. apply Hcall.
    + destruct Hshape as [-> | [-> | ->]]; reflexivity.
    + intros c'. apply (replied_data reply rest), Hshape.
  - intros msg ->. apply Hcall; [reflexivity |]. intros c'.
    apply replied_error.
Qed.

(** A server that asks for more twice before it reports an error. *)
Lemma Execute_reply_witness :
  let reply := "!syntax error" in
  let t := mkTCPConn (mores 2 ++ sent (bytes reply) ++ []) [] in
  let c := set_State mapi_STATE_READY (HandshakeSpec.sampleConn (Some t)) in
  delivers (mores 2 ++ sent (bytes reply) ++ []) (inbound t)
  /\ exists inb' : list (list byte),
      delivers [] inb'
      /\ Execute "select 1" c
         = (Err "mapi: operational error: syntax error",
            set_conn (Some (mkTCPConn inb'
                              (outbound t ++ sent (bytes "sselect 1;")
                               ++ empties 2))) c).
Proof.
  intros reply t c.
  assert (Hd : delivers (mores 2 ++ sent (bytes reply) ++ []) (inbound t))
    by apply TransportFacts.delivers_written.
  split; [exact Hd |].
  exact (proj2 (proj2 (proj2
           (Execute_reply c t "select 1" 2 reply [] eq_refl eq_refl Hd)))
           "syntax error" eq_refl).
Defined.

(** *** A handle that is not connected *)

Lemma cmd_not_ready (fuel : nat) (operation : string) (c : MapiConn) :
  State c <> mapi_STATE_READY ->
  cmd (S fuel) operation c = (Err "mapi: database is not connected", c).
Proof.
  intros Hstate. cbn [cmd]. unfold bind, get.
  replace (State c =? mapi_STATE_READY) with false
    by (symmetry; apply Z.eqb_neq; exact Hstate).
  reflexivity.
Qed.

Lemma call_not_ready (operation : string) (c : MapiConn) :
  State c <> mapi_STATE_READY ->
  call operation c = (Err "mapi: database is not connected", c).
Proof.
  intros Hstate. unfold call.
  destruct (conn c); apply cmd_not_ready, Hstate.
Qed.

(** X6.  [Disconnect] puts the handle back into its initial state and drops
    the connection, whatever state the handle was in, and may be called
    again; every command on the handle after it returns the error that the
    database is not connected and leaves the handle as it is: nothing is
    written. *)
Theorem Disconnect_then_commands
        (c : MapiConn) (query : string) (enable : bool)
        (size queryId offset amount : Z) :
  let c' := set_conn None (set_State mapi_STATE_INIT c) in
  let refused := (Err "mapi: database is not connected", c') in
  Disconnect c = (Ok tt, c')
  /\ Disconnect c' = (Ok tt, c')
  /\ Execute query c' = refused
  /\ fetchNext queryId offset amount c' = refused
  /\ SetSizeHeader enable c' = refused
  /\ SetReplySize size c' = refused
  /\ SetAutoCommit enable c' = refused.
Proof.
  intros c' refused.
  assert (Hinit : State c' <> mapi_STATE_READY) by discriminate.
  split; [| split].
  - unfold Disconnect, bind, modify, get, onConn.
    destruct c as [h p u pw d l s sh rs ac [t |]]; reflexivity.
  - reflexivity.
  - repeat split; first [apply call_not_ready | apply cmd_not_ready];
      exact Hinit.
Qed.

(** *** What a command leaves alone *)

Lemma onConn_settings {A} (m : M TCPConn A) : keeps settings (onConn m).
Proof.
  intros c. unfold onConn. destruct (conn c) as [t |]; [| reflexivity].
  destruct (m t) as [r t']. reflexivity.
Qed.

Lemma cmd_settings (fuel : nat) :
  forall operation : string, keeps settings (cmd fuel operation).
Proof.
  induction fuel as [| f IH]; intros operation; [intros c; reflexivity |].
  cbn [cmd]. apply keeps_bind; [apply keeps_stateless, stateless_get |].
  intros c0. destruct (negb (State c0 =? mapi_STATE_READY));
    [apply keeps_stateless, stateless_fail |].
  apply keeps_bind; [apply onConn_settings | intros _].
  apply keeps_bind; [apply onConn_settings | intros r].
  repeat first
    [ apply IH
    | apply keeps_stateless; solve [repeat first
        [ apply stateless_ret | apply stateless_fail
        | apply stateless_from | apply stateless_bind; [| intros ?] ]]
    | match goal with
      | |- keeps _ (if ?b then _ else _) => destruct b
      end ].
Qed.

Lemma call_settings (operation : string) : keeps settings (call operation).
Proof. intros c. unfold call. apply cmd_settings. Qed.

Lemma call_written (operation : string) (c : MapiConn) (t : TCPConn) :
  conn c = Some t ->
  State c = mapi_STATE_READY ->
  exists k : nat,
    written (snd (call operation c))
    = Some (outbound t ++ sent (bytes operation) ++ empties k).
Proof.
  intros Hc Hready. unfold call. rewrite Hc.
  apply cmd_written; assumption.
Qed.

(** X7.  The three settings of a session: [SetSizeHeader], [SetReplySize]
    and [SetAutoCommit] write the commands [Xsizeheader], [Xreply_size] and
    [Xauto_commit] with 1 for true and 0 for false, and the empty commands
    the server asks for; whatever the server answers, the fields
    [sizeHeader], [replySize] and [autoCommit] of the handle stay as they
    were. *)
Theorem settings_sent_not_recorded
        (c : MapiConn) (t : TCPConn) (enable : bool) (size : Z) :
  conn c = Some t ->
  State c = mapi_STATE_READY ->
  let wrote c' operation :=
    exists k : nat,
      written c' = Some (outbound t ++ sent (bytes operation) ++ empties k) in
  (wrote (snd (SetSizeHeader enable c))
         (if enable then "Xsizeheader 1" else "Xsizeheader 0")
   /\ sizeHeader (snd (SetSizeHeader enable c)) = sizeHeader c)
  /\ (wrote (snd (SetReplySize size c)) ("Xreply_size " ++ itoa size)%string
      /\ replySize (snd (SetReplySize size c)) = replySize c)
  /\ (wrote (snd (SetAutoCommit enable c))
            (if enable then "Xauto_commit 1" else "Xauto_commit 0")
      /\ autoCommit (snd (SetAutoCommit enable c)) = autoCommit c).
Proof.
  intros Hc Hready wrote.
  assert (Hkeep : forall operation,
             sizeHeader (snd (call operation c)) = sizeHeader c
             /\ replySize (snd (call operation c)) = replySize c
             /\ autoCommit (snd (call operation c)) = autoCommit c).
  { intros operation. pose proof (call_settings operation c) as Hs.
    unfold settings in Hs. injection Hs as _ _ _ _ _ _ Hsh Hrs Hac. auto. }
  repeat split.
  - unfold wrote, SetSizeHeader.
    destruct enable; apply call_written; assumption.
  - apply Hkeep.
  - apply call_written; assumption.
  - apply Hkeep.
  - unfold wrote, SetAutoCommit.
    destruct enable; apply call_written; assumption.
  - apply Hkeep.
Qed.

(** A session on which the reply size is set to 500. *)
Lemma settings_sent_not_recorded_witness :
  let t := mkTCPConn (sent (bytes "")) [] in
  let c := set_State mapi_STATE_READY (HandshakeSpec.sampleConn (Some t)) in
  (exists k : nat,
      written (snd (SetReplySize 500 c))
      = Some (outbound t ++ sent (bytes "Xreply_size 500") ++ empties k))
  /\ replySize (snd (SetReplySize 500 c)) = 100.
Proof.
  intros t c.
  exact (proj1 (proj2 (settings_sent_not_recorded c t true 500
                         eq_refl eq_refl))).
Defined.

End CommandFacts.

(** ** More about the login: challenges that are refused, the prompts of the
    server, and the redirect to another server *)

Module LoginFacts.

Import Mapi.
Import HandshakeSpec.
Import HandshakeFacts.
Import LoginSpec.
Import CommandSpec.
Import CommandFacts.

(** *** Challenges that are refused *)

Section Challenge.

Context {H : Hashes}.

(** X8.  The challenges [challengeResponse] answers with an error: a
    protocol other than 9, a password hash other than SHA512, and a list of
    transport hashes with neither SHA1 nor MD5 in it.  The handle is not
    changed. *)
Theorem challengeResponse_refused
        (c : MapiConn) (challenge : list byte)
        (salt user protocol hashes f4 algo : string) (rest : list string) :
  Split (string_of_list_ascii challenge) ":"
  = salt :: user :: protocol :: hashes :: f4 :: algo :: rest ->
  (protocol <> "9" ->
   challengeResponse challenge c = (Err "mapi: we only speak protocol v9", c))
  /\ (protocol = "9" -> algo <> "SHA512" ->
      challengeResponse challenge c
      = (Err ("mapi: unsupported algorithm: " ++ algo)%string, c))
  /\ (protocol = "9" -> algo = "SHA512" ->
      ~ In "SHA1" (Split hashes ",") -> ~ In "MD5" (Split hashes ",") ->
      challengeResponse challenge c
      = (Err ("mapi: unsupported hash algorithm required for login "
              ++ hashes)%string, c)).
Proof.
  intros Hsplit.
  assert (Hhead :
    challengeResponse challenge c
    = (if negb (protocol =? "9")%string
       then fail "mapi: we only speak protocol v9"
       else
         (if (algo =? "SHA512")%string then ret tt
          else fail ("mapi: unsupported algorithm: " ++ algo)%string) ;;;
         pwhash <-
           (if Contains ("," ++ hashes ++ ",")%string ",SHA1,"
            then ret ("{SHA1}" ++ hex (SHA1 (hex (SHA512 (Password c)) ++ salt)))%string
            else if Contains ("," ++ hashes ++ ",")%string ",MD5,"
            then ret ("{MD5}" ++ hex (MD5 (hex (SHA512 (Password c)) ++ salt)))%string
            else fail ("mapi: unsupported hash algorithm required for login "
                       ++ hashes)%string) ;;
         ret ("BIG:" ++ Username c ++ ":" ++ pwhash ++ ":" ++ Language c
              ++ ":" ++ Database c ++ ":")%string) c).
  { unfold challengeResponse. unfold bind at 1. unfold get at 1.
    rewrite Hsplit. reflexivity. }
  rewrite Hhead. clear Hhead.
  split; [| split].
  - intros Hproto.
    replace (protocol =? "9")%string with false
      by (symmetry; apply String.eqb_neq; exact Hproto).
    reflexivity.
  - intros -> Halgo.
    replace (algo =? "SHA512")%string with false
      by (symmetry; apply String.eqb_neq; exact Halgo).
    reflexivity.
  - intros -> -> Hsha1 Hmd5.
    replace (Contains ("," ++ hashes ++ ",") ",SHA1,") with false.
    2:{ symmetry. apply not_true_iff_false. intros Hin. apply Hsha1.
        apply (offered_iff "SHA1" hashes eq_refl). exact Hin. }
    replace (Contains ("," ++ hashes ++ ",") ",MD5,") with false.
    2:{ symmetry. apply not_true_iff_false. intros Hin. apply Hmd5.
        apply (offered_iff "MD5" hashes eq_refl). exact Hin. }
    reflexivity.
Qed.

(** X9.  A challenge with fewer than six fields between colons makes
    [challengeResponse] panic: the fields are taken by their index before
    anything is looked at. *)
Theorem challengeResponse_short_challenge
        (c : MapiConn) (challenge : list byte) :
  (List.length (Split (string_of_list_ascii challenge) ":") < 6)%nat ->
  challengeResponse challenge c = (Panic "index out of range", c).
Proof.
  intros Hshort. unfold challengeResponse.
  destruct (Split (string_of_list_ascii challenge) ":")
    as [| t0 [| t1 [| t2 [| t3 [| t4 [| t5 rest]]]]]];
    try reflexivity.
  cbn in Hshort. lia.
Qed.

End Challenge.

(** A server that speaks protocol 8, and one that offers RIPEMD160 only. *)
Lemma challengeResponse_refused_witness :
  let old := list_ascii_of_string "s4lt:merovingian:8:SHA1,MD5:LIT:SHA512:" in
  let odd := list_ascii_of_string "s4lt:merovingian:9:RIPEMD160:LIT:SHA512:" in
  challengeResponse (H := sampleHashes) old (sampleConn None)
  = (Err "mapi: we only speak protocol v9", sampleConn None)
  /\ challengeResponse (H := sampleHashes) odd (sampleConn None)
     = (Err "mapi: unsupported hash algorithm required for login RIPEMD160",
        sampleConn None).
Proof.
  intros old odd. split.
  - refine (proj1 (challengeResponse_refused (H := sampleHashes)
                     (sampleConn None) old "s4lt" "merovingian" "8" "SHA1,MD5"
                     "LIT" "SHA512" [""] eq_refl) _).
    discriminate.
  - refine (proj2 (proj2 (challengeResponse_refused (H := sampleHashes)
                     (sampleConn None) odd "s4lt" "merovingian" "9" "RIPEMD160"
                     "LIT" "SHA512" [""] eq_refl)) eq_refl eq_refl _ _);
      cbn; intros [E | []]; discriminate.
Defined.

(** A server that sends an empty block for its challenge. *)
Lemma challengeResponse_short_challenge_witness :
  challengeResponse (H := sampleHashes) [] (sampleConn None)
  = (Panic "index out of range", sampleConn None).
Proof.
  apply (challengeResponse_short_challenge (H := sampleHashes)).
  cbn. lia.
Defined.

(** *** Texts split at one byte *)

Lemma append_empty (s : string) : (s ++ "")%string = s.
Proof. induction s as [| c s IH]; [reflexivity |]. cbn. rewrite IH. reflexivity. Qed.

Lemma without_append (c : ascii) (s t : string) :
  without c (s ++ t) = without c s && without c t.
Proof.
  induction s as [| d s IH]; [reflexivity |].
  cbn [append without]. rewrite IH. apply andb_assoc.
Qed.

Lemma splitFrom_last (c : ascii) (s : string) :
  forall cur : string,
    without c s = true ->
    splitFrom (String c "") 0 cur s = [(cur ++ s)%string].
Proof.
  induction s as [| d s IH]; intros cur Hs.
  - cbn [splitFrom]. rewrite append_empty. reflexivity.
  - cbn [without] in Hs. apply andb_true_iff in Hs as [Hd Hs].
    apply negb_true_iff in Hd.
    cbn [splitFrom]. rewrite prefix_cons, Hd. cbn [andb].
    rewrite IH by exact Hs. rewrite append_assoc. reflexivity.
Qed.

Lemma splitFrom_field (c : ascii) (a : string) :
  forall cur b : string,
    without c a = true ->
    splitFrom (String c "") 0 cur (a ++ String c b)
    = (cur ++ a)%string :: splitFrom (String c "") 0 "" b.
Proof.
  induction a as [| d a IH]; intros cur b Ha.
  - cbn [append splitFrom]. rewrite prefix_cons, Ascii.eqb_refl, prefix_empty.
    cbn [andb String.length Nat.sub]. rewrite append_empty. reflexivity.
  - cbn [without] in Ha. apply andb_true_iff in Ha as [Hd Ha].
    apply negb_true_iff in Hd.
    cbn [append splitFrom]. rewrite prefix_cons, Hd. cbn [andb].
    rewrite IH by exact Ha. rewrite append_assoc. reflexivity.
Qed.

Lemma plain_parts (s : string) :
  plain s = true ->
  without " " s = true /\ without ":" s = true /\ without "/" s = true.
Proof.
  unfold plain. rewrite !andb_true_iff. tauto.
Qed.

(** The fields of the prompt of a redirect. *)
Lemma redirectTo_fields (host port db : string) :
  plain host = true -> plain port = true -> plain db = true ->
  Split (redirectTo host port db) " " = [redirectTo host port db]
  /\ suffixFrom (redirectTo host port db) 1
     = Some ("mapi:monetdb://" ++ host ++ ":" ++ port ++ "/" ++ db)%string
  /\ Split ("mapi:monetdb://" ++ host ++ ":" ++ port ++ "/" ++ db) ":"
     = ["mapi"; "monetdb"; ("//" ++ host)%string; (port ++ "/" ++ db)%string]
  /\ suffixFrom ("//" ++ host) 2 = Some host
  /\ Split (port ++ "/" ++ db) "/" = [port; db].
Proof.
  intros Hhost Hport Hdb.
  apply plain_parts in Hhost as (Hh1 & Hh2 & Hh3).
  apply plain_parts in Hport as (Hp1 & Hp2 & Hp3).
  apply plain_parts in Hdb as (Hd1 & Hd2 & Hd3).
  split; [| split; [| split; [| split]]].
  - unfold Split. rewrite splitFrom_last; [reflexivity |].
    unfold redirectTo.
    rewrite !without_append, Hh1, Hp1, Hd1. reflexivity.
  - exact (suffixFrom_append "^" _).
  - unfold Split.
    change ("mapi:monetdb://" ++ host ++ ":" ++ port ++ "/" ++ db)%string
      with ("mapi" ++ String ":" ("monetdb" ++ String ":"
              (("//" ++ host) ++ String ":" (port ++ "/" ++ db))))%string.
    rewrite splitFrom_field by reflexivity.
    rewrite splitFrom_field by reflexivity.
    rewrite splitFrom_field by (rewrite without_append, Hh2; reflexivity).
    rewrite splitFrom_last
      by (rewrite !without_append, Hp2, Hd2; reflexivity).
    reflexivity.
  - exact (suffixFrom_append "//" host).
  - unfold Split.
    change (port ++ "/" ++ db)%string with (port ++ String "/" db)%string.
    rewrite splitFrom_field by exact Hp3.
    rewrite splitFrom_last by exact Hd3. reflexivity.
Qed.

(** *** The prompt of the server *)

Section Prompt.

Context {H : Hashes} {N : Network}.

(** The steps of [tryLogin] up to the prompt. *)
Ltac to_prompt Hchallenge Hresponse Hput Hprompt :=
  cbn [tryLogin]; unfold bind at 1; rewrite Hchallenge;
  unfold bind at 1; rewrite Hresponse;
  unfold bind at 1; unfold discard, bind at 1, attempt at 1; rewrite Hput;
  unfold ret at 1; unfold bind at 1, attempt at 1; rewrite Hprompt.

(** X10.  The prompt that follows the response decides the login: on an
    empty prompt, on [=OK] and on a line of information [tryLogin] returns
    nil and the handle is ready; on a prompt that starts with [!] it returns
    the database error with the text after the mark, and the state of the
    handle stays as it was. *)
Theorem tryLogin_prompt
        (fuel : nat) (iteration : Z) (c c1 c2 : MapiConn)
        (challenge bprompt : list byte) (response : string) :
  getBlock c = (Ok challenge, c1) ->
  fst (challengeResponse challenge c1) = Ok response ->
  getBlock (snd (putBlock (bytes response) c1)) = (Ok bprompt, c2) ->
  let prompt := TrimSpace (string_of_list_ascii bprompt) in
  (prompt = "" \/ prompt = "=OK" \/ HasPrefix prompt "#" = true ->
   tryLogin (S fuel) iteration c = (Ok tt, set_State mapi_STATE_READY c2))
  /\ (forall msg : string,
        prompt = ("!" ++ msg)%string ->
        tryLogin (S fuel) iteration c
        = (Err ("mapi: database error: " ++ msg)%string, c2)
        /\ State c2 = State c).
Proof.
  intros Hchallenge Hresponse Hprompt prompt.
  destruct (onConn_connected _ _ _ _ Hchallenge) as [t Ht].
  pose proof (putBlock_ok (bytes response) c1 t Ht) as Hput.
  pose proof (challengeResponse_state challenge c1) as Hsame.
  assert (Hstate : State c1 = State c).
  { change c1 with (snd (Ok challenge, c1)). rewrite <- Hchallenge.
    apply onConn_State. }
  destruct (challengeResponse challenge c1) as [r1 c1'] eqn:Hc1.
  cbn [fst snd] in Hresponse, Hsame. subst r1 c1'.
  destruct (putBlock (bytes response) c1) as [r2 c2'] eqn:Hc2.
  cbn [fst] in Hput. subst r2. cbn [snd] in Hprompt.
  assert (Hstate2 : State c2' = State c1).
  { change c2' with (snd (Ok tt, c2')). rewrite <- Hc2. apply onConn_State. }
  assert (Hstate3 : State c2 = State c2').
  { change c2 with (snd (Ok bprompt, c2)). rewrite <- Hprompt.
    apply onConn_State. }
  unfold bytes in Hc2.
  split.
  - intros Hshape. to_prompt Hchallenge Hc1 Hc2 Hprompt.
    fold prompt.
    destruct (Z.of_nat (String.length prompt) =? 0) eqn:Hlen;
      [reflexivity |].
    destruct (prompt =? mapi_MSG_OK)%string eqn:Hok; [reflexivity |].
    destruct Hshape as [E | [E | E]].
    + rewrite E in Hlen. discriminate.
    + rewrite E in Hok. discriminate.
    + unfold mapi_MSG_INFO. rewrite E. reflexivity.
  - intros msg Hshape. split; [| congruence].
    to_prompt Hchallenge Hc1 Hc2 Hprompt.
    fold prompt. rewrite Hshape.
    cbn [append String.length]. rewrite Nat2Z.inj_succ.
    replace (Z.succ _ =? 0) with false by (symmetry; apply Z.eqb_neq; lia).
    unfold HasPrefix, mapi_MSG_OK, mapi_MSG_INFO, mapi_MSG_ERROR.
    rewrite !prefix_cons, !prefix_empty.
    change (String "!" msg =? "=OK")%string with false.
    change (Ascii.eqb "#" "!") with false.
    rewrite Ascii.eqb_refl. cbn [andb].
    unfold bind at 1. unfold bind at 1.
    rewrite (from_append "!" msg). reflexivity.
Qed.

(** X11.  The redirect to the server of a database: [tryLogin] takes host,
    port and database from the prompt, calls [Connect] and drops what it
    returns: an error of the new connection is not reported, the handle is
    set ready and nil is returned.  When nothing answers at the new address,
    the handle is ready and holds no connection. *)
Theorem tryLogin_redirect_result_dropped
        (fuel : nat) (iteration : Z) (c c1 c2 : MapiConn)
        (challenge bprompt : list byte) (response host port db : string) :
  getBlock c = (Ok challenge, c1) ->
  fst (challengeResponse challenge c1) = Ok response ->
  getBlock (snd (putBlock (bytes response) c1)) = (Ok bprompt, c2) ->
  TrimSpace (string_of_list_ascii bprompt) = redirectTo host port db ->
  plain host = true -> plain port = true -> plain db = true ->
  let c3 := redirected host port db c2 in
  (forall (e : string) (c4 : MapiConn),
      Connect fuel c3 = (Err e, c4) ->
      tryLogin (S fuel) iteration c = (Ok tt, set_State mapi_STATE_READY c4))
  /\ (forall c4 : MapiConn,
        Connect fuel c3 = (Ok tt, c4) ->
        tryLogin (S fuel) iteration c
        = (Ok tt, set_State mapi_STATE_READY c4))
  /\ (DialTCP host (ParseInt32 port) = None ->
      tryLogin (S fuel) iteration c
      = (Ok tt, set_State mapi_STATE_READY (set_conn None c3))).
Proof.
  intros Hchallenge Hresponse Hprompt Hredirect Hhost Hport Hdb c3.
  destruct (onConn_connected _ _ _ _ Hchallenge) as [t Ht].
  pose proof (putBlock_ok (bytes response) c1 t Ht) as Hput.
  pose proof (challengeResponse_state challenge c1) as Hsame.
  destruct (challengeResponse challenge c1) as [r1 c1'] eqn:Hc1.
  cbn [fst snd] in Hresponse, Hsame. subst r1 c1'.
  destruct (putBlock (bytes response) c1) as [r2 c2'] eqn:Hc2.
  cbn [fst] in Hput. subst r2. cbn [snd] in Hprompt.
  destruct (onConn_connected _ _ _ _ Hprompt) as [t2 Ht2].
  unfold bytes in Hc2.
  destruct (redirectTo_fields host port db Hhost Hport Hdb)
    as (Hwords & Hrest & Hfields & Hname & Haddr).
  assert (Hrun :
    tryLogin (S fuel) iteration c
    = (discard (Connect_with (tryLogin fuel 0)) ;;;
       modify (set_State mapi_STATE_READY) ;;; ret tt) c3).
  { to_prompt Hchallenge Hc1 Hc2 Hprompt.
    rewrite Hredirect, Hwords.
    replace (Z.of_nat (String.length (redirectTo host port db)) =? 0)
      with false by (unfold redirectTo; cbn [append String.length];
                     rewrite Nat2Z.inj_succ; symmetry; apply Z.eqb_neq; lia).
    change (redirectTo host port db =? mapi_MSG_OK)%string with false.
    change (HasPrefix (redirectTo host port db) mapi_MSG_INFO) with false.
    change (HasPrefix (redirectTo host port db) mapi_MSG_ERROR) with false.
    change (HasPrefix (redirectTo host port db) mapi_MSG_REDIRECT) with true.
    cbv iota.
    unfold bind, index, from. cbn [Z.ltb Z.compare Z.to_nat nth_error ret].
    rewrite Hrest. unfold ret at 1. rewrite Hfields.
    change (Pos.to_nat 1) with 1%nat. change (Pos.to_nat 2) with 2%nat.
    change (Pos.to_nat 3) with 3%nat.
    cbn [nth_error ret].
    change ("monetdb" =? "merovingian")%string with false.
    change ("monetdb" =? "monetdb")%string with true.
    cbv iota. rewrite Hname. unfold ret at 1, modify at 1.
    rewrite Haddr. cbn [nth_error ret modify].
    unfold onConn. cbn [conn set_Database set_Port set_Hostname].
    rewrite Ht2. unfold Transport.Close, ret at 1.
    replace (set_conn (Some t2)
               (set_Database db
                  (set_Port (ParseInt32 port) (set_Hostname host c2))))
      with c3; [reflexivity |].
    unfold c3, redirected. destruct c2. cbn in Ht2. subst. reflexivity. }
  rewrite Hrun. clear Hrun.
  fold (login fuel). fold (Connect fuel).
  repeat split.
  - intros e c4 Hconnect.
    unfold bind at 1, discard, bind at 1, attempt. rewrite Hconnect.
    reflexivity.
  - intros c4 Hconnect.
    unfold bind at 1, discard, bind at 1, attempt. rewrite Hconnect.
    reflexivity.
  - intros Hdial.
    unfold bind at 1, discard, bind at 1, attempt.
    unfold Connect, Connect_with, bind at 1, modify at 1, bind at 1, get at 1.
    cbn [Hostname Port set_conn c3 redirected set_Database set_Port
         set_Hostname].
    rewrite Hdial. reflexivity.
Qed.

End Prompt.

(** A server that refuses the password, and one that accepts it. *)
Lemma tryLogin_prompt_witness :
  let handle prompt :=
    sampleConn (Some (mkTCPConn (promptingServer prompt) [])) in
  let refused :=
    tryLogin (H := sampleHashes) (N := silentNetwork) 1 0
             (handle "!wrong password") in
  let accepted :=
    tryLogin (H := sampleHashes) (N := silentNetwork) 1 0 (handle "=OK") in
  (fst refused = Err "mapi: database error: wrong password"
   /\ State (snd refused) = mapi_STATE_INIT)
  /\ (fst accepted = Ok tt /\ State (snd accepted) = mapi_STATE_READY).
Proof.
  intros handle refused accepted.
  set (response := "BIG:monetdb:{SHA1}7937383730373773346c74:sql:demo:").
  split.
  - set (c := handle "!wrong password").
    set (c1 := snd (getBlock c)).
    set (c2 := snd (getBlock (snd (putBlock (bytes response) c1)))).
    assert (H1 : getBlock c = (Ok (bytes sampleChallenge), c1))
      by (vm_compute; reflexivity).
    assert (H2 : fst (challengeResponse (H := sampleHashes)
                        (bytes sampleChallenge) c1) = Ok response)
      by (vm_compute; reflexivity).
    assert (H3 : getBlock (snd (putBlock (bytes response) c1))
                 = (Ok (bytes "!wrong password"), c2))
      by (vm_compute; reflexivity).
    destruct (tryLogin_prompt (H := sampleHashes) (N := silentNetwork)
                0 0 c c1 c2 _ _ response H1 H2 H3) as [_ Herr].
    destruct (Herr "wrong password" eq_refl) as [Hrun Hstate].
    unfold refused. fold c. rewrite Hrun. split; [reflexivity |].
    exact Hstate.
  - set (c := handle "=OK").
    set (c1 := snd (getBlock c)).
    set (c2 := snd (getBlock (snd (putBlock (bytes response) c1)))).
    assert (H1 : getBlock c = (Ok (bytes sampleChallenge), c1))
      by (vm_compute; reflexivity).
    assert (H2 : fst (challengeResponse (H := sampleHashes)
                        (bytes sampleChallenge) c1) = Ok response)
      by (vm_compute; reflexivity).
    assert (H3 : getBlock (snd (putBlock (bytes response) c1))
                 = (Ok (bytes "=OK"), c2))
      by (vm_compute; reflexivity).
    destruct (tryLogin_prompt (H := sampleHashes) (N := silentNetwork)
                0 0 c c1 c2 _ _ response H1 H2 H3) as [Hok _].
    unfold accepted. fold c.
    rewrite (Hok (or_intror (or_introl eq_refl))). split; reflexivity.
Defined.

(** A proxy that sends the login to a server where nothing answers. *)
Lemma tryLogin_redirect_result_dropped_witness :
  let c := set_conn
             (Some (mkTCPConn
                      (promptingServer
                         (redirectTo "db.example.org" "50001" "demo")) []))
             (sampleConn None) in
  let r := tryLogin (H := sampleHashes) (N := proxyNetwork) 1 0 c in
  DialTCP (Network := proxyNetwork) "db.example.org" 50001 = None
  /\ fst r = Ok tt
  /\ State (snd r) = mapi_STATE_READY
  /\ conn (snd r) = None
  /\ (Hostname (snd r), Port (snd r), Database (snd r))
     = ("db.example.org", 50001, "demo").
Proof.
  intros c r.
  set (response := "BIG:monetdb:{SHA1}7937383730373773346c74:sql:demo:").
  set (c1 := snd (getBlock c)).
  set (c2 := snd (getBlock (snd (putBlock (bytes response) c1)))).
  assert (H1 : getBlock c = (Ok (bytes sampleChallenge), c1))
    by (vm_compute; reflexivity).
  assert (H2 : fst (challengeResponse (H := sampleHashes)
                      (bytes sampleChallenge) c1) = Ok response)
    by (vm_compute; reflexivity).
  assert (H3 : getBlock (snd (putBlock (bytes response) c1))
               = (Ok (bytes (redirectTo "db.example.org" "50001" "demo")),
                  c2))
    by (vm_compute; reflexivity).
  assert (H4 : TrimSpace
                 (string_of_list_ascii
                    (bytes (redirectTo "db.example.org" "50001" "demo")))
               = redirectTo "db.example.org" "50001" "demo")
    by (vm_compute; reflexivity).
  destruct (tryLogin_redirect_result_dropped
              (H := sampleHashes) (N := proxyNetwork) 0 0 c c1 c2 _ _ response
              "db.example.org" "50001" "demo" H1 H2 H3 H4
              eq_refl eq_refl eq_refl) as (_ & _ & Hrun).
  split; [reflexivity |].
  unfold r. rewrite (Hrun eq_refl). repeat split.
Defined.

End LoginFacts.

(** ** More about the response parser: the fields of a tuple, the schema,
    update lines, lines that make a pass panic, and how a pass ends *)

Module ResponseFacts.

Import ParserSpec.
Import ParserFacts.
Import ResponseSpec.
Import LoginSpec.
Import LoginFacts.
Import CommandFacts.

Section Lines.

Context {C : Codec}.

(** *** The fields of a tuple *)

Lemma index_at {S A} (pre : list A) (x : A) (post : list A) (s : S) :
  Mapi.index (pre ++ x :: post) (len pre) s = (Ok x, s).
Proof.
  unfold Mapi.index.
  replace (len pre <? 0) with false
    by (symmetry; apply Z.ltb_ge; apply len_nonneg).
  unfold len. rewrite Nat2Z.id, nth_error_app2 by lia.
  rewrite Nat.sub_diag. reflexivity.
Qed.

Lemma len_snoc {A} (pre : list A) (x : A) : len (pre ++ [x]) = len pre + 1.
Proof. rewrite len_app. reflexivity. Qed.

(** The loop of [parseTuple] returns the first outcome that is not a value,
    or all the values. *)
Lemma parseTuple_loop_conversions {S} (items : list string) :
  forall (pre cols : list TableElement) (s : S),
    List.length items = List.length cols ->
    (forall vs : list Value,
        conversions cols items = map Ok vs ->
        parseTuple_loop (pre ++ cols) items (len pre) s = (Ok vs, s))
    /\ (forall (vs : list Value) (e : string) (rest : list (outcome Value)),
          conversions cols items = map Ok vs ++ Err e :: rest ->
          parseTuple_loop (pre ++ cols) items (len pre) s = (Err e, s))
    /\ (forall (vs : list Value) (w : string) (rest : list (outcome Value)),
          conversions cols items = map Ok vs ++ Panic w :: rest ->
          parseTuple_loop (pre ++ cols) items (len pre) s = (Panic w, s)).
Proof.
  induction items as [| value items IH]; intros pre cols s Hlen.
  - destruct cols; [| discriminate]. cbn [conversions combine map].
    repeat split.
    + intros [| v vs] Hvs; [reflexivity | discriminate].
    + intros [| v vs] e rest Hvs; discriminate.
    + intros [| v vs] w rest Hvs; discriminate.
  - destruct cols as [| col cols]; [discriminate |].
    injection Hlen as Hlen.
    specialize (IH (pre ++ [col]) cols s Hlen).
    rewrite <- app_assoc, len_snoc in IH. cbn [app] in IH.
    destruct IH as (IHok & IHerr & IHpanic).
    unfold conversions in *. cbn [combine map].
    assert (Hstep :
      parseTuple_loop (pre ++ col :: cols) (value :: items) (len pre) s
      = match convertToGo value (ColumnType col) with
        | Ok a =>
            (v <- parseTuple_loop (pre ++ col :: cols) items (len pre + 1) ;;
             ret (a :: v)) s
        | Err e => (Err e, s)
        | Panic w => (Panic w, s)
        | Timeout => (Timeout, s)
        end).
    { cbn [parseTuple_loop]. unfold bind at 1. rewrite index_at.
      unfold bind at 1, lift at 1. reflexivity. }
    rewrite Hstep. clear Hstep.
    repeat split.
    + intros [| v vs] Hvs; [discriminate |].
      cbn [map] in Hvs. injection Hvs as Hv Hvs. rewrite Hv.
      unfold bind. rewrite (IHok vs Hvs). reflexivity.
    + intros [| v vs] e rest Hvs; cbn [map app] in Hvs;
        injection Hvs as Hv Hvs; rewrite Hv; [reflexivity |].
      unfold bind. rewrite (IHerr vs e rest Hvs). reflexivity.
    + intros [| v vs] w rest Hvs; cbn [map app] in Hvs;
        injection Hvs as Hv Hvs; rewrite Hv; [reflexivity |].
      unfold bind. rewrite (IHpanic vs w rest Hvs). reflexivity.
Qed.

(** X12.  A tuple line with as many fields as the schema has columns: the
    interior of the line, split at a comma and a tab, is converted field by
    field with the type of the column of the same place.  [parseTuple]
    returns the values in the order of the fields when every conversion
    gives one, and the error of the first conversion that fails; the query
    is not changed. *)
Theorem parseTuple_fields
        (q : query) (p : ptr) (s : ResultSet) (line inner : string) :
  load p q = (Ok s, q) ->
  substr line 1 (Z.of_nat (String.length line) - 1) = Some inner ->
  List.length (Split inner tupleSeparator) = List.length (Schema s) ->
  let outcomes := conversions (Schema s) (Split inner tupleSeparator) in
  (forall vs : list Value,
      outcomes = map Ok vs -> parseTuple p line q = (Ok vs, q))
  /\ (forall (vs : list Value) (e : string) (rest : list (outcome Value)),
        outcomes = map Ok vs ++ Err e :: rest ->
        parseTuple p line q = (Err e, q)).
Proof.
  intros Hload Hinner Hlen outcomes.
  assert (Hrun : parseTuple p line q
                 = parseTuple_loop (Schema s) (Split inner tupleSeparator) 0 q).
  { unfold parseTuple, Mapi.between. rewrite Hinner.
    unfold bind at 1, ret at 1. unfold bind at 1. rewrite Hload.
    fold tupleSeparator.
    replace (len (Split inner tupleSeparator) =? len (Schema s)) with true
      by (symmetry; apply Z.eqb_eq; unfold len; lia).
    reflexivity. }
  rewrite Hrun.
  destruct (parseTuple_loop_conversions (Split inner tupleSeparator) []
              (Schema s) q Hlen) as (Hok & Herr & _).
  split; [exact Hok | exact Herr].
Qed.

(** *** The schema and the names of the columns *)

Lemma index_nth {S A} (a : list A) (i : nat) (d : A) (s : S) :
  (i < List.length a)%nat ->
  Mapi.index a (Z.of_nat i) s = (Ok (nth i a d), s).
Proof.
  intros Hi. unfold Mapi.index.
  replace (Z.of_nat i <? 0) with false by (symmetry; apply Z.ltb_ge; lia).
  rewrite Nat2Z.id.
  rewrite (nth_error_nth' a d Hi). reflexivity.
Qed.

Lemma index_beyond {S A} (a : list A) (i : nat) (s : S) :
  (List.length a <= i)%nat ->
  Mapi.index a (Z.of_nat i) s = (Panic "index out of range", s).
Proof.
  intros Hi. unfold Mapi.index.
  replace (Z.of_nat i <? 0) with false by (symmetry; apply Z.ltb_ge; lia).
  rewrite Nat2Z.id.
  apply nth_error_None in Hi. rewrite Hi. reflexivity.
Qed.

Lemma skipn_cons_nth {A} (a : list A) (d : A) :
  forall (i : nat) (x : A) (rest : list A),
    skipn i a = x :: rest ->
    nth i a d = x /\ skipn (S i) a = rest /\ (i < List.length a)%nat.
Proof.
  induction a as [| y a IH]; intros i x rest Hskip.
  - destruct i; discriminate.
  - destruct i as [| i].
    + cbn in Hskip. injection Hskip as -> ->. cbn. auto with arith.
    + cbn [skipn] in Hskip. destruct (IH i x rest Hskip) as (Hn & Hs & Hl).
      cbn [nth List.length]. repeat split; [exact Hn | exact Hs | lia].
Qed.

Lemma updateSchema_loop_wide {St} (l : locals) (names : list string) :
  forall (i : nat) (s : St),
    skipn i (columnNames l) = names ->
    wideEnough l ->
    updateSchema_loop names (Z.of_nat i) l s
    = (Ok (map (element l) (seq i (List.length names))), s).
Proof.
  induction names as [| name names IH]; intros i s Hskip Hwide;
    [reflexivity |].
  destruct (skipn_cons_nth _ "" i name names Hskip) as (Hname & Hrest & Hi).
  destruct Hwide as (H1 & H2 & H3 & H4 & H5 & H6).
  cbn [updateSchema_loop].
  unfold bind at 1. rewrite (index_nth _ i "") by lia.
  unfold bind at 1. rewrite (index_nth _ i 0) by lia.
  unfold bind at 1. rewrite (index_nth _ i 0) by lia.
  unfold bind at 1. rewrite (index_nth _ i 0) by lia.
  unfold bind at 1. rewrite (index_nth _ i 0) by lia.
  unfold bind at 1. rewrite (index_nth _ i 0) by lia.
  unfold bind at 1.
  replace (Z.of_nat i + 1) with (Z.of_nat (S i)) by lia.
  rewrite (IH (S i) s Hrest) by (repeat split; assumption).
  cbn [List.length seq map]. unfold element at 2. rewrite Hname.
  reflexivity.
Qed.

Lemma updateSchema_loop_narrow {St} (l : locals) (names : list string) :
  forall (i : nat) (s : St),
    skipn i (columnNames l) = names ->
    (i <= List.length (columnTypes l))%nat ->
    (i <= List.length (displaySizes l))%nat ->
    (i <= List.length (internalSizes l))%nat ->
    (i <= List.length (precisions l))%nat ->
    (i <= List.length (scales l))%nat ->
    (i <= List.length (nullOks l))%nat ->
    ~ wideEnough l ->
    updateSchema_loop names (Z.of_nat i) l s
    = (Panic "index out of range", s).
Proof.
  induction names as [| name names IH];
    intros i s Hskip H1 H2 H3 H4 H5 H6 Hnarrow.
  - exfalso. apply Hnarrow.
    assert (Hn : (List.length (columnNames l) <= i)%nat).
    { destruct (Nat.le_gt_cases (List.length (columnNames l)) i) as [Hle | Hgt];
        [exact Hle |].
      pose proof (length_skipn i (columnNames l)) as Hlen.
      rewrite Hskip in Hlen. cbn in Hlen. lia. }
    unfold wideEnough. repeat split; lia.
  - destruct (skipn_cons_nth _ "" i name names Hskip) as (_ & Hrest & Hi).
    cbn [updateSchema_loop].
    unfold bind at 1.
    destruct (Nat.le_gt_cases (List.length (columnTypes l)) i) as [E | E];
      [rewrite index_beyond by exact E; reflexivity |].
    rewrite (index_nth _ i "") by exact E.
    unfold bind at 1.
    destruct (Nat.le_gt_cases (List.length (displaySizes l)) i) as [E2 | E2];
      [rewrite index_beyond by exact E2; reflexivity |].
    rewrite (index_nth _ i 0) by exact E2.
    unfold bind at 1.
    destruct (Nat.le_gt_cases (List.length (internalSizes l)) i) as [E3 | E3];
      [rewrite index_beyond by exact E3; reflexivity |].
    rewrite (index_nth _ i 0) by exact E3.
    unfold bind at 1.
    destruct (Nat.le_gt_cases (List.length (precisions l)) i) as [E4 | E4];
      [rewrite index_beyond by exact E4; reflexivity |].
    rewrite (index_nth _ i 0) by exact E4.
    unfold bind at 1.
    destruct (Nat.le_gt_cases (List.length (scales l)) i) as [E5 | E5];
      [rewrite index_beyond by exact E5; reflexivity |].
    rewrite (index_nth _ i 0) by exact E5.
    unfold bind at 1.
    destruct (Nat.le_gt_cases (List.length (nullOks l)) i) as [E6 | E6];
      [rewrite index_beyond by exact E6; reflexivity |].
    rewrite (index_nth _ i 0) by exact E6.
    unfold bind at 1.
    replace (Z.of_nat i + 1) with (Z.of_nat (S i)) by lia.
    rewrite (IH (S i) s Hrest) by (assumption || lia). reflexivity.
Qed.

Lemma described_elements (l : locals) :
  described l = map (element l) (seq 0 (List.length (columnNames l))).
Proof. reflexivity. Qed.

Lemma map_nth_seq {A} (a : list A) (d : A) :
  map (fun i => nth i a d) (seq 0 (List.length a)) = a.
Proof.
  induction a as [| x a IH]; [reflexivity |].
  cbn [List.length seq map nth]. f_equal.
  rewrite <- seq_shift, map_map. exact IH.
Qed.

Lemma described_names (l : locals) :
  map ColumnName (described l) = columnNames l.
Proof.
  unfold described. rewrite map_map. unfold element. cbn [ColumnName].
  apply map_nth_seq.
Qed.

Lemma update_at {A} (f : A -> A) (pre : list A) (x : A) (post : list A) :
  update (List.length pre) f (pre ++ x :: post) = pre ++ f x :: post.
Proof.
  induction pre as [| y pre IH]; [reflexivity |].
  cbn [List.length app update]. rewrite IH. reflexivity.
Qed.

Lemma nth_error_update {A} (f : A -> A) (a : list A) :
  forall (i : nat) (x : A),
    nth_error a i = Some x -> nth_error (update i f a) i = Some (f x).
Proof.
  induction a as [| y a IH]; intros i x Hx; [destruct i; discriminate |].
  destruct i as [| i]; cbn in *; [congruence | apply IH, Hx].
Qed.

Lemma update_twice {A} (f g : A -> A) (a : list A) :
  forall i : nat,
    update i g (update i f a) = update i (fun x => g (f x)) a.
Proof.
  induction a as [| y a IH]; intros i; [destruct i; reflexivity |].
  destruct i as [| i]; cbn; [reflexivity | rewrite IH; reflexivity].
Qed.

Lemma Columns_loop_names {S} (schema : list TableElement) :
  forall (pre post : list string) (s : S),
    List.length post = List.length schema ->
    Columns_loop schema (len pre) (pre ++ post) s
    = (Ok (pre ++ map ColumnName schema), s).
Proof.
  induction schema as [| d schema IH]; intros pre post s Hlen.
  - destruct post; [| discriminate]. reflexivity.
  - destruct post as [| x post]; [discriminate |]. injection Hlen as Hlen.
    cbn [Columns_loop]. unfold bind, setIndex.
    replace ((0 <=? len pre) && (len pre <? len (pre ++ x :: post)))
      with true.
    2:{ symmetry. apply andb_true_iff.
        split; [apply Z.leb_le | apply Z.ltb_lt];
          rewrite ?len_app; unfold len; cbn [List.length]; lia. }
    unfold ret at 1.
    replace (Z.to_nat (len pre)) with (List.length pre) by (unfold len; lia).
    rewrite update_at.
    specialize (IH (pre ++ [ColumnName d]) post s Hlen).
    rewrite len_snoc, <- !app_assoc in IH. exact IH.
Qed.

(** The current resultset of a query: reading it, and writing to it. *)
Lemma load_current (q : query) (s : ResultSet) :
  currentIs q s -> load (Some (Z.to_nat (currentResultSet q))) q = (Ok s, q).
Proof. intros Hs. apply Result_current, Hs. Qed.

Lemma store_current (q : query) (s : ResultSet) (f : ResultSet -> ResultSet) :
  currentIs q s ->
  store (Some (Z.to_nat (currentResultSet q))) f q = (Ok tt, withCurrent f q).
Proof.
  intros [_ Hs]. unfold store, bind, get. rewrite Hs. reflexivity.
Qed.

Lemma withCurrent_current (q : query) (s : ResultSet)
      (f : ResultSet -> ResultSet) :
  currentIs q s -> currentIs (withCurrent f q) (f s).
Proof.
  intros [Hcur Hs]. split; [exact Hcur |].
  unfold withCurrent. cbn [resultSets currentResultSet set_resultSets].
  apply nth_error_update, Hs.
Qed.

Lemma withCurrent_twice (q : query) (f g : ResultSet -> ResultSet) :
  withCurrent g (withCurrent f q) = withCurrent (fun s => g (f s)) q.
Proof.
  unfold withCurrent. cbn [resultSets currentResultSet set_resultSets].
  rewrite update_twice. reflexivity.
Qed.

Lemma Columns_current (q : query) (s : ResultSet) :
  currentIs q s ->
  Columns (Some (Z.to_nat (currentResultSet q))) q
  = (Ok (map ColumnName (Schema s)), q).
Proof.
  intros Hs. unfold Columns. unfold bind at 1.
  rewrite (load_current q s Hs).
  unfold bind, makeSlice.
  replace (len (Schema s) <? 0) with false
    by (symmetry; apply Z.ltb_ge; apply len_nonneg).
  unfold ret at 1.
  pose proof (Columns_loop_names (Schema s) []
                (repeat "" (Z.to_nat (len (Schema s)))) q) as Hloop.
  cbn [app] in Hloop. change (len (@nil string)) with 0 in Hloop.
  rewrite Hloop by (rewrite repeat_length; unfold len; lia).
  reflexivity.
Qed.

(** X13.  The schema of a resultset is made from the local variables of the
    pass by index: when the six other slices are as long as the list of
    names at least, [updateSchema] stores one element for every name, with
    the values of the same index, and [Columns] on the resultset gives the
    names back in their order; when one of the slices is shorter than the
    list of names, [updateSchema] panics and the query is not changed. *)
Theorem updateSchema_Columns (q : query) (s : ResultSet) (l : locals) :
  currentIs q s ->
  let p := Some (Z.to_nat (currentResultSet q)) in
  let q' := withCurrent (set_Schema (described l)) q in
  (wideEnough l ->
   updateSchema p l q = (Ok tt, q')
   /\ Columns p q' = (Ok (columnNames l), q')
   /\ List.length (described l) = List.length (columnNames l))
  /\ (~ wideEnough l ->
      updateSchema p l q = (Panic "index out of range", q)).
Proof.
  intros Hs p q'. split.
  - intros Hwide. split; [| split].
    + unfold updateSchema, bind.
      pose proof (updateSchema_loop_wide l (columnNames l) 0 q eq_refl Hwide)
        as Hloop.
      change (Z.of_nat 0) with 0 in Hloop. rewrite Hloop.
      rewrite <- described_elements. apply (store_current q s), Hs.
    + pose proof (withCurrent_current q s (set_Schema (described l)) Hs)
        as Hs'.
      fold q' in Hs'.
      replace p with (Some (Z.to_nat (currentResultSet q'))) by reflexivity.
      rewrite (Columns_current q' _ Hs'). cbn [Schema set_Schema].
      rewrite described_names. reflexivity.
    + unfold described. rewrite length_map, length_seq. reflexivity.
  - intros Hnarrow. unfold updateSchema, bind.
    pose proof (updateSchema_loop_narrow l (columnNames l) 0 q eq_refl
                  ltac:(lia) ltac:(lia) ltac:(lia) ltac:(lia) ltac:(lia)
                  ltac:(lia) Hnarrow) as Hloop.
    change (Z.of_nat 0) with 0 in Hloop. rewrite Hloop.
    reflexivity.
Qed.

(** *** Update lines *)

Lemma from_suffix {St} (line rest : string) (lo : Z) (s : St) :
  suffixFrom line lo = Some rest -> Mapi.from line lo s = (Ok rest, s).
Proof. intros Hrest. unfold Mapi.from. rewrite Hrest. reflexivity. Qed.

(** X14.  An update line, [&2] with the number of rows and the last row id:
    on a query without a resultset it adds one and the pass notes that; on
    a query that has a current resultset it adds none and puts the two
    numbers into the current one, whose rows and schema stay: the row count
    of a table that came before in the same response is overwritten. *)
Theorem storeUpdate_current
        (q : query) (l : locals) (line rest a b : string)
        (more : list string) :
  suffixFrom line 2 = Some rest ->
  Split (TrimSpace rest) " " = a :: b :: more ->
  let counts s :=
    on_Metadata (set_LastRowId (fst (Atoi b)))
                (on_Metadata (set_RowCount (fst (Atoi a))) s) in
  (forall s : ResultSet,
      currentIs q s ->
      storeUpdate line l q = (Ok (Continue l), withCurrent counts q))
  /\ (currentResultSet q = -1 -> resultSets q = [] ->
      storeUpdate line l q
      = (Ok (Continue (set_added l)),
         set_currentResultSet 0
           (set_resultSets
              [counts (on_Metadata (set_ExecId (-1)) emptyResultSet)] q))).
Proof.
  intros Hrest Hwords counts. split.
  - intros s Hs.
    pose proof Hs as [Hcur _].
    unfold storeUpdate. unfold bind at 1, get at 1.
    replace (currentResultSet q =? -1) with false
      by (symmetry; apply Z.eqb_neq; lia).
    unfold bind at 1, ret at 1.
    unfold bind at 1. rewrite (from_suffix line rest 2 q Hrest).
    rewrite Hwords.
    unfold bind at 1. rewrite (proj1 (Result_current q s Hs)).
    unfold bind at 1, Mapi.index at 1. cbn [Z.ltb Z.compare Z.to_nat nth_error].
    unfold ret at 1.
    unfold bind at 1. rewrite (store_current q s _ Hs).
    pose proof (withCurrent_current q s
                  (on_Metadata (set_RowCount (fst (Atoi a)))) Hs) as Hs1.
    set (q1 := withCurrent _ q) in *.
    unfold bind at 1. rewrite (proj1 (Result_current q1 _ Hs1)).
    unfold bind at 1, Mapi.index at 1.
    change (Z.to_nat 1) with 1%nat. cbn [Z.ltb Z.compare nth_error].
    unfold ret at 1.
    unfold bind at 1. rewrite (store_current q1 _ _ Hs1).
    unfold q1. rewrite withCurrent_twice. reflexivity.
  - intros Hcur Hnone.
    unfold storeUpdate. unfold bind at 1, get at 1. rewrite Hcur.
    change (-1 =? -1) with true. cbv iota.
    unfold bind at 1. unfold bind at 1.
    unfold newResultSet, bind at 1, modify at 1, modify at 1, ret at 1.
    unfold bind at 1. rewrite (from_suffix line rest 2 _ Hrest).
    rewrite Hwords.
    destruct q as [m text sets cur]. cbn in Hcur, Hnone. subst cur sets.
    reflexivity.
Qed.

(** *** Lines that make a pass panic *)

(** The kind of a line that starts with a mark of one byte. *)
Lemma getLineType_mark (c : ascii) (rest : string) :
  Ascii.eqb c "&" = false ->
  getLineType (String c rest)
  = if Ascii.eqb c "#" then INFO
    else if Ascii.eqb c "!" then ERROR
    else if Ascii.eqb c "[" then TUPLE
    else if Ascii.eqb c "%" then HEADER
    else UNKNOWN.
Proof.
  intros Hc.
  unfold getLineType, HasPrefix, mapi_MSG_PROMPT, mapi_MSG_INFO,
    mapi_MSG_ERROR, mapi_MSG_QPREPARE, mapi_MSG_QTABLE, mapi_MSG_TUPLE,
    mapi_MSG_QBLOCK, mapi_MSG_QSCHEMA, mapi_MSG_QUPDATE, mapi_MSG_QTRANS,
    mapi_MSG_HEADER.
  cbn [String.eqb].
  rewrite !(HandshakeFacts.prefix_cons _ c), !HandshakeFacts.prefix_empty.
  rewrite !(Ascii.eqb_sym _ c), Hc. cbn [andb].
  destruct (Ascii.eqb c "#"); [reflexivity |].
  destruct (Ascii.eqb c "!"); [reflexivity |].
  destruct (Ascii.eqb c "["); [reflexivity |].
  destruct (Ascii.eqb c "%"); reflexivity.
Qed.

Lemma Result_none (q : query) :
  currentResultSet q = -1 -> Result q = (Ok None, q).
Proof.
  intros Hcur. unfold Result, bind, get. rewrite Hcur. reflexivity.
Qed.

Lemma Result_some (q : query) :
  cursorInRange q -> exists p : ptr, Result q = (Ok p, q).
Proof.
  intros Hin. rewrite (Result_inRange q Hin). eauto.
Qed.

(** X15.  Lines that make [StoreResult] panic when a pass gets to them: a
    tuple line that is the bracket alone (the interior is cut out before it
    is looked at); a tuple line when the query has no resultset yet (no
    table line came before); and a header line without [#], of which the
    second part is taken.  The query is as it was before the line. *)
Theorem StoreResult_panics
        (q : query) (r : string) (pre : list string) (line : string)
        (post : list string) (l1 : locals) (q1 : query) :
  reachable q ->
  Split r newline = pre ++ line :: post ->
  storeLines pre locals0 q = (Ok (Continue l1), q1) ->
  (line = mapi_MSG_TUPLE ->
   StoreResult r q = (Panic "slice bounds out of range", q1))
  /\ (getLineType line = TUPLE ->
      (2 <= String.length line)%nat ->
      currentResultSet q1 = -1 ->
      StoreResult r q = (Panic "nil pointer dereference", q1))
  /\ (forall rest : string,
        line = (mapi_MSG_HEADER ++ rest)%string ->
        without "#" rest = true ->
        StoreResult r q = (Panic "index out of range", q1)).
Proof.
  intros Hreach Hsplit Hpre.
  pose proof (storeLines_reaches q pre l1 q1
                (reachable_cursorInRange q Hreach) Hpre) as [Hin _].
  rewrite (StoreResult_at_line q r pre line post l1 q1 Hsplit Hpre).
  split; [| split].
  - intros ->. destruct (Result_some q1 Hin) as [p Hp].
    unfold storeLine. change (getLineType mapi_MSG_TUPLE) with TUPLE.
    unfold storeTuple, bind at 1. rewrite Hp. reflexivity.
  - intros Hline Hlong Hcur.
    unfold storeLine. rewrite Hline.
    unfold storeTuple, bind at 1. rewrite (Result_none q1 Hcur).
    unfold bind at 1, parseTuple, bind at 1, Mapi.between, substr.
    replace ((0 <=? 1) && (1 <=? Z.of_nat (String.length line) - 1)
             && (Z.of_nat (String.length line) - 1
                 <=? Z.of_nat (String.length line))) with true
      by (symmetry; rewrite !andb_true_iff, !Z.leb_le; lia).
    reflexivity.
  - intros rest -> Hrest.
    unfold storeLine.
    change (mapi_MSG_HEADER ++ rest)%string with (String "%" rest).
    rewrite getLineType_mark by reflexivity. cbn [Ascii.eqb Bool.eqb andb].
    unfold storeHeader, bind at 1.
    rewrite (from_append mapi_MSG_HEADER rest).
    unfold Split. rewrite (splitFrom_last "#" rest "" Hrest).
    reflexivity.
Qed.

(** *** How a pass ends without a prompt *)

Lemma storeLines_info (lines : list string) :
  forall (l : locals) (q : query),
    storeLines lines l q
    = storeLines (filter (fun line => negb (HasPrefix line mapi_MSG_INFO))
                         lines) l q.
Proof.
  induction lines as [| line lines IH]; intros l q; [reflexivity |].
  cbn [filter]. destruct (HasPrefix line mapi_MSG_INFO) eqn:Hinfo;
    cbn [negb].
  - cbn [storeLines]. unfold storeLine, getLineType.
    destruct line as [| c line]; [discriminate |].
    cbn [String.eqb mapi_MSG_PROMPT]. rewrite Hinfo.
    unfold bind, ret. apply IH.
  - cbn [storeLines]. unfold bind.
    destruct (storeLine line l q) as [[[l' |] | e | w |] q']; auto.
Qed.

(** X16.  How a pass ends when it is not by a prompt or a prepare line.  A
    line that starts with [!] ends it with the database error and the text
    after the mark; the resultsets the pass has added stay, and the cursor
    is not moved to the first of them.  When no line ends the pass,
    [StoreResult] returns the error of the unknown state, with the whole
    response, although every line has been stored.  Lines of information
    make no difference to the pass. *)
Theorem StoreResult_ends
        (q : query) (r : string) (pre : list string) (post : list string)
        (l1 : locals) (q1 : query) (msg : string) :
  (Split r newline = pre ++ ("!" ++ msg)%string :: post ->
   storeLines pre locals0 q = (Ok (Continue l1), q1) ->
   StoreResult r q = (Err ("mapi: database error: " ++ msg)%string, q1))
  /\ (storeLines (Split r newline) locals0 q = (Ok (Continue l1), q1) ->
      StoreResult r q = (Err ("mapi: unknown state: " ++ r)%string, q1))
  /\ StoreResult r q
     = StoreResult_loop r
         (filter (fun line => negb (HasPrefix line mapi_MSG_INFO))
                 (Split r newline))
         locals0 q.
Proof.
  split; [| split].
  - intros Hsplit Hpre.
    rewrite (StoreResult_at_line q r pre _ post l1 q1 Hsplit Hpre).
    unfold storeLine. change ("!" ++ msg)%string with (String "!" msg).
    rewrite getLineType_mark by reflexivity. cbn [Ascii.eqb Bool.eqb andb].
    change (String "!" msg) with ("!" ++ msg)%string.
    unfold bind. rewrite (from_append "!" msg). reflexivity.
  - intros Hall. unfold StoreResult.
    rewrite StoreResult_loop_storeLines, Hall. reflexivity.
  - unfold StoreResult.
    rewrite !StoreResult_loop_storeLines, <- storeLines_info. reflexivity.
Qed.

End Lines.

(** *** Examples *)

(** The second row of a table of two columns. *)
Lemma parseTuple_fields_witness :
  let q := snd (StoreResult (C := sampleCodec) (response oneTable)
                            (NewQuery None "select * from t")) in
  parseTuple (Some 0%nat) (tupleLine ["2"; "b"]) q
  = (Ok [" 2"; ("b" ++ tab)%string], q).
Proof.
  intros q.
  set (s := hd emptyResultSet (resultSets q)).
  assert (Hload : load (Some 0%nat) q = (Ok s, q)) by reflexivity.
  assert (Hinner : substr (tupleLine ["2"; "b"])
                          1 (Z.of_nat (String.length (tupleLine ["2"; "b"])) - 1)
                   = Some (" 2," ++ tab ++ "b" ++ tab)%string)
    by (vm_compute; reflexivity).
  assert (Hlen : List.length (Split (" 2," ++ tab ++ "b" ++ tab) tupleSeparator)
                 = List.length (Schema s))
    by (vm_compute; reflexivity).
  destruct (parseTuple_fields (C := sampleCodec) q (Some 0%nat) s _ _
              Hload Hinner Hlen) as [Hok _].
  apply Hok. vm_compute. reflexivity.
Defined.

(** The names of two columns, and a list of three names over slices of
    two. *)
Lemma updateSchema_Columns_witness :
  let q := snd (StoreResult (C := sampleCodec) (response ["&1 7 3 2 3"])
                            (NewQuery None "select * from t")) in
  let l names := mkLocals names ["int"; "varchar"] [0; 0] [0; 0] [0; 0]
                          [0; 0] [0; 0] true in
  let q' := withCurrent (set_Schema (described (l ["id"; "name"]))) q in
  (updateSchema (Some 0%nat) (l ["id"; "name"]) q = (Ok tt, q')
   /\ Columns (Some 0%nat) q' = (Ok ["id"; "name"], q'))
  /\ updateSchema (Some 0%nat) (l ["id"; "name"; "more"]) q
     = (Panic "index out of range", q).
Proof.
  intros q l q'.
  set (s := hd emptyResultSet (resultSets q)).
  assert (Hs : currentIs q s) by (split; [vm_compute; discriminate | reflexivity]).
  split.
  - destruct (proj1 (updateSchema_Columns (C := sampleCodec) q s
                       (l ["id"; "name"]) Hs)) as (Hstore & Hnames & _).
    + unfold wideEnough. cbn. lia.
    + split; [exact Hstore | exact Hnames].
  - apply (proj2 (updateSchema_Columns (C := sampleCodec) q s
                    (l ["id"; "name"; "more"]) Hs)).
    unfold wideEnough. cbn. lia.
Defined.

(** A table of three rows and then an update of five in one response. *)
Lemma storeUpdate_current_witness :
  let q := snd (StoreResult (C := sampleCodec)
                  (response (oneTable ++ [tupleLine ["1"; "a"];
                                          tupleLine ["2"; "b"];
                                          tupleLine ["3"; "c"]]))
                  (NewQuery None "select * from t")) in
  let q' := snd (storeUpdate "&2 5 -1" locals0 q) in
  map (fun s => (RowCount (Metadata_ s), List.length (Rows_ s)))
      (resultSets q) = [(3, 3%nat)]
  /\ map (fun s => (RowCount (Metadata_ s), LastRowId (Metadata_ s),
                    List.length (Rows_ s)))
         (resultSets q') = [(5, -1, 3%nat)].
Proof.
  intros q q'.
  set (s := hd emptyResultSet (resultSets q)).
  assert (Hs : currentIs q s) by (split; [vm_compute; discriminate | reflexivity]).
  split; [vm_compute; reflexivity |].
  unfold q'.
  rewrite (proj1 (storeUpdate_current (C := sampleCodec) q locals0
                    "&2 5 -1" " 5 -1" "5" "-1" [] eq_refl eq_refl) s Hs).
  vm_compute. reflexivity.
Defined.

(** A response that starts with a tuple line. *)
Lemma StoreResult_panics_witness :
  let q := NewQuery (C := sampleCodec) None "select 1" in
  reachable q
  /\ StoreResult (response ["[ 1 ]"]) q = (Panic "nil pointer dereference", q).
Proof.
  intros q.
  assert (Hreach : reachable q) by apply reach_NewQuery.
  split; [exact Hreach |].
  apply (proj1 (proj2 (StoreResult_panics (C := sampleCodec) q
                         (response ["[ 1 ]"]) [] "[ 1 ]" [""] locals0 q
                         Hreach eq_refl eq_refl)));
    [reflexivity | cbn; lia | reflexivity].
Defined.

(** Two tables and then an error: the resultsets stay and the cursor is at
    the second. *)
Lemma StoreResult_ends_witness :
  let q := NewQuery (C := sampleCodec) None "select 1; select 2; select" in
  let r := response ["&1 7 1 1 1"; "&1 8 1 1 1"; "!42000!syntax error"] in
  fst (StoreResult r q) = Err "mapi: database error: 42000!syntax error"
  /\ currentResultSet (snd (StoreResult r q)) = 1
  /\ len (resultSets (snd (StoreResult r q))) = 2.
Proof.
  intros q r.
  set (pre := ["&1 7 1 1 1"; "&1 8 1 1 1"]).
  set (q1 := snd (storeLines pre locals0 q)).
  set (l1 := match fst (storeLines pre locals0 q) with
             | Ok (Continue l) => l
             | _ => locals0
             end).
  assert (Hpre : storeLines pre locals0 q = (Ok (Continue l1), q1))
    by (vm_compute; reflexivity).
  rewrite (proj1 (StoreResult_ends (C := sampleCodec) q r pre [""] l1 q1
                    "42000!syntax error")
                 ltac:(vm_compute; reflexivity) Hpre).
  repeat split.
Defined.

End ResponseFacts.

(** ** Running a query: the texts of the statements and what goes over the
    connection *)

Module StatementFacts.

Import TransportSpec.
Import HandshakeFacts.
Import CommandSpec.
Import CommandFacts.
Import ParserSpec.
Import ParserFacts.
Import ResponseSpec.
Import ResponseFacts.
Import CursorSpec.
Import CursorFacts.
Import StatementSpec.

Section Texts.

Context {C : Codec} {E : Encoder}.

(** *** The text of a statement with arguments *)

Lemma continued_next (i : Z) (b str : string) (strs : list string) :
  0 <= i ->
  (((if i >? 0 then b ++ ", " else b) ++ str) ++ continued (i + 1) strs
   = b ++ continued i (str :: strs))%string.
Proof.
  intros Hi. unfold continued.
  replace (i + 1 >? 0) with true by (symmetry; apply Z.gtb_lt; lia).
  cbn [String.concat].
  destruct (i >? 0); destruct strs as [| y ys];
    rewrite ?append_assoc; cbn [append]; rewrite ?LoginFacts.append_empty;
    reflexivity.
Qed.

Lemma CreateExecString_loop_texts {St} (args : list Value) :
  forall (strs : list string) (i : Z) (b : string) (s : St),
    0 <= i ->
    map ConvertToMonet args = map Ok strs ->
    CreateExecString_loop args i b s
    = (Ok (Some (b ++ continued i strs)%string), s).
Proof.
  induction args as [| v args IH]; intros strs i b s Hi Hstrs.
  - destruct strs; [| discriminate]. cbn [CreateExecString_loop continued].
    rewrite LoginFacts.append_empty. reflexivity.
  - destruct strs as [| str strs]; [discriminate |].
    cbn [map] in Hstrs. injection Hstrs as Hv Hstrs.
    cbn [CreateExecString_loop]. unfold bind, attempt, lift. rewrite Hv.
    rewrite (IH strs (i + 1)) by (lia || exact Hstrs).
    rewrite continued_next by exact Hi. reflexivity.
Qed.

Lemma CreateExecString_loop_gives_up {St} (args : list Value) :
  forall (strs : list string) (e : string) (rest : list (outcome string))
         (i : Z) (b : string) (s : St),
    map ConvertToMonet args = map Ok strs ++ Err e :: rest ->
    CreateExecString_loop args i b s = (Ok None, s).
Proof.
  induction args as [| v args IH]; intros strs e rest i b s Hstrs.
  - destruct strs; discriminate.
  - cbn [CreateExecString_loop]. unfold bind, attempt, lift.
    destruct strs as [| str strs]; cbn [map app] in Hstrs;
      injection Hstrs as Hv Hstrs; rewrite Hv; [reflexivity |].
    apply (IH strs e rest), Hstrs.
Qed.

Lemma CreateNamedString_loop_texts {St} (args : list Value) :
  forall (strs : list string) (done names : list string) (b : string)
         (s : St),
    map ConvertToMonet args = map Ok strs ->
    (List.length args <= List.length names)%nat ->
    CreateNamedString_loop (done ++ names) args (len done) b s
    = (Ok (Some (b ++ continued (len done) (named names strs))%string), s).
Proof.
  induction args as [| v args IH]; intros strs done names b s Hstrs Hnames.
  - destruct strs; [| discriminate].
    unfold named. rewrite combine_nil.
    cbn [CreateNamedString_loop map continued].
    rewrite LoginFacts.append_empty. reflexivity.
  - destruct strs as [| str strs]; [discriminate |].
    destruct names as [| name names]; [cbn in Hnames; lia |].
    cbn [map] in Hstrs. injection Hstrs as Hv Hstrs.
    cbn [CreateNamedString_loop]. unfold bind at 1, attempt, lift.
    rewrite Hv. unfold bind at 1. rewrite index_at.
    specialize (IH strs (done ++ [name]) names).
    rewrite <- app_assoc, len_snoc in IH. cbn [app] in IH.
    rewrite IH by (exact Hstrs || (cbn in Hnames; lia)).
    cbn [named combine map]. fold (named names strs).
    rewrite <- (continued_next (len done) b) by apply len_nonneg.
    rewrite !append_assoc. reflexivity.
Qed.

Lemma CreateNamedString_loop_gives_up {St} (args : list Value) :
  forall (strs : list string) (e : string) (rest : list (outcome string))
         (done names : list string) (b : string) (s : St),
    map ConvertToMonet args = map Ok strs ++ Err e :: rest ->
    (List.length strs <= List.length names)%nat ->
    CreateNamedString_loop (done ++ names) args (len done) b s = (Ok None, s).
Proof.
  induction args as [| v args IH];
    intros strs e rest done names b s Hstrs Hnames.
  - destruct strs; discriminate.
  - cbn [CreateNamedString_loop]. unfold bind at 1, attempt, lift.
    destruct strs as [| str strs]; cbn [map app] in Hstrs;
      injection Hstrs as Hv Hstrs; rewrite Hv; [reflexivity |].
    destruct names as [| name names]; [cbn in Hnames; lia |].
    unfold bind at 1. rewrite index_at.
    specialize (IH strs e rest (done ++ [name]) names).
    rewrite <- app_assoc, len_snoc in IH. cbn [app] in IH.
    apply IH; [exact Hstrs | cbn in Hnames; lia].
Qed.

(** X17.  The text of a prepared and of a named statement.  With arguments
    that all have a text, [CreateExecString] gives [EXEC id (t1, t2, ...)]
    for the id of the resultset, and [CreateNamedString] gives the text of
    the query, a colon and the list of the names with their texts.  When an
    argument has no text, both return the empty text and no error: the
    error of the conversion is lost. *)
Theorem statement_texts
        (q : query) (s : ResultSet) (names : list string) (args : list Value) :
  (List.length args <= List.length names)%nat ->
  (forall strs : list string,
      map ConvertToMonet args = map Ok strs ->
      CreateExecString s args q
      = (Ok ("EXEC " ++ itoa (ExecId (Metadata_ s)) ++ " ("
             ++ String.concat ", " strs ++ ")")%string, q)
      /\ CreateNamedString names args q
         = (Ok (sqlQuery q ++ " : ( "
                ++ String.concat ", " (named names strs) ++ ")")%string, q))
  /\ (forall (strs : list string) (e : string) (rest : list (outcome string)),
        map ConvertToMonet args = map Ok strs ++ Err e :: rest ->
        CreateExecString s args q = (Ok "", q)
        /\ CreateNamedString names args q = (Ok "", q)).
Proof.
  intros Hnames.
  assert (Hcont : forall strs, continued 0 strs = String.concat ", " strs).
  { intros [| x xs]; reflexivity. }
  split.
  - intros strs Hstrs. split.
    + unfold CreateExecString, bind.
      rewrite (CreateExecString_loop_texts args strs 0) by (lia || exact Hstrs).
      rewrite Hcont, !append_assoc. reflexivity.
    + unfold CreateNamedString. unfold bind at 1, get at 1. unfold bind.
      rewrite (CreateNamedString_loop_texts args strs [] names)
        by assumption.
      change (len (@nil string)) with 0.
      rewrite Hcont, !append_assoc. reflexivity.
  - intros strs e rest Hstrs. split.
    + unfold CreateExecString, bind.
      rewrite (CreateExecString_loop_gives_up args strs e rest) by exact Hstrs.
      reflexivity.
    + unfold CreateNamedString. unfold bind at 1, get at 1. unfold bind.
      rewrite (CreateNamedString_loop_gives_up args strs e rest [] names).
      * reflexivity.
      * exact Hstrs.
      * apply (f_equal (@List.length _)) in Hstrs.
        rewrite !length_map, length_app, length_map in Hstrs. lia.
Qed.

(** *** What a query sends *)

Lemma execute_connected (q : query) (c : MapiConn) (text : string) :
  mapi q = Some c ->
  execute text q = onMapi (Mapi.Execute text) q.
Proof. intros Hm. unfold execute, bind, get. rewrite Hm. reflexivity. Qed.

Lemma onMapi_connected {A} (m : M MapiConn A) (q : query) (c : MapiConn) :
  mapi q = Some c ->
  onMapi m q = (fst (m c), set_mapi (Some (snd (m c))) q).
Proof.
  intros Hm. unfold onMapi. rewrite Hm. destruct (m c). reflexivity.
Qed.

Lemma index_current {St} (q : query) (s : ResultSet) (st : St) :
  currentIs q s ->
  Mapi.index (resultSets q) (currentResultSet q) st = (Ok s, st).
Proof.
  intros [Hcur Hs]. unfold Mapi.index.
  replace (currentResultSet q <? 0) with false
    by (symmetry; apply Z.ltb_ge; lia).
  rewrite Hs. reflexivity.
Qed.

(** X18.  A prepared statement is run by the id of the current resultset of
    the query: [ExecutePreparedQuery] executes [EXEC id (t1, t2, ...)].
    When an argument has no text, the error is lost on the way and the
    empty statement is executed: on a ready connection the block [s;] is
    written. *)
Theorem ExecutePreparedQuery_sends
        (q : query) (s : ResultSet) (c : MapiConn) (args : list Value) :
  currentIs q s ->
  mapi q = Some c ->
  (forall strs : list string,
      map ConvertToMonet args = map Ok strs ->
      ExecutePreparedQuery args q
      = onMapi (Mapi.Execute ("EXEC " ++ itoa (ExecId (Metadata_ s)) ++ " ("
                              ++ String.concat ", " strs ++ ")")) q)
  /\ (forall (strs : list string) (e : string) (rest : list (outcome string)),
        map ConvertToMonet args = map Ok strs ++ Err e :: rest ->
        ExecutePreparedQuery args q = onMapi (Mapi.Execute "") q
        /\ forall t : TCPConn,
            conn c = Some t -> State c = mapi_STATE_READY ->
            exists k : nat,
              sentBy (snd (ExecutePreparedQuery args q))
              = Some (outbound t ++ sent (bytes "s;") ++ empties k)).
Proof.
  intros Hs Hm.
  assert (Hrun : forall text,
             CreateExecString s args q = (Ok text, q) ->
             ExecutePreparedQuery args q = onMapi (Mapi.Execute text) q).
  { intros text Htext. unfold ExecutePreparedQuery.
    unfold bind at 1, get at 1. unfold bind at 1.
    rewrite (index_current q s q Hs).
    unfold bind. rewrite Htext. apply execute_connected with (c := c), Hm. }
  split.
  - intros strs Hstrs. apply Hrun.
    unfold CreateExecString, bind.
    rewrite (CreateExecString_loop_texts args strs 0) by (lia || exact Hstrs).
    destruct strs; unfold continued; rewrite ?append_assoc; reflexivity.
  - intros strs e rest Hstrs.
    assert (Hempty : ExecutePreparedQuery args q
                     = onMapi (Mapi.Execute "") q).
    { apply Hrun. unfold CreateExecString, bind.
      rewrite (CreateExecString_loop_gives_up args strs e rest)
        by exact Hstrs.
      reflexivity. }
    split; [exact Hempty |].
    intros t Hc Hready. rewrite Hempty.
    rewrite (onMapi_connected _ q c Hm). cbn [snd].
    unfold sentBy. cbn [mapi set_mapi].
    exact (call_written "s;" c t Hc Hready).
Qed.

(** X19.  A query without the means to run.  Without a connection
    [ExecuteQuery] and [PrepareQuery] return the error that the connection
    is closed, and nothing changes.  Without a resultset (the cursor is -1,
    as [NewQuery] leaves it and as it stays when [PrepareQuery] fails)
    [ExecutePreparedQuery] and [FetchNext] panic: they take the resultset at
    the cursor before they look at anything else. *)
Theorem query_without_means
        (q : query) (args : list Value) (offset amount : Z) :
  (mapi q = None ->
   ExecuteQuery q = (Err "mapi: database connection is closed", q)
   /\ PrepareQuery q = (Err "mapi: database connection is closed", q))
  /\ (currentResultSet q = -1 ->
      ExecutePreparedQuery args q = (Panic "index out of range", q)
      /\ FetchNext offset amount q = (Panic "index out of range", q)).
Proof.
  split.
  - intros Hm. unfold ExecuteQuery, PrepareQuery, execute, bind, get.
    rewrite Hm. split; reflexivity.
  - intros Hcur.
    unfold ExecutePreparedQuery, FetchNext, bind, get, Mapi.index.
    rewrite Hcur. split; reflexivity.
Qed.

(** X20.  [PrepareQuery] on a ready connection writes the block
    [sPREPARE <query>;], answers the requests of the server for more, and
    then: stores the block of the server by [StoreResult] when it starts
    with [&], and returns the operational error, with nothing stored, when
    it starts with [!]. *)
Theorem PrepareQuery_reply
        (q : query) (c : MapiConn) (t : TCPConn) (k : nat) (reply : string)
        (parts : list (list byte)) :
  mapi q = Some c ->
  conn c = Some t ->
  State c = mapi_STATE_READY ->
  delivers (mores k ++ sent (bytes reply) ++ parts) (inbound t) ->
  let goes_on (m : M query unit) :=
    exists inb' : list (list byte),
      delivers parts inb'
      /\ PrepareQuery q
         = m (onWire inb'
                     (outbound t
                      ++ sent (bytes ("sPREPARE " ++ sqlQuery q ++ ";"))
                      ++ empties k) c q) in
  (forall rest : string,
      reply = ("&" ++ rest)%string -> goes_on (StoreResult reply))
  /\ (forall msg : string,
        reply = ("!" ++ msg)%string ->
        goes_on (fail ("mapi: operational error: " ++ msg)%string)).
Proof.
  intros Hm Hc Hready Hd goes_on.
  assert (Hrun : (reply =? mapi_MSG_MORE)%string = false ->
                 exists inb' : list (list byte),
                   delivers parts inb'
                   /\ PrepareQuery q
                      = (resultstring <-
                           (fun q1 =>
                              let '(a, c') := replied reply
                                (set_conn (Some (mkTCPConn inb'
                                   (outbound t
                                    ++ sent (bytes ("sPREPARE " ++ sqlQuery q
                                                    ++ ";"))
                                    ++ empties k))) c) in
                              (a, set_mapi (Some c') q1)) ;;
                         StoreResult resultstring) q).
  { intros Hnot.
    destruct (call_more k ("sPREPARE " ++ sqlQuery q ++ ";") c t (bytes reply)
                parts Hc Hready Hd) as (inb' & Hd' & Hcall);
      [rewrite bytes_text; exact Hnot |].
    exists inb'. split; [exact Hd' |].
    unfold PrepareQuery, bind, get. cbv zeta.
    rewrite (execute_connected q c _ Hm).
    unfold onMapi. rewrite Hm.
    change (Mapi.Execute ("PREPARE " ++ sqlQuery q) c)
      with (Mapi.call ("sPREPARE " ++ sqlQuery q ++ ";") c).
    rewrite Hcall, bytes_text. reflexivity. }
  split.
  - intros rest Hshape.
    destruct Hrun as (inb' & Hd' & Hprep);
      [apply (data_not_more reply rest); auto |].
    exists inb'. split; [exact Hd' |].
    rewrite Hprep. unfold bind.
    rewrite (replied_data reply rest) by auto. reflexivity.
  - intros msg Hshape.
    destruct Hrun as (inb' & Hd' & Hprep);
      [apply (data_not_more reply msg); auto |].
    exists inb'. split; [exact Hd' |].
    rewrite Hprep. unfold bind. rewrite Hshape, replied_error. reflexivity.
Qed.

End Texts.

(** *** Examples *)

(** Two arguments with a text, and one without. *)
Lemma statement_texts_witness :
  let q := NewQuery (C := sampleCodec) None "select :a, :b" in
  let s := on_Metadata (set_ExecId 12) emptyResultSet in
  (CreateExecString (E := sampleEncoder) s ["1"; "'x'"] q
   = (Ok "EXEC 12 (1, 'x')", q)
   /\ CreateNamedString (E := sampleEncoder) ["a"; "b"] ["1"; "'x'"] q
      = (Ok "select :a, :b : (  a 1,  b 'x')", q))
  /\ (CreateExecString (E := sampleEncoder) s ["1"; "?"] q = (Ok "", q)
      /\ CreateNamedString (E := sampleEncoder) ["a"; "b"] ["1"; "?"] q
         = (Ok "", q)).
Proof.
  intros q s. split.
  - exact (proj1 (statement_texts (E := sampleEncoder) q s ["a"; "b"]
                    ["1"; "'x'"] (Nat.le_refl _))
                 ["1"; "'x'"] eq_refl).
  - exact (proj2 (statement_texts (E := sampleEncoder) q s ["a"; "b"]
                    ["1"; "?"] (Nat.le_refl _))
                 ["1"] "mapi: unsupported type" [] eq_refl).
Defined.

(** A prepared statement with an argument that has no text. *)
Lemma ExecutePreparedQuery_sends_witness :
  let t := mkTCPConn (sent (bytes "")) [] in
  let c := set_State mapi_STATE_READY (HandshakeSpec.sampleConn (Some t)) in
  let s := on_Metadata (set_ExecId 12) emptyResultSet in
  let q := mkQuery (C := sampleCodec) (Some c) "select ?" [s] 0 in
  exists k : nat,
    sentBy (snd (ExecutePreparedQuery (E := sampleEncoder) ["1"; "?"] q))
    = Some (outbound t ++ sent (bytes "s;") ++ empties k).
Proof.
  intros t c s q.
  assert (Hs : currentIs q s) by (split; [cbn; lia | reflexivity]).
  destruct (proj2 (ExecutePreparedQuery_sends (E := sampleEncoder) q s c
                     ["1"; "?"] Hs eq_refl)
                  ["1"] "mapi: unsupported type" [] eq_refl) as [_ Hsent].
  exact (Hsent t eq_refl eq_refl).
Defined.

(** A query as [NewQuery] makes it, without a connection. *)
Lemma query_without_means_witness :
  let q := NewQuery (C := sampleCodec) None "select 1" in
  ExecuteQuery q = (Err "mapi: database connection is closed", q)
  /\ ExecutePreparedQuery (E := sampleEncoder) ["1"] q
     = (Panic "index out of range", q).
Proof.
  intros q.
  destruct (query_without_means (E := sampleEncoder) q ["1"] 0 0)
    as [Hclosed Hnone].
  split; [apply Hclosed | apply Hnone]; reflexivity.
Defined.

(** A server that answers the statement with the id 12. *)
Lemma PrepareQuery_reply_witness :
  let reply := "&5 12 1 6 1" in
  let t := mkTCPConn (mores 0 ++ sent (bytes reply) ++ []) [] in
  let c := set_State mapi_STATE_READY (HandshakeSpec.sampleConn (Some t)) in
  let q := NewQuery (C := sampleCodec) (Some c) "select ?" in
  fst (PrepareQuery q) = Ok tt
  /\ map (fun s => ExecId (Metadata_ s)) (resultSets (snd (PrepareQuery q)))
     = [12]
  /\ sentBy (snd (PrepareQuery q))
     = Some (sent (bytes "sPREPARE select ?;")).
Proof.
  intros reply t c q.
  destruct (proj1 (PrepareQuery_reply (C := sampleCodec) q c t 0 reply []
                     eq_refl eq_refl eq_refl
                     (TransportFacts.delivers_written _))
                  "5 12 1 6 1" eq_refl) as (inb' & _ & Hrun).
  rewrite Hrun. repeat split.
Defined.

End StatementFacts.

(** ** More about the cursor of the driver: the rows of the window, the
    columns, and the next resultset *)

Module RowsFacts.

Import ParserSpec.
Import ParserFacts.
Import ResponseFacts.
Import CursorSpec.
Import CursorFacts.

Section Rows.

Context {C : Codec}.

(** *** The copy of a row *)

Lemma copyRow_fits {St} (row : list DriverValue) :
  forall (dest : list DriverValue) (s : St),
    (List.length row <= List.length dest)%nat ->
    copyRow row dest s
    = (Ok (map destValue row ++ skipn (List.length row) dest), s).
Proof.
  induction row as [| v row IH]; intros dest s Hlen; [reflexivity |].
  destruct dest as [| d dest]; [cbn in Hlen; lia |].
  cbn [copyRow]. unfold bind. rewrite IH by (cbn in Hlen; lia).
  reflexivity.
Qed.

Lemma copyRow_short {St} (row : list DriverValue) :
  forall (dest : list DriverValue) (s : St),
    (List.length dest < List.length row)%nat ->
    copyRow row dest s = (Panic "index out of range", s).
Proof.
  induction row as [| v row IH]; intros dest s Hlen; [cbn in Hlen; lia |].
  destruct dest as [| d dest]; [reflexivity |].
  cbn [copyRow]. unfold bind. rewrite IH by (cbn in Hlen; lia).
  reflexivity.
Qed.

(** *** A call of [Next] *)

(** [Next] on an open cursor over a resultset. *)
Lemma Next_open (dest : list DriverValue) (r : Rows) (s : ResultSet) :
  active r = true ->
  currentIs (query_ r) s ->
  QueryId (Metadata_ s) <> -1 ->
  Next dest r
  = if rowNum r >=? RowCount (Metadata_ s) then (Err "EOF", r)
    else
      ((if rowNum r >=? offset r + len (rows r) then fetchNext else ret tt) ;;;
       r <- get ;;
       row <- Mapi.index (rows r) (rowNum r - offset r) ;;
       dest' <- copyRow row dest ;;
       modify (fun r => set_rowNum (rowNum r + 1) r) ;;;
       ret dest') r.
Proof.
  intros Hactive Hs Hid.
  destruct (onQuery_current r s Hs) as [Hres Hload].
  unfold Next. unfold bind at 1, get at 1. rewrite Hactive. cbn [negb].
  unfold bind at 1. rewrite Hres. unfold bind at 1. rewrite Hload.
  replace (QueryId (Metadata_ s) =? -1) with false
    by (symmetry; apply Z.eqb_neq; exact Hid).
  unfold bind at 1. rewrite Hres. unfold bind at 1. rewrite Hload.
  destruct (rowNum r >=? RowCount (Metadata_ s)); reflexivity.
Qed.

(** [Next] when the row is in the window. *)
Lemma Next_in_window (dest : list DriverValue) (r : Rows) (s : ResultSet)
      (row : list DriverValue) :
  active r = true ->
  currentIs (query_ r) s ->
  QueryId (Metadata_ s) <> -1 ->
  rowNum r < RowCount (Metadata_ s) ->
  offset r <= rowNum r < offset r + len (rows r) ->
  nth_error (rows r) (Z.to_nat (rowNum r - offset r)) = Some row ->
  Next dest r
  = if (List.length row <=? List.length dest)%nat
    then (Ok (map destValue row ++ skipn (List.length row) dest),
          set_rowNum (rowNum r + 1) r)
    else (Panic "index out of range", r).
Proof.
  intros Hactive Hs Hid Hrows Hwin Hrow.
  rewrite (Next_open dest r s Hactive Hs Hid).
  replace (rowNum r >=? RowCount (Metadata_ s)) with false
    by (symmetry; rewrite Z.geb_leb; apply Z.leb_gt; lia).
  replace (rowNum r >=? offset r + len (rows r)) with false
    by (symmetry; rewrite Z.geb_leb; apply Z.leb_gt; lia).
  unfold bind at 1, ret at 1. unfold bind at 1, get at 1.
  unfold bind at 1, Mapi.index.
  replace (rowNum r - offset r <? 0) with false
    by (symmetry; apply Z.ltb_ge; lia).
  rewrite Hrow. unfold ret at 1. unfold bind at 1.
  destruct (List.length row <=? List.length dest)%nat eqn:Hfit.
  - apply Nat.leb_le in Hfit. rewrite copyRow_fits by exact Hfit.
    reflexivity.
  - apply Nat.leb_gt in Hfit. rewrite copyRow_short by exact Hfit.
    reflexivity.
Qed.

(** X21.  A call of [Next].  On a cursor that has been closed it returns
    the error that the rows are closed.  On an open cursor over a resultset
    it returns the end of the rows when the row number has reached the row
    count; when the row is in the window, it copies the row into [dest],
    a value that is a string as the slice of its bytes and every other
    value as it is; the other places of [dest] stay, the cursor moves on by
    one row and nothing else is touched; and it panics when [dest] has
    fewer places than the row has values. *)
Theorem Next_row
        (dest : list DriverValue) (r : Rows) (s : ResultSet)
        (row : list DriverValue) :
  Next dest (snd (Close r)) = (Err "monetdb: rows closed", snd (Close r))
  /\ (active r = true ->
      currentIs (query_ r) s ->
      QueryId (Metadata_ s) <> -1 ->
      (RowCount (Metadata_ s) <= rowNum r -> Next dest r = (Err "EOF", r))
      /\ (rowNum r < RowCount (Metadata_ s) ->
          offset r <= rowNum r < offset r + len (rows r) ->
          nth_error (rows r) (Z.to_nat (rowNum r - offset r)) = Some row ->
          (len row <= len dest ->
           Next dest r
           = (Ok (map (fun v =>
                         match asString v with
                         | Some vv => fromBytes (list_ascii_of_string vv)
                         | None => v
                         end) row
                  ++ skipn (List.length row) dest),
              set_rowNum (rowNum r + 1) r))
          /\ (len dest < len row ->
              Next dest r = (Panic "index out of range", r)))).
Proof.
  split; [reflexivity |].
  intros Hactive Hs Hid. split.
  - intros Hend. rewrite (Next_open dest r s Hactive Hs Hid).
    replace (rowNum r >=? RowCount (Metadata_ s)) with true
      by (symmetry; rewrite Z.geb_leb; apply Z.leb_le; lia).
    reflexivity.
  - intros Hrows Hwin Hrow.
    rewrite (Next_in_window dest r s row Hactive Hs Hid Hrows Hwin Hrow).
    split; intros Hlen; unfold len in Hlen.
    + replace (List.length row <=? List.length dest)%nat with true
        by (symmetry; apply Nat.leb_le; lia).
      reflexivity.
    + replace (List.length row <=? List.length dest)%nat with false
        by (symmetry; apply Nat.leb_gt; lia).
      reflexivity.
Qed.

(** *** The next resultset *)

(** X22.  [NextResultSet] of the cursor moves the cursor of the query and
    nothing else: the row number, the offset, the rows of the window and the
    schema of the cursor stay as they were for the resultset before.  So
    [Next] goes on at the old row number: it returns the end of the rows
    when the new resultset has no more rows than were read of the old one;
    and when it has more and the old row number is still inside the old
    window, [Next] hands out the row of the old window at that number. *)
Theorem Rows_NextResultSet_keeps_position
        (dest : list DriverValue) (r : Rows) (s' : ResultSet) :
  0 <= currentResultSet (query_ r) ->
  Rows_HasNextResultSet r = true ->
  nth_error (resultSets (query_ r))
            (Z.to_nat (currentResultSet (query_ r) + 1)) = Some s' ->
  active r = true ->
  QueryId (Metadata_ s') <> -1 ->
  let r' := set_query (set_currentResultSet
                         (currentResultSet (query_ r) + 1) (query_ r)) r in
  Rows_NextResultSet r = (Ok tt, r')
  /\ (rowNum r', offset r', rows r', schema r')
     = (rowNum r, offset r, rows r, schema r)
  /\ (RowCount (Metadata_ s') <= rowNum r -> Next dest r' = (Err "EOF", r'))
  /\ (forall row : list DriverValue,
        rowNum r < RowCount (Metadata_ s') ->
        offset r <= rowNum r < offset r + len (rows r) ->
        nth_error (rows r) (Z.to_nat (rowNum r - offset r)) = Some row ->
        len row <= len dest ->
        Next dest r'
        = (Ok (map destValue row ++ skipn (List.length row) dest),
           set_rowNum (rowNum r + 1) r')).
Proof.
  intros Hset Hnext Hs' Hactive Hid r'.
  unfold Rows_HasNextResultSet in Hnext.
  assert (Hcur : currentIs (query_ r') s').
  { split; cbn [query_ r' set_query currentResultSet set_currentResultSet
                resultSets]; [lia | exact Hs']. }
  split; [| split; [reflexivity | split]].
  - unfold Rows_NextResultSet, onQuery.
    rewrite NextResultSet_cases, Hnext. reflexivity.
  - intros Hend. rewrite (Next_open dest r' s' Hactive Hcur Hid).
    replace (rowNum r' >=? RowCount (Metadata_ s')) with true
      by (symmetry; rewrite Z.geb_leb; apply Z.leb_le; exact Hend).
    reflexivity.
  - intros row Hrows Hwin Hrow Hlen.
    rewrite (Next_in_window dest r' s' row Hactive Hcur Hid Hrows Hwin Hrow).
    replace (List.length row <=? List.length dest)%nat with true
      by (symmetry; apply Nat.leb_le; unfold len in Hlen; lia).
    reflexivity.
Qed.

(** *** The names of the columns *)

Lemma onQuery_same {A} (m : M query A) (r : Rows) (a : outcome A) :
  m (query_ r) = (a, query_ r) -> onQuery m r = (a, r).
Proof.
  intros Hm. unfold onQuery. rewrite Hm, set_query_same. reflexivity.
Qed.

(** X23.  [Columns] of the cursor gives the names of the columns of the
    schema of the current resultset of the query, in their order, whatever
    the schema of the cursor holds, and changes nothing; it panics when the
    query has no resultset. *)
Theorem Rows_Columns_current (r : Rows) (s : ResultSet) :
  (currentIs (query_ r) s ->
   Rows_Columns r = (Ok (map ColumnName (Schema s)), r)
   /\ forall sch : list TableElement,
       fst (Rows_Columns (set_schema sch r))
       = Ok (map ColumnName (Schema s)))
  /\ (currentResultSet (query_ r) = -1 ->
      Rows_Columns r = (Panic "nil pointer dereference", r)).
Proof.
  split.
  - intros Hs.
    assert (Hrun : forall r0 : Rows,
               query_ r0 = query_ r ->
               Rows_Columns r0 = (Ok (map ColumnName (Schema s)), r0)).
    { intros r0 Hq. rewrite <- Hq in Hs.
      unfold Rows_Columns, bind.
      rewrite (onQuery_same Result r0 _ (proj1 (Result_current _ s Hs))).
      apply onQuery_same, Columns_current, Hs. }
    split; [apply Hrun; reflexivity |].
    intros sch. rewrite Hrun; reflexivity.
  - intros Hcur. unfold Rows_Columns, bind.
    rewrite (onQuery_same Result r _ (Result_none (query_ r) Hcur)).
    apply onQuery_same. reflexivity.
Qed.

End Rows.

(** *** Examples *)

(** A row of a string and of a slice of bytes: both come as slices of
    bytes, and the third place of [dest] stays. *)
Lemma Next_row_witness :
  let y := list_ascii_of_string "y" in
  Next (C := typedCodec) [Text ""; Text ""; Text "kept"] typedRows
  = (Ok [Bytes (list_ascii_of_string "x"); Bytes y; Text "kept"],
     set_rowNum 1 typedRows).
Proof.
  intros y.
  set (s := hd emptyResultSet (resultSets (query_ typedRows))).
  assert (Hs : currentIs (query_ typedRows) s)
    by (split; [vm_compute; discriminate | vm_compute; reflexivity]).
  assert (Hid : QueryId (Metadata_ s) <> -1) by (vm_compute; discriminate).
  assert (Hrows : rowNum typedRows < RowCount (Metadata_ s))
    by (vm_compute; reflexivity).
  assert (Hwin : offset typedRows <= rowNum typedRows
                 < offset typedRows + len (rows typedRows))
    by (split; [vm_compute; discriminate | vm_compute; reflexivity]).
  assert (Hrow : nth_error (rows typedRows)
                           (Z.to_nat (rowNum typedRows - offset typedRows))
                 = Some [Text "x"; Bytes y])
    by (vm_compute; reflexivity).
  destruct (proj2 (Next_row (C := typedCodec)
                     [Text ""; Text ""; Text "kept"] typedRows s
                     [Text "x"; Bytes y])
                  eq_refl Hs Hid) as [_ Hin].
  destruct (Hin Hrows Hwin Hrow) as [Hfits _].
  rewrite Hfits by (vm_compute; discriminate).
  reflexivity.
Defined.

(** Two tables of one row each: when the row of the first has been read,
    the row of the second is never handed out. *)
Lemma Rows_NextResultSet_keeps_position_witness :
  let r := secondTableRows in
  let r' := snd (Rows_NextResultSet r) in
  map (fun s => (RowCount (Metadata_ s), List.length (Rows_ s)))
      (resultSets (query_ r)) = [(1, 1%nat); (1, 1%nat)]
  /\ fst (Rows_NextResultSet r) = Ok tt
  /\ currentResultSet (query_ r') = 1
  /\ fst (Next (C := sampleCodec) ([""] : list string) r') = Err "EOF".
Proof.
  intros r r'.
  set (s' := nth 1 (resultSets (query_ r)) emptyResultSet).
  assert (H0 : 0 <= currentResultSet (query_ r))
    by (vm_compute; discriminate).
  assert (H1 : Rows_HasNextResultSet r = true) by (vm_compute; reflexivity).
  assert (H2 : nth_error (resultSets (query_ r))
                         (Z.to_nat (currentResultSet (query_ r) + 1))
               = Some s') by (vm_compute; reflexivity).
  assert (H3 : QueryId (Metadata_ s') <> -1) by (vm_compute; discriminate).
  assert (H4 : RowCount (Metadata_ s') <= rowNum r)
    by (vm_compute; discriminate).
  destruct (Rows_NextResultSet_keeps_position (C := sampleCodec)
              ([""] : list string) r s' H0 H1 H2 eq_refl H3)
    as (Hmove & _ & Hend & _).
  split; [vm_compute; reflexivity |].
  unfold r'. rewrite Hmove. cbn [fst snd].
  split; [reflexivity |]. split; [vm_compute; reflexivity |].
  rewrite (Hend H4). reflexivity.
Defined.

(** The column of the window. *)
Lemma Rows_Columns_current_witness :
  fst (Rows_Columns (C := sampleCodec) windowRows) = Ok ["id"].
Proof.
  set (s := hd emptyResultSet (resultSets (query_ windowRows))).
  assert (Hs : currentIs (query_ windowRows) s)
    by (split; [vm_compute; discriminate | vm_compute; reflexivity]).
  rewrite (proj1 (proj1 (Rows_Columns_current (C := sampleCodec)
                           windowRows s) Hs)).
  vm_compute. reflexivity.
Defined.

End RowsFacts.

(** ** The configuration of a connector *)

Module ConnectorFacts.

Section Options.

Variable Location : Type.
Variable time_Local : Location.

Lemma NewConnector_snoc (text : string)
      (options : list (connectorOption Location))
      (opt : connectorOption Location) :
  NewConnector Location time_Local text (options ++ [opt])
  = mkConnector Location
      (name Location (NewConnector Location time_Local text options))
      (opt (cfg Location (NewConnector Location time_Local text options))).
Proof. unfold NewConnector. rewrite fold_left_app. reflexivity. Qed.

Lemma NewConnector_name (text : string)
      (options : list (connectorOption Location)) :
  name Location (NewConnector Location time_Local text options) = text.
Proof.
  induction options as [| opt options IH] using rev_ind; [reflexivity |].
  rewrite NewConnector_snoc. exact IH.
Qed.

(** X24.  The configuration of a connector is the default one (automatic
    commit, a reply size of 100, size headers, the local time zone) with the
    options applied from left to right: the connector keeps the name it was
    given, an option that comes last decides its field whatever came
    before, and it leaves the three other fields as the options before it
    made them. *)
Theorem NewConnector_options
        (text : string) (options : list (connectorOption Location))
        (autoCommit sizeHeader : bool) (replySize : Z)
        (timezone : option Location) :
  let before := cfg Location (NewConnector Location time_Local text options) in
  let after opt :=
    cfg Location (NewConnector Location time_Local text (options ++ [opt])) in
  cfg Location (NewConnector Location time_Local text [])
  = mkConfig Location true 100 true (Some time_Local)
  /\ name Location (NewConnector Location time_Local text options) = text
  /\ after (AutoCommitOption Location autoCommit)
     = mkConfig Location autoCommit (ReplySize Location before)
                (Sizeheader Location before) (Timezone Location before)
  /\ after (ReplySizeOption Location replySize)
     = mkConfig Location (AutoCommit Location before) replySize
                (Sizeheader Location before) (Timezone Location before)
  /\ after (SizeHeaderOption Location sizeHeader)
     = mkConfig Location (AutoCommit Location before)
                (ReplySize Location before) sizeHeader
                (Timezone Location before)
  /\ after (TimezoneOption Location timezone)
     = mkConfig Location (AutoCommit Location before)
                (ReplySize Location before) (Sizeheader Location before)
                timezone.
Proof.
  intros before after.
  split; [reflexivity |]. split; [apply NewConnector_name |].
  unfold after. rewrite !NewConnector_snoc. repeat split.
Qed.

End Options.

End ConnectorFacts.

(** * Table and header lines of a response (mapi: StoreResult) *)

Module TableFacts.

Import ParserSpec.
Import ParserFacts.
Import ResponseSpec.
Import ResponseFacts.
Import TableSpec.

Section Tables.

Context {C : Codec}.






Lemma splitFrom_nonempty (sep : string) (s : string) :
  forall (skip : nat) (cur : string), splitFrom sep skip cur s <> [].
Proof.
  induction s as [| c s IH]; intros skip cur; cbn [splitFrom];
    [discriminate |].
  destruct skip as [| k]; [| apply IH].
  destruct (String.prefix sep (String c s)); [discriminate | apply IH].
Qed.

Lemma numbers_first {St} (value : string) (s : St) :
  Mapi.index (numbers value) 0 s = (Ok (firstNumber value), s).
Proof.
  unfold firstNumber, numbers, Split.
  pose proof (splitFrom_nonempty " " value 0 "") as Hne.
  destruct (splitFrom " " 0 "" value) as [| w ws]; [contradiction |].
  reflexivity.
Qed.

Lemma setIndex_at {St A} (pre : list A) (x : A) (post : list A) (v : A)
      (s : St) :
  setIndex (pre ++ x :: post) (len pre) v s = (Ok (pre ++ v :: post), s).
Proof.
  unfold setIndex.
  replace ((0 <=? len pre) && (len pre <? len (pre ++ x :: post))) with true.
  - unfold len at 1. rewrite Nat2Z.id, update_at. reflexivity.
  - symmetry. apply andb_true_iff. split.
    + apply Z.leb_le, len_nonneg.
    + apply Z.ltb_lt. rewrite len_app. unfold len. cbn [List.length]. lia.
Qed.

Lemma setIndex_end {St A} (a : list A) (v : A) (s : St) :
  setIndex a (len a) v s = (Panic "index out of range", s).
Proof.
  unfold setIndex. rewrite Z.ltb_irrefl, andb_false_r. reflexivity.
Qed.

Lemma setIndex_in {St A} (a : list A) (j : nat) (v : A) (s : St) :
  (j < List.length a)%nat ->
  setIndex a (Z.of_nat j) v s = (Ok (update j (fun _ => v) a), s).
Proof.
  intros Hj. unfold setIndex.
  replace ((0 <=? Z.of_nat j) && (Z.of_nat j <? len a)) with true.
  - rewrite Nat2Z.id. reflexivity.
  - symmetry. apply andb_true_iff. split.
    + apply Z.leb_le. lia.
    + apply Z.ltb_lt. unfold len. lia.
Qed.

Lemma nth_update_same {A} (v d : A) (a : list A) :
  forall j : nat,
    (j < List.length a)%nat -> nth j (update j (fun _ => v) a) d = v.
Proof.
  induction a as [| x a IH]; intros j Hj; [cbn in Hj; lia |].
  destruct j as [| j]; [reflexivity |].
  cbn [update nth]. apply IH. cbn in Hj. lia.
Qed.

Lemma nth_update_other {A} (f : A -> A) (d : A) (a : list A) :
  forall i j : nat, i <> j -> nth i (update j f a) d = nth i a d.
Proof.
  induction a as [| x a IH]; intros i j Hij; [destruct j; reflexivity |].
  destruct j as [| j]; destruct i as [| i]; try reflexivity;
    [contradiction |].
  cbn [update nth]. apply IH. lia.
Qed.

(** The first loop of the [typesizes] header writes the first numbers into
    the places of the values, in their order, and keeps the numbers of every
    value. *)
Lemma typesizes_loop_over {St} (values : list string) :
  forall (pre mid post : list Z) (sizes : list (list Z)) (s : St),
    List.length mid = List.length values ->
    typesizes_loop values (len pre) (pre ++ mid ++ post) sizes s
    = (Ok (pre ++ map firstNumber values ++ post,
           sizes ++ map numbers values), s).
Proof.
  induction values as [| value rest IH]; intros pre mid post sizes s Hlen.
  - destruct mid; [| discriminate]. cbn. rewrite app_nil_r. reflexivity.
  - destruct mid as [| x mid]; [discriminate |].
    cbn [typesizes_loop]. unfold bind at 1. rewrite numbers_first.
    unfold bind at 1. cbn [app]. rewrite setIndex_at.
    replace (len pre + 1) with (len (pre ++ [firstNumber value]))
      by apply len_snoc.
    replace (pre ++ firstNumber value :: mid ++ post)
      with ((pre ++ [firstNumber value]) ++ mid ++ post)
      by (rewrite <- app_assoc; reflexivity).
    rewrite IH by (cbn in Hlen; lia).
    rewrite <- !app_assoc. reflexivity.
Qed.

Lemma typesizes_loop_beyond {St} (values : list string) :
  forall (pre mid : list Z) (value : string) (more : list string)
         (sizes : list (list Z)) (s : St),
    List.length mid = List.length values ->
    typesizes_loop (values ++ value :: more) (len pre) (pre ++ mid) sizes s
    = (Panic "index out of range", s).
Proof.
  induction values as [| v rest IH]; intros pre mid value more sizes s Hlen.
  - destruct mid; [| discriminate]. rewrite app_nil_r.
    cbn [app typesizes_loop]. unfold bind at 1. rewrite numbers_first.
    unfold bind at 1. rewrite setIndex_end. reflexivity.
  - destruct mid as [| x mid]; [discriminate |].
    cbn [app typesizes_loop]. unfold bind at 1. rewrite numbers_first.
    unfold bind at 1. rewrite setIndex_at.
    replace (len pre + 1) with (len (pre ++ [firstNumber v]))
      by apply len_snoc.
    replace (pre ++ firstNumber v :: mid)
      with ((pre ++ [firstNumber v]) ++ mid)
      by (rewrite <- app_assoc; reflexivity).
    apply IH. cbn in Hlen. lia.
Qed.

(** The loop of the [length] header does the same to the display sizes. *)
Lemma length_loop_over {St} (values : list string) :
  forall (pre mid post : list Z) (s : St),
    List.length mid = List.length values ->
    length_loop values (len pre) (pre ++ mid ++ post) s
    = (Ok (pre ++ map firstNumber values ++ post), s).
Proof.
  induction values as [| value rest IH]; intros pre mid post s Hlen.
  - destruct mid; [| discriminate]. reflexivity.
  - destruct mid as [| x mid]; [discriminate |].
    cbn [length_loop]. unfold bind at 1. rewrite numbers_first.
    unfold bind at 1. cbn [app]. rewrite setIndex_at.
    replace (len pre + 1) with (len (pre ++ [firstNumber value]))
      by apply len_snoc.
    replace (pre ++ firstNumber value :: mid ++ post)
      with ((pre ++ [firstNumber value]) ++ mid ++ post)
      by (rewrite <- app_assoc; reflexivity).
    rewrite IH by (cbn in Hlen; lia).
    rewrite <- !app_assoc. reflexivity.
Qed.

Lemma length_loop_beyond {St} (values : list string) :
  forall (pre mid : list Z) (value : string) (more : list string) (s : St),
    List.length mid = List.length values ->
    length_loop (values ++ value :: more) (len pre) (pre ++ mid) s
    = (Panic "index out of range", s).
Proof.
  induction values as [| v rest IH]; intros pre mid value more s Hlen.
  - destruct mid; [| discriminate]. rewrite app_nil_r.
    cbn [app length_loop]. unfold bind at 1. rewrite numbers_first.
    unfold bind at 1. rewrite setIndex_end. reflexivity.
  - destruct mid as [| x mid]; [discriminate |].
    cbn [app length_loop]. unfold bind at 1. rewrite numbers_first.
    unfold bind at 1. rewrite setIndex_at.
    replace (len pre + 1) with (len (pre ++ [firstNumber v]))
      by apply len_snoc.
    replace (pre ++ firstNumber v :: mid)
      with ((pre ++ [firstNumber v]) ++ mid)
      by (rewrite <- app_assoc; reflexivity).
    apply IH. cbn in Hlen. lia.
Qed.

(** A slice of which the values of a header take the first places. *)
Lemma wide_parts {A} (n : nat) (a : list A) :
  (n <= List.length a)%nat ->
  a = [] ++ firstn n a ++ skipn n a /\ List.length (firstn n a) = n.
Proof.
  intros Hn. split.
  - cbn [app]. symmetry. apply firstn_skipn.
  - apply firstn_length_le, Hn.
Qed.

(** A list of values that is longer than a slice. *)
Lemma long_parts {A} (n : nat) (values : list A) :
  (n < List.length values)%nat ->
  exists (value : A) (more : list A),
    values = firstn n values ++ value :: more
    /\ List.length (firstn n values) = n.
Proof.
  intros Hn.
  destruct (skipn n values) as [| value more] eqn:Hskip.
  - pose proof (length_skipn n values) as Hlen. rewrite Hskip in Hlen.
    cbn in Hlen. lia.
  - exists value, more. split.
    + rewrite <- Hskip. symmetry. apply firstn_skipn.
    + apply firstn_length_le. lia.
Qed.

Lemma decimalAt_nil (k : nat) : decimalAt [] k = false.
Proof. destruct k; reflexivity. Qed.

(** The second loop of the [typesizes] header, from column [j] on: the
    places of the decimal columns take the first two numbers of the column,
    the other places stay. *)
Lemma decimal_loop_from {St} (sizes : list (list Z)) (types : list string) :
  forall (j : nat) (prec sc : list Z) (s : St),
    (forall i : nat,
        decimalAt types i = true ->
        (j + i < List.length sizes)%nat
        /\ (2 <= List.length (nth (j + i) sizes []))%nat
        /\ (j + i < List.length prec)%nat
        /\ (j + i < List.length sc)%nat) ->
    exists prec' sc' : list Z,
      decimal_loop types (Z.of_nat j) sizes prec sc s = (Ok (prec', sc'), s)
      /\ List.length prec' = List.length prec
      /\ List.length sc' = List.length sc
      /\ forall i : nat,
          nth i prec' 0
          = (if (j <=? i)%nat && decimalAt types (i - j)
             then nth 0 (nth i sizes []) 0 else nth i prec 0)
          /\ nth i sc' 0
             = (if (j <=? i)%nat && decimalAt types (i - j)
                then nth 1 (nth i sizes []) 0 else nth i sc 0).
Proof.
  induction types as [| t rest IH]; intros j prec sc s Hdec.
  - exists prec, sc. split; [reflexivity |]. split; [reflexivity |].
    split; [reflexivity |]. intros i.
    rewrite decimalAt_nil, andb_false_r. split; reflexivity.
  - assert (Hrest : forall p c : list Z,
               List.length p = List.length prec ->
               List.length c = List.length sc ->
               forall i : nat,
                 decimalAt rest i = true ->
                 (S j + i < List.length sizes)%nat
                 /\ (2 <= List.length (nth (S j + i) sizes []))%nat
                 /\ (S j + i < List.length p)%nat
                 /\ (S j + i < List.length c)%nat).
    { intros p c Hp Hc i Hi. rewrite Hp, Hc.
      replace (S j + i)%nat with (j + S i)%nat by lia.
      apply Hdec. exact Hi. }
    cbn [decimal_loop].
    replace (Z.of_nat j + 1) with (Z.of_nat (S j)) by lia.
    destruct (t =? "decimal")%string eqn:Ht.
    + destruct (Hdec 0%nat Ht) as [Hsizes [Htwo [Hprec Hsc]]].
      rewrite Nat.add_0_r in Hsizes, Htwo, Hprec, Hsc.
      set (sj := nth j sizes []) in *.
      unfold bind at 1. rewrite (index_nth sizes j [] s Hsizes). fold sj.
      assert (H0 : Mapi.index sj 0 s = (Ok (nth 0 sj 0), s))
        by (apply (index_nth sj 0 0 s); lia).
      assert (H1 : Mapi.index sj 1 s = (Ok (nth 1 sj 0), s))
        by (apply (index_nth sj 1 0 s); lia).
      unfold bind at 1. rewrite H0.
      unfold bind at 1. rewrite (setIndex_in prec j _ s Hprec).
      unfold bind at 1. rewrite H1.
      unfold bind at 1. rewrite (setIndex_in sc j _ s Hsc).
      set (prec1 := update j (fun _ => nth 0 sj 0) prec).
      set (sc1 := update j (fun _ => nth 1 sj 0) sc).
      destruct (IH (S j) prec1 sc1 s
                   (Hrest prec1 sc1 (update_length _ _ _)
                          (update_length _ _ _)))
        as [prec' [sc' [Hrun [Hlp [Hls Hat]]]]].
      exists prec', sc'. split; [exact Hrun |].
      split; [rewrite Hlp; apply update_length |].
      split; [rewrite Hls; apply update_length |].
      intros i. destruct (Hat i) as [Hp Hs]. rewrite Hp, Hs.
      destruct (Nat.lt_trichotomy i j) as [Hlt | [Heq | Hgt]].
      * replace (S j <=? i)%nat with false
          by (symmetry; apply Nat.leb_gt; lia).
        replace (j <=? i)%nat with false
          by (symmetry; apply Nat.leb_gt; lia).
        cbn [andb]. unfold prec1, sc1.
        rewrite !nth_update_other by lia. split; reflexivity.
      * subst i.
        replace (S j <=? j)%nat with false
          by (symmetry; apply Nat.leb_gt; lia).
        rewrite Nat.leb_refl, Nat.sub_diag. cbn [andb].
        unfold decimalAt at 1 2. cbn [nth]. rewrite Ht.
        unfold prec1, sc1.
        rewrite !nth_update_same by assumption. split; reflexivity.
      * replace (S j <=? i)%nat with true
          by (symmetry; apply Nat.leb_le; lia).
        replace (j <=? i)%nat with true
          by (symmetry; apply Nat.leb_le; lia).
        replace (i - j)%nat with (S (i - S j)) by lia.
        cbn [andb]. unfold decimalAt. cbn [nth].
        unfold prec1, sc1.
        rewrite !nth_update_other by lia. split; reflexivity.
    + destruct (IH (S j) prec sc s (Hrest prec sc eq_refl eq_refl))
        as [prec' [sc' [Hrun [Hlp [Hls Hat]]]]].
      exists prec', sc'. split; [exact Hrun |].
      split; [exact Hlp |]. split; [exact Hls |].
      intros i. destruct (Hat i) as [Hp Hs]. rewrite Hp, Hs.
      destruct (Nat.lt_trichotomy i j) as [Hlt | [Heq | Hgt]].
      * replace (S j <=? i)%nat with false
          by (symmetry; apply Nat.leb_gt; lia).
        replace (j <=? i)%nat with false
          by (symmetry; apply Nat.leb_gt; lia).
        split; reflexivity.
      * subst i.
        replace (S j <=? j)%nat with false
          by (symmetry; apply Nat.leb_gt; lia).
        rewrite Nat.leb_refl, Nat.sub_diag. cbn [andb].
        unfold decimalAt at 1 2. cbn [nth]. rewrite Ht.
        split; reflexivity.
      * replace (S j <=? i)%nat with true
          by (symmetry; apply Nat.leb_le; lia).
        replace (j <=? i)%nat with true
          by (symmetry; apply Nat.leb_le; lia).
        replace (i - j)%nat with (S (i - S j)) by lia.
        split; reflexivity.
Qed.

(** X26.  The headers of the sizes.  A [length] header puts the first number
    of its value [i] into the display size of column [i], and a [typesizes]
    header into the internal size; the places after the values stay.  A
    header with more values than the table line gave columns makes the pass
    panic.  The [typesizes] header also gives every column whose type is
    [decimal] the first number as its precision and the second as its
    scale, and leaves the precision and the scale of the other columns: the
    types are those of a [type] header that came before. *)
Theorem size_headers {St} (l : locals) (values : list string) (s : St) :
  ((List.length values <= List.length (displaySizes l))%nat ->
   headerLocals "length" values l s
   = (Ok (set_displaySizes (overwritten values (displaySizes l)) l), s))
  /\ ((List.length (displaySizes l) < List.length values)%nat ->
      headerLocals "length" values l s = (Panic "index out of range", s))
  /\ ((List.length (internalSizes l) < List.length values)%nat ->
      headerLocals "typesizes" values l s = (Panic "index out of range", s))
  /\ ((List.length values <= List.length (internalSizes l))%nat ->
      (forall j : nat,
          decimalAt (columnTypes l) j = true ->
          (j < List.length values)%nat
          /\ (2 <= List.length (numbers (nth j values "")))%nat
          /\ (j < List.length (precisions l))%nat
          /\ (j < List.length (scales l))%nat) ->
      exists precisions' scales' : list Z,
        headerLocals "typesizes" values l s
        = (Ok (mkLocals (columnNames l) (columnTypes l) (displaySizes l)
                        (overwritten values (internalSizes l))
                        precisions' scales' (nullOks l)
                        (addedResultSets l)), s)
        /\ List.length precisions' = List.length (precisions l)
        /\ List.length scales' = List.length (scales l)
        /\ forall j : nat,
            nth j precisions' 0
            = decimalOr 0 (columnTypes l) values (precisions l) j
            /\ nth j scales' 0
               = decimalOr 1 (columnTypes l) values (scales l) j).
Proof.
  split; [| split; [| split]].
  - intros Hlen.
    destruct (wide_parts _ (displaySizes l) Hlen) as [Hparts Hmid].
    unfold headerLocals. cbn [String.eqb Ascii.eqb Bool.eqb].
    unfold bind at 1. change 0 with (len (@nil Z)) at 1.
    rewrite Hparts at 1. rewrite (length_loop_over values [] _ _ s Hmid).
    reflexivity.
  - intros Hlen.
    destruct (long_parts _ values Hlen) as [value [more [Hparts Hpre]]].
    unfold headerLocals. cbn [String.eqb Ascii.eqb Bool.eqb].
    unfold bind at 1. change 0 with (len (@nil Z)) at 1.
    rewrite Hparts.
    change (displaySizes l) with ([] ++ displaySizes l) at 1.
    rewrite (length_loop_beyond _ [] (displaySizes l) value more s)
      by (symmetry; exact Hpre).
    reflexivity.
  - intros Hlen.
    destruct (long_parts _ values Hlen) as [value [more [Hparts Hpre]]].
    unfold headerLocals. cbn [String.eqb Ascii.eqb Bool.eqb].
    unfold bind at 1. change 0 with (len (@nil Z)) at 1.
    rewrite Hparts.
    change (internalSizes l) with ([] ++ internalSizes l) at 1.
    rewrite (typesizes_loop_beyond _ [] (internalSizes l) value more [] s)
      by (symmetry; exact Hpre).
    reflexivity.
  - intros Hlen Hdec.
    destruct (wide_parts _ (internalSizes l) Hlen) as [Hparts Hmid].
    assert (Hsizes : forall j : nat,
               (j < List.length values)%nat ->
               nth j (map numbers values) [] = numbers (nth j values "")).
    { intros j Hj.
      rewrite (nth_indep _ [] (numbers "")) by (rewrite length_map; exact Hj).
      apply map_nth. }
    destruct (decimal_loop_from (map numbers values) (columnTypes l) 0
                                (precisions l) (scales l) s)
      as [prec' [sc' [Hrun [Hlp [Hls Hat]]]]].
    { intros i Hi. destruct (Hdec i Hi) as [Hv [Htwo [Hp Hs]]].
      cbn [Nat.add]. rewrite length_map, (Hsizes i Hv). auto. }
    exists prec', sc'. split; [| split; [exact Hlp | split; [exact Hls |]]].
    + unfold headerLocals. cbn [String.eqb Ascii.eqb Bool.eqb].
      unfold bind at 1. change 0 with (len (@nil Z)) at 1.
      rewrite Hparts at 1.
      rewrite (typesizes_loop_over values [] _ _ [] s Hmid).
      cbn [app]. unfold bind at 1.
      change 0 with (Z.of_nat 0) at 1. rewrite Hrun. reflexivity.
    + intros j. destruct (Hat j) as [Hp Hs]. rewrite Hp, Hs.
      cbn [Nat.leb andb]. rewrite Nat.sub_0_r. unfold decimalOr.
      destruct (decimalAt (columnTypes l) j) eqn:Hj; [| split; reflexivity].
      destruct (Hdec j Hj) as [Hv _]. rewrite (Hsizes j Hv).
      split; reflexivity.
Qed.

(** X27.  A header line: the text before [#] is split at the commas into
    the values, the text after it is the identity, and whatever the identity
    is, the schema of the current resultset is made again from all the local
    variables and its offset and last row id are set to 0.  A [name] header
    sets the names and a [type] header the types to the values; a header of
    another identity than the four the code knows changes no local
    variable.  When the local variables after the header hold more names
    than one of the other slices has places, the pass panics and the query
    is as it was. *)
Theorem storeHeader_line
        (q : query) (s : ResultSet) (l l' : locals)
        (line rest data identity : string) (more : list string) :
  currentIs q s ->
  suffixFrom line 1 = Some rest ->
  Split rest "#" = data :: identity :: more ->
  headerLocals (TrimSpace identity) (valuesOf data) l q = (Ok l', q) ->
  (wideEnough l' ->
   storeHeader line l q = (Ok (Continue l'), withCurrent (headed l') q))
  /\ (~ wideEnough l' ->
      storeHeader line l q = (Panic "index out of range", q))
  /\ (TrimSpace identity = "name" ->
      columnNames l' = valuesOf data /\ columnTypes l' = columnTypes l)
  /\ (TrimSpace identity = "type" ->
      columnTypes l' = valuesOf data /\ columnNames l' = columnNames l)
  /\ (understood (TrimSpace identity) = false -> l' = l).
Proof.
  intros Hs Hrest Hparts Hlocals.
  assert (Hrun : storeHeader line l q
                 = (p <- Result ;;
                    updateSchema p l' ;;;
                    p <- Result ;; store p (on_Metadata (set_Offset 0)) ;;;
                    p <- Result ;; store p (on_Metadata (set_LastRowId 0)) ;;;
                    ret (Continue l')) q).
  { unfold storeHeader.
    unfold bind at 1. rewrite (from_suffix line rest 1 q Hrest).
    rewrite Hparts.
    unfold bind at 1, Mapi.index at 1.
    cbn [Z.ltb Z.compare Z.to_nat nth_error]. unfold ret at 1.
    unfold bind at 1, Mapi.index at 1.
    change (Z.to_nat 1) with 1%nat. cbn [Z.ltb Z.compare nth_error].
    unfold ret at 1.
    unfold bind at 1. fold (valuesOf data). rewrite Hlocals. reflexivity. }
  split; [| split; [| split; [| split]]].
  - intros Hwide. rewrite Hrun.
    unfold bind at 1. rewrite (proj1 (Result_current q s Hs)).
    unfold bind at 1, updateSchema, bind at 1.
    pose proof (updateSchema_loop_wide l' (columnNames l') 0 q eq_refl Hwide)
      as Hloop.
    change (Z.of_nat 0) with 0 in Hloop. rewrite Hloop.
    rewrite <- described_elements. rewrite (store_current q s _ Hs).
    pose proof (withCurrent_current q s (set_Schema (described l')) Hs)
      as Hs1.
    set (q1 := withCurrent (set_Schema (described l')) q) in *.
    unfold bind at 1. rewrite (proj1 (Result_current q1 _ Hs1)).
    unfold bind at 1. rewrite (store_current q1 _ _ Hs1).
    pose proof (withCurrent_current q1 _ (on_Metadata (set_Offset 0)) Hs1)
      as Hs2.
    set (q2 := withCurrent (on_Metadata (set_Offset 0)) q1) in *.
    unfold bind at 1. rewrite (proj1 (Result_current q2 _ Hs2)).
    unfold bind at 1. rewrite (store_current q2 _ _ Hs2).
    unfold q2, q1. rewrite !withCurrent_twice. reflexivity.
  - intros Hnarrow. rewrite Hrun.
    unfold bind at 1. rewrite (proj1 (Result_current q s Hs)).
    unfold bind at 1, updateSchema, bind at 1.
    pose proof (updateSchema_loop_narrow l' (columnNames l') 0 q eq_refl
                  ltac:(lia) ltac:(lia) ltac:(lia) ltac:(lia) ltac:(lia)
                  ltac:(lia) Hnarrow) as Hloop.
    change (Z.of_nat 0) with 0 in Hloop. rewrite Hloop. reflexivity.
  - intros Hid. rewrite Hid in Hlocals. unfold headerLocals in Hlocals.
    cbn [String.eqb Ascii.eqb Bool.eqb] in Hlocals.
    injection Hlocals as Hl'. subst l'. split; reflexivity.
  - intros Hid. rewrite Hid in Hlocals. unfold headerLocals in Hlocals.
    cbn [String.eqb Ascii.eqb Bool.eqb] in Hlocals.
    injection Hlocals as Hl'. subst l'. split; reflexivity.
  - intros Hid. unfold understood in Hid.
    apply orb_false_iff in Hid. destruct Hid as [Hid Hlength].
    apply orb_false_iff in Hid. destruct Hid as [Hid Hsizes].
    apply orb_false_iff in Hid. destruct Hid as [Hname Htype].
    unfold headerLocals in Hlocals.
    rewrite Hname, Htype, Hsizes, Hlength in Hlocals.
    injection Hlocals as Hl'. symmetry. exact Hl'.
Qed.

End Tables.

(** ** The version without a cursor (v2/mapi/query.go) *)

Section Legacy.

Context {C : Codec}.

Lemma Legacy_storeLines_app (pre rest : list string) :
  forall (l : locals) (q : Legacy.query),
    Legacy_storeLines (pre ++ rest) l q
    = match Legacy_storeLines pre l q with
      | (Ok (Continue l'), q') => Legacy_storeLines rest l' q'
      | other => other
      end.
Proof.
  induction pre as [| line pre IH]; intros l q; [reflexivity |].
  cbn [app Legacy_storeLines]. unfold bind.
  destruct (Legacy.storeLine line l q) as [[[l' |] | e | w |] q'];
    try reflexivity.
  apply IH.
Qed.

Lemma Legacy_StoreResult_loop_storeLines (r : string) (lines : list string) :
  forall (l : locals) (q : Legacy.query),
    Legacy.StoreResult_loop r lines l q
    = match Legacy_storeLines lines l q with
      | (Ok (Continue _), q') => (Err ("mapi: unknown state: " ++ r)%string, q')
      | (Ok Return, q') => (Ok tt, q')
      | (Err e, q') => (Err e, q')
      | (Panic w, q') => (Panic w, q')
      | (Timeout, q') => (Timeout, q')
      end.
Proof.
  induction lines as [| line rest IH]; intros l q; [reflexivity |].
  cbn [Legacy.StoreResult_loop Legacy_storeLines]. unfold bind.
  destruct (Legacy.storeLine line l q) as [[[l' |] | e | w |] q'];
    try reflexivity.
  apply IH.
Qed.

(** A line without a mark passes every test of the chain before the test
    for the prompt, and that test holds for it. *)
Lemma Legacy_storeLine_unmarked (line : string) (l : locals)
      (q : Legacy.query) :
  unmarked line = true -> Legacy.storeLine line l q = (Ok Return, q).
Proof.
  intros Hline. destruct line as [| c rest]; [reflexivity |].
  unfold unmarked, HasPrefix, mapi_MSG_INFO, mapi_MSG_Q, mapi_MSG_TUPLE,
    mapi_MSG_HEADER in Hline.
  rewrite !(HandshakeFacts.prefix_cons _ c), !HandshakeFacts.prefix_empty,
    !andb_true_r in Hline.
  apply andb_true_iff in Hline. destruct Hline as [Hline Hheader].
  apply andb_true_iff in Hline. destruct Hline as [Hline Htuple].
  apply andb_true_iff in Hline. destruct Hline as [Hinfo Hq].
  apply negb_true_iff in Hinfo, Hq, Htuple, Hheader.
  unfold Legacy.storeLine, HasPrefix, mapi_MSG_PROMPT, mapi_MSG_INFO,
    mapi_MSG_ERROR, mapi_MSG_QPREPARE, mapi_MSG_QTABLE, mapi_MSG_TUPLE,
    mapi_MSG_QBLOCK, mapi_MSG_QSCHEMA, mapi_MSG_QUPDATE, mapi_MSG_QTRANS,
    mapi_MSG_HEADER.
  rewrite !(HandshakeFacts.prefix_cons _ c), !HandshakeFacts.prefix_empty.
  rewrite Hinfo, Hq, Htuple, Hheader. reflexivity.
Qed.

(** X28.  The error line in the version without a cursor.  There the kind
    of a line is found by a chain of prefix tests, and the test for the
    prompt, whose mark is the empty text, comes before the test for the
    error: a line that starts with [!], and every other line without one of
    the marks of the lines before it in the chain, ends the pass of
    [StoreResult] with nil.  The query is as the lines before left it, and
    the lines after are not looked at. *)
Theorem Legacy_error_line_ends_pass
        (q : Legacy.query) (r : string) (pre : list string) (line : string)
        (post : list string) (l1 : locals) (q1 : Legacy.query) :
  Split r newline = pre ++ line :: post ->
  Legacy_storeLines pre locals0 q = (Ok (Continue l1), q1) ->
  (unmarked line = true -> Legacy.StoreResult r q = (Ok tt, q1))
  /\ (forall msg : string,
        line = ("!" ++ msg)%string -> Legacy.StoreResult r q = (Ok tt, q1)).
Proof.
  intros Hsplit Hpre.
  assert (Hend : unmarked line = true ->
                 Legacy.StoreResult r q = (Ok tt, q1)).
  { intros Hline. unfold Legacy.StoreResult.
    rewrite Legacy_StoreResult_loop_storeLines, Hsplit,
      Legacy_storeLines_app, Hpre.
    cbn [Legacy_storeLines]. unfold bind.
    rewrite (Legacy_storeLine_unmarked line l1 q1 Hline). reflexivity. }
  split; [exact Hend |].
  intros msg Hmsg. apply Hend. subst line.
  unfold unmarked, HasPrefix, mapi_MSG_INFO, mapi_MSG_Q, mapi_MSG_TUPLE,
    mapi_MSG_HEADER.
  cbn [String.append].
  rewrite !(HandshakeFacts.prefix_cons _ "!"). reflexivity.
Qed.

End Legacy.


Lemma size_headers_witness :
  let l := mkLocals ["id"; "price"] ["int"; "decimal"] [0; 0] [0; 0] [0; 0]
                    [0; 0] [0; 0] true in
  exists precisions' scales' : list Z,
    headerLocals "typesizes" ["32 0"; "10 2"] l tt
    = (Ok (mkLocals ["id"; "price"] ["int"; "decimal"] [0; 0] [32; 10]
                    precisions' scales' [0; 0] true), tt)
    /\ (nth 0 precisions' 0, nth 0 scales' 0) = (0, 0)
    /\ (nth 1 precisions' 0, nth 1 scales' 0) = (10, 2).
Proof.
  intros l.
  assert (Hlen : (List.length ["32 0"; "10 2"]
                  <= List.length (internalSizes l))%nat)
    by (vm_compute; lia).
  assert (Hdec : forall j : nat,
             decimalAt (columnTypes l) j = true ->
             (j < List.length ["32 0"; "10 2"])%nat
             /\ (2 <= List.length (numbers (nth j ["32 0"; "10 2"] "")))%nat
             /\ (j < List.length (precisions l))%nat
             /\ (j < List.length (scales l))%nat).
  { intros [| [| j]] Hj.
    - vm_compute in Hj. discriminate.
    - vm_compute. repeat split; lia.
    - destruct j; vm_compute in Hj; discriminate. }
  destruct (size_headers l ["32 0"; "10 2"] tt) as [_ [_ [_ Hsizes]]].
  destruct (Hsizes Hlen Hdec) as [prec' [sc' [Hrun [_ [_ Hat]]]]].
  exists prec', sc'. split; [exact Hrun |].
  destruct (Hat 0%nat) as [Hp0 Hs0]. destruct (Hat 1%nat) as [Hp1 Hs1].
  rewrite Hp0, Hs0, Hp1, Hs1. split; vm_compute; reflexivity.
Defined.

Lemma storeHeader_line_witness :
  let q := snd (StoreResult (C := sampleCodec) (response ["&1 7 3 2 3"])
                            (NewQuery None "select * from t")) in
  let l := blank 2 in
  let named names := mkLocals names [""; ""] [0; 0] [0; 0] [0; 0] [0; 0]
                              [0; 0] true in
  (storeHeader (headerLine ["id"; "name"] "name") l q
   = (Ok (Continue (named ["id"; "name"])),
      withCurrent (headed (named ["id"; "name"])) q)
   /\ map (map ColumnName)
          (map Schema
               (resultSets (withCurrent (headed (named ["id"; "name"])) q)))
      = [["id"; "name"]])
  /\ storeHeader (headerLine ["id"; "name"; "more"] "name") l q
     = (Panic "index out of range", q).
Proof.
  intros q l named.
  assert (Hs : currentIs q (tableCounts "7" "3" "2" fresh))
    by (split; [vm_compute; discriminate | vm_compute; reflexivity]).
  split; [split |].
  - assert (Hrest : suffixFrom (headerLine ["id"; "name"] "name") 1
                    = Some (" id," ++ tab ++ "name # name")%string)
      by (vm_compute; reflexivity).
    assert (Hparts : Split (" id," ++ tab ++ "name # name") "#"
                     = [(" id," ++ tab ++ "name ")%string; " name"])
      by (vm_compute; reflexivity).
    assert (Hlocals : headerLocals (TrimSpace " name")
                        (valuesOf (" id," ++ tab ++ "name ")) l q
                      = (Ok (named ["id"; "name"]), q))
      by (vm_compute; reflexivity).
    assert (Hwide : wideEnough (named ["id"; "name"]))
      by (vm_compute; repeat split; lia).
    destruct (storeHeader_line q _ l _ _ _ _ _ _ Hs Hrest Hparts Hlocals)
      as [Hok _].
    exact (Hok Hwide).
  - vm_compute. reflexivity.
  - assert (Hrest : suffixFrom (headerLine ["id"; "name"; "more"] "name") 1
                    = Some (" id," ++ tab ++ "name," ++ tab
                            ++ "more # name")%string)
      by (vm_compute; reflexivity).
    assert (Hparts : Split (" id," ++ tab ++ "name," ++ tab ++ "more # name")
                           "#"
                     = [(" id," ++ tab ++ "name," ++ tab ++ "more ")%string;
                        " name"])
      by (vm_compute; reflexivity).
    assert (Hlocals : headerLocals (TrimSpace " name")
                        (valuesOf (" id," ++ tab ++ "name," ++ tab ++ "more "))
                        l q
                      = (Ok (named ["id"; "name"; "more"]), q))
      by (vm_compute; reflexivity).
    assert (Hnarrow : ~ wideEnough (named ["id"; "name"; "more"]))
      by (vm_compute; intros [Hn _]; lia).
    destruct (storeHeader_line q _ l _ _ _ _ _ _ Hs Hrest Hparts Hlocals)
      as [_ [Hpanic _]].
    exact (Hpanic Hnarrow).
Defined.

Lemma Legacy_error_line_ends_pass_witness :
  let q := Legacy.NewQuery (C := sampleCodec) None "select 1; select" in
  let r := response ["&1 7 1 1 1"; "!42000!syntax error"; "[ 1 ]"] in
  fst (Legacy.StoreResult r q) = Ok tt
  /\ map (fun s => (QueryId (Metadata_ s), List.length (Rows_ s)))
         (Legacy.resultSets (snd (Legacy.StoreResult r q))) = [(7, 0%nat)]
  /\ fst (StoreResult (C := sampleCodec) r
                      (NewQuery None "select 1; select"))
     = Err "mapi: database error: 42000!syntax error".
Proof.
  intros q r.
  assert (Hsplit : Split r newline
                   = ["&1 7 1 1 1"] ++ "!42000!syntax error" :: ["[ 1 ]"; ""])
    by (vm_compute; reflexivity).
  destruct (Legacy_storeLines ["&1 7 1 1 1"] locals0 q) as [f q1] eqn:Hpre.
  assert (Hf : f = Ok (Continue (mkLocals [""] [""] [0] [0] [0] [0] [0] false)))
    by (apply (f_equal fst) in Hpre; vm_compute in Hpre; symmetry;
        exact Hpre).
  assert (Hq1 : map (fun s => (QueryId (Metadata_ s), List.length (Rows_ s)))
                    (Legacy.resultSets q1) = [(7, 0%nat)])
    by (apply (f_equal snd) in Hpre; cbn [snd] in Hpre; subst q1;
        vm_compute; reflexivity).
  subst f.
  destruct (Legacy_error_line_ends_pass q r _ _ _ _ _ Hsplit Hpre)
    as [_ Herror].
  rewrite (Herror "42000!syntax error" eq_refl). cbn [fst snd].
  split; [reflexivity |]. split; [exact Hq1 |].
  vm_compute. reflexivity.
Defined.

End TableFacts.
